(** * file-patch: the patch lifecycle of [src/patcher.ts]

    A shallow embedding of the four operations [createPatch], [commitPatch],
    [applyPatch] and [revertPatch] over a model of the part of the file
    system they touch, with the [diff] package taken as a parameter; then
    [applyPatchManually], the helper that nothing calls, and the command
    line front end of [src/index.ts]. *)

From Stdlib Require Import Ascii.
From stdpp Require Import gmap strings list fin_maps sorting.

Local Open Scope string_scope.
Local Open Scope list_scope.

(** ** Node's [path] module (POSIX flavour)

    Paths are the strings the program handles.  A path is read as its list of
    non-empty components; [join], [resolve] and [basename] follow
    [path.posix].  Trailing separators are not preserved by [normalize]: no
    path built by the program ends in one. *)

Module Path.

Definition slash : ascii := "/"%char.

Fixpoint split_path (cur s : string) : list string :=
  match s with
  | EmptyString => match cur with EmptyString => [] | _ => [cur] end
  | String c s' =>
      if Ascii.eqb c slash
      then match cur with
           | EmptyString => split_path "" s'
           | _ => cur :: split_path "" s'
           end
      else split_path (cur +:+ String c "") s'
  end.

Definition segments (p : string) : list string := split_path "" p.

Definition isAbsolute (p : string) : bool :=
  match p with
  | String c _ => Ascii.eqb c slash
  | EmptyString => false
  end.

(** [normalizeString]: the accumulator is the stack of kept components, most
    recent first. *)
Definition norm_step (allowAboveRoot : bool) (acc : list string) (s : string)
  : list string :=
  if String.eqb s "." then acc
  else if String.eqb s ".." then
    match acc with
    | [] => if allowAboveRoot then [".."] else []
    | t :: acc' => if String.eqb t ".." then ".." :: acc else acc'
    end
  else s :: acc.

Definition normalizeSegs (allowAboveRoot : bool) (l : list string) : list string :=
  rev (fold_left (norm_step allowAboveRoot) l []).

Fixpoint join_slash (l : list string) : string :=
  match l with
  | [] => ""
  | [s] => s
  | s :: l' => s +:+ "/" +:+ join_slash l'
  end.

Definition render (absolute : bool) (l : list string) : string :=
  if absolute then "/" +:+ join_slash l
  else match l with [] => "." | _ => join_slash l end.

Definition normalize (p : string) : string :=
  render (isAbsolute p) (normalizeSegs (negb (isAbsolute p)) (segments p)).

Definition join (a b : string) : string :=
  let joined :=
    match a, b with
    | EmptyString, _ => b
    | _, EmptyString => a
    | _, _ => a +:+ "/" +:+ b
    end in
  match joined with
  | EmptyString => "."
  | _ => normalize joined
  end.

Definition basename (p : string) : string := default "" (last (segments p)).

(** The key of a path: its absolute, normalised component list when read from
    directory [dir]. *)
Definition locate (dir : list string) (p : string) : list string :=
  normalizeSegs false (if isAbsolute p then segments p else dir ++ segments p).

Definition resolve (cwd : list string) (p : string) : string :=
  render true (locate cwd p).

Fixpoint ends_slash (p : string) : bool :=
  match p with
  | EmptyString => false
  | String c EmptyString => Ascii.eqb c slash
  | String _ p' => ends_slash p'
  end.

(** A path whose form only ever names a directory: empty, ending in a
    separator, or ending in [.] or [..]. *)
Definition dirlike (p : string) : bool :=
  ends_slash p ||
  (let n := default "." (last (segments p)) in
   String.eqb n "." || String.eqb n "..").

Fixpoint no_slash (s : string) : bool :=
  match s with
  | EmptyString => true
  | String c s' => negb (Ascii.eqb c slash) && no_slash s'
  end.

(** A component: non-empty and free of separators. *)
Definition is_name (n : string) : Prop := n ≠ "" ∧ no_slash n = true.

(** A component that normalisation keeps. *)
Definition proper (n : string) : Prop := is_name n ∧ n ≠ "." ∧ n ≠ "..".

(** A component that normalisation does not consume. *)
Definition kept (n : string) : Prop := n ≠ "." ∧ n ≠ "..".

End Path.

(** ** The file system

    The state is a finite map from absolute, normalised component lists to
    nodes; the root is an implicit writable directory.  Path walks are
    lexical: symbolic links are followed at the last component only
    (directories reached through a link are outside the model).  A
    directory carries one permission bit, whether entries may be added to or
    removed from it. *)

Inductive node :=
| File (content : string)
| Symlink (target : string)
| Dir (writable : bool).

Inductive errno := ENOENT | EEXIST | EISDIR | ENOTDIR | EACCES | ELOOP.

Inductive exn :=
| SystemError (code : errno)
| Error (message : string).

Inductive result (A : Type) :=
| Ok (a : A)
| Throw (e : exn).
Arguments Ok {A} a.
Arguments Throw {A} e.

Abbreviation FS :=
  (@gmap (list string) (@list_eq_dec string String.eq_dec)
     (@list_countable string String.eq_dec String.countable) node).

(** An [async] function: it runs on the file system and either returns or
    throws; what it wrote before throwing stays written. *)
Definition Promise (A : Type) : Type := FS → result A * FS.

Global Instance result_ret : MRet result := λ A a, Ok a.
Global Instance result_bind : MBind result := λ A B k r,
  match r with Ok a => k a | Throw e => Throw e end.

Global Instance promise_ret : MRet Promise := λ A a fs, (Ok a, fs).
Global Instance promise_bind : MBind Promise := λ A B k m fs,
  match m fs with
  | (Ok a, fs') => k a fs'
  | (Throw e, fs') => (Throw e, fs')
  end.

Definition throw {A} (e : exn) : Promise A := λ fs, (Throw e, fs).

(** A synchronous call that may throw. *)
Definition call {A} (r : result A) : Promise A := λ fs, (r, fs).

(** [p.catch(() => {})] *)
Definition catch_ignore (m : Promise unit) : Promise unit := λ fs,
  (Ok tt, (m fs).2).

(** [try { await m } catch (error) { h(error) }] *)
Definition try_catch {A} (m : Promise A) (h : exn → Promise A) : Promise A := λ fs,
  match m fs with
  | (Throw e, fs') => h e fs'
  | r => r
  end.

Definition code (e : exn) : option errno :=
  match e with SystemError c => Some c | Error _ => None end.

Global Instance errno_eq_dec : EqDecision errno.
Proof. solve_decision. Defined.

Inductive Stats := StatFile | StatDirectory | StatSymbolicLink.

Definition isSymbolicLink (s : Stats) : bool :=
  match s with StatSymbolicLink => true | _ => false end.

(** What a path leads to once final symbolic links are followed. *)
Inductive found :=
| Missing
| Regular (content : string)
| Directory (writable : bool).

Module fs.

(** The node at a key; the root is a writable directory. *)
Definition get (m : FS) (k : list string) : option node :=
  match k with
  | [] => Some (Dir true)
  | _ => m !! k
  end.

Definition parent (k : list string) : list string := removelast k.

Definition max_symlinks : nat := 40.

(** A new entry: the directory it goes into must exist and be writable. *)
Definition create (k : list string) (n : node) (m : FS) : result FS :=
  match get m (parent k) with
  | Some (Dir true) => Ok (<[k := n]> m)
  | Some (Dir false) => Throw (SystemError EACCES)
  | Some _ => Throw (SystemError ENOTDIR)
  | None => Throw (SystemError ENOENT)
  end.

(** Follows the links at the end of [p], read from directory [dir]; a
    relative link target is read from the directory holding the link. *)
Fixpoint chase (fuel : nat) (m : FS) (dir : list string) (p : string)
  : result (list string * found) :=
  let k := Path.locate dir p in
  match get m k with
  | Some (Symlink t) =>
      if Path.dirlike p then Throw (SystemError ENOTDIR)
      else match fuel with
           | 0 => Throw (SystemError ELOOP)
           | S fuel' => chase fuel' m (parent k) t
           end
  | Some (Dir w) => Ok (k, Directory w)
  | Some (File c) =>
      if Path.dirlike p then Throw (SystemError ENOTDIR) else Ok (k, Regular c)
  | None =>
      if Path.dirlike p then Throw (SystemError ENOENT) else Ok (k, Missing)
  end.

(** Recursive [mkdir] of the directory whose components, innermost first,
    are [rk]: missing ancestors are created first; what was created stays
    when a later step fails. *)
Fixpoint mkdirp (m : FS) (rk : list string) : result unit * FS :=
  match get m (rev rk) with
  | Some (Dir _) => (Ok tt, m)
  | Some _ => (Throw (SystemError EEXIST), m)
  | None =>
      match rk with
      | [] => (Ok tt, m)
      | _ :: rk' =>
          match mkdirp m rk' with
          | (Ok _, m') =>
              match create (rev rk) (Dir true) m' with
              | Ok m'' => (Ok tt, m'')
              | Throw e => (Throw e, m')
              end
          | (Throw (SystemError EEXIST), m') => (Throw (SystemError ENOTDIR), m')
          | (Throw e, m') => (Throw e, m')
          end
      end
  end.

Section WithCwd.

Variable cwd : list string.

(** [fs.mkdir(p, { recursive: true })] *)
Definition mkdir (p : string) : Promise unit := λ m,
  mkdirp m (rev (Path.locate cwd p)).

(** [fs.readFile(p, 'utf-8')]: contents are kept as decoded text. *)
Definition readFile (p : string) : Promise string := λ m,
  match chase max_symlinks m cwd p with
  | Ok (_, Regular c) => (Ok c, m)
  | Ok (_, Directory _) => (Throw (SystemError EISDIR), m)
  | Ok (_, Missing) => (Throw (SystemError ENOENT), m)
  | Throw e => (Throw e, m)
  end.

(** [fs.writeFile(p, data)]: links are followed; an existing file is
    overwritten, a missing one created. *)
Definition writeFile (p data : string) : Promise unit := λ m,
  match chase max_symlinks m cwd p with
  | Ok (k, Regular _) => (Ok tt, <[k := File data]> m)
  | Ok (_, Directory _) => (Throw (SystemError EISDIR), m)
  | Ok (k, Missing) =>
      match create k (File data) m with
      | Ok m' => (Ok tt, m')
      | Throw e => (Throw e, m)
      end
  | Throw e => (Throw e, m)
  end.

(** [fs.copyFile(src, dest)]: the content of [src] written to [dest], links
    followed on both sides. *)
Definition copyFile (src dest : string) : Promise unit :=
  content ← readFile src; writeFile dest content.

(** [fs.access(p)]: whether [p] exists, links followed. *)
Definition access (p : string) : Promise unit := λ m,
  match chase max_symlinks m cwd p with
  | Ok (_, Missing) => (Throw (SystemError ENOENT), m)
  | Ok _ => (Ok tt, m)
  | Throw e => (Throw e, m)
  end.

(** [fs.lstat(p)]: the kind of the entry itself, links not followed. *)
Definition lstat (p : string) : Promise Stats := λ m,
  match get m (Path.locate cwd p) with
  | None => (Throw (SystemError ENOENT), m)
  | Some (Dir _) => (Ok StatDirectory, m)
  | Some (File _) =>
      if Path.dirlike p then (Throw (SystemError ENOTDIR), m) else (Ok StatFile, m)
  | Some (Symlink _) =>
      if Path.dirlike p then (Throw (SystemError ENOTDIR), m)
      else (Ok StatSymbolicLink, m)
  end.

(** [fs.unlink(p)]: removes the entry itself, which must not be a
    directory, from a writable directory. *)
Definition unlink (p : string) : Promise unit := λ m,
  let k := Path.locate cwd p in
  match get m k with
  | None => (Throw (SystemError ENOENT), m)
  | Some (Dir _) => (Throw (SystemError EISDIR), m)
  | Some _ =>
      if Path.dirlike p then (Throw (SystemError ENOTDIR), m)
      else match get m (parent k) with
           | Some (Dir true) => (Ok tt, delete k m)
           | Some (Dir false) => (Throw (SystemError EACCES), m)
           | _ => (Throw (SystemError ENOTDIR), m)
           end
  end.

(** [fs.symlink(target, p)]: the target text is stored as given. *)
Definition symlink (target p : string) : Promise unit := λ m,
  let k := Path.locate cwd p in
  match get m k with
  | Some _ => (Throw (SystemError EEXIST), m)
  | None =>
      if Path.dirlike p then (Throw (SystemError ENOENT), m)
      else match create k (Symlink target) m with
           | Ok m' => (Ok tt, m')
           | Throw e => (Throw e, m)
           end
  end.

End WithCwd.

End fs.

(** The map holds at [k] what a chase reports as found. *)
Definition holds (m : FS) (k : list string) (f : found) : Prop :=
  fs.get m k =
    match f with
    | Missing => None
    | Regular c => Some (File c)
    | Directory w => Some (Dir w)
    end.

(** ** [src/patcher.ts] *)

Definition PATCHES_DIR : string := "patches".

Section Patcher.

Variable cwd : list string.

(** The [diff] package: [createPatch], [parsePatch] and [applyPatch], the
    last returning [false] (here [None]) when the patch does not apply. *)
Context {patch : Type}.
Variable diffCreate : string → string → string → string → string → string.
Variable parsePatch : string → bool → result (list patch).
Variable diffApply : string → option patch → nat → result (option string).

Definition ensurePatchesDir : Promise unit :=
  try_catch (fs.mkdir cwd PATCHES_DIR)
    (λ error,
       if decide (code error ≠ Some EEXIST) then throw error else mret tt).

Definition createPatch (filePath : string) : Promise unit :=
  let absoluteFilePath := Path.resolve cwd filePath in
  let fileName := Path.basename filePath in
  let patchDir := Path.join PATCHES_DIR fileName in
  ensurePatchesDir;;
  fs.mkdir cwd patchDir;;
  originalContent ← fs.readFile cwd absoluteFilePath;
  let copyPath := Path.join patchDir fileName in
  fs.writeFile cwd copyPath originalContent;;
  fs.writeFile cwd (Path.join patchDir "original-path.txt") absoluteFilePath.

Definition commitPatch (filePath : string) : Promise unit :=
  let fileName := Path.basename filePath in
  let patchDir := Path.join PATCHES_DIR fileName in
  let copyPath := Path.join patchDir fileName in
  originalContent ← fs.readFile cwd filePath;
  modifiedContent ← fs.readFile cwd copyPath;
  let patchContent :=
    diffCreate fileName originalContent modifiedContent "original" "modified" in
  let patchPath := Path.join patchDir (fileName +:+ ".patch") in
  fs.writeFile cwd patchPath patchContent;;
  catch_ignore (fs.unlink cwd copyPath).

Definition applyPatch (filePath : string) : Promise unit :=
  let fileName := Path.basename filePath in
  let patchDir := Path.join PATCHES_DIR fileName in
  let patchPath := Path.join patchDir (fileName +:+ ".patch") in
  fs.access cwd patchPath;;
  originalContent ← fs.readFile cwd filePath;
  patchContent ← fs.readFile cwd patchPath;
  patches ← call (parsePatch patchContent false);
  result ← call (diffApply originalContent (head patches) 3);
  match result with
  | None => throw (Error "Failed to apply patch")
  | Some result =>
      let patchedPath := Path.join patchDir (fileName +:+ ".patched") in
      fs.writeFile cwd patchedPath result;;
      let backupPath := Path.join patchDir (fileName +:+ ".original.backup") in
      fs.copyFile cwd filePath backupPath;;
      fs.unlink cwd filePath;;
      fs.symlink cwd patchedPath filePath
  end.

Definition revertPatch (filePath : string) : Promise unit :=
  let fileName := Path.basename filePath in
  let patchDir := Path.join PATCHES_DIR fileName in
  let backupPath := Path.join patchDir (fileName +:+ ".original.backup") in
  let patchedPath := Path.join patchDir (fileName +:+ ".patched") in
  fs.access cwd backupPath;;
  stats ← fs.lstat cwd filePath;
  if isSymbolicLink stats then
    fs.unlink cwd filePath;;
    fs.copyFile cwd backupPath filePath;;
    catch_ignore (fs.unlink cwd backupPath);;
    catch_ignore (fs.unlink cwd patchedPath)
  else mret tt.

End Patcher.

(** ** The patch record of a file

    The paths of the record's fields, as each operation computes them from
    [filePath]. *)

Definition patchDir (filePath : string) : string :=
  Path.join PATCHES_DIR (Path.basename filePath).

Definition snapshotPath (filePath : string) : string :=
  Path.join (patchDir filePath) (Path.basename filePath).

Definition patchPath (filePath : string) : string :=
  Path.join (patchDir filePath) (Path.basename filePath +:+ ".patch").

Definition patchedPath (filePath : string) : string :=
  Path.join (patchDir filePath) (Path.basename filePath +:+ ".patched").

Definition backupPath (filePath : string) : string :=
  Path.join (patchDir filePath) (Path.basename filePath +:+ ".original.backup").

(** The key of a field of the record of [filePath]. *)
Definition recordKey (cwd : list string) (filePath field : string) : list string :=
  Path.normalizeSegs false cwd ++ ["patches"; Path.basename filePath; field].

(** A key that is free or holds a regular file. *)
Definition free (m : FS) (x : list string) : Prop :=
  fs.get m x = None ∨ ∃ c, fs.get m x = Some (File c).

(** A key that is free or a file stays so. *)
Definition free_to (x : list string) (m m' : FS) : Prop := free m x → free m' x.

(** The Untracked state: nothing exists at or below the storage root. *)
Definition untracked (cwd : list string) (m : FS) : Prop :=
  ∀ l, m !! (Path.normalizeSegs false cwd ++ "patches" :: l) = None.

(** What [lstat] and [readFile] report, as observations of a state. *)
Definition kindOf (cwd : list string) (p : string) (m : FS) : result Stats :=
  (fs.lstat cwd p m).1.

Definition contentOf (cwd : list string) (p : string) (m : FS) : result string :=
  (fs.readFile cwd p m).1.

(** The one element of a parse result that [applyPatch] hands to the
    library: [patches[0]]. *)
Definition first_patch {patch} (r : result (list patch)) : result (option patch) :=
  patches ← r; mret (head patches).

(** ** The lifecycle as a machine

    The commands a user issues on one file: the four operations and the edit
    of the snapshot copy made between [create] and [commit].  [run] threads
    the file system through them, whatever each returns, and records whether
    the last [apply] or [revert] that returned was an [apply]. *)

Inductive command :=
| Create
| Edit (text : string)
| Commit
| Apply
| Revert.

Inductive phase := Plain | Applied.

Section Lifecycle.

Variable cwd : list string.
Context {patch : Type}.
Variable diffCreate : string → string → string → string → string → string.
Variable parsePatch : string → bool → result (list patch).
Variable diffApply : string → option patch → nat → result (option string).

Definition perform (filePath : string) (c : command) : Promise unit :=
  match c with
  | Create => createPatch cwd filePath
  | Edit text => fs.writeFile cwd (snapshotPath filePath) text
  | Commit => commitPatch cwd diffCreate filePath
  | Apply => applyPatch cwd parsePatch diffApply filePath
  | Revert => revertPatch cwd filePath
  end.

Definition step (filePath : string) (st : phase * FS) (c : command) : phase * FS :=
  match perform filePath c st.2 with
  | (Ok _, m) =>
      (match c with Apply => Applied | Revert => Plain | _ => st.1 end, m)
  | (Throw _, m) => (st.1, m)
  end.

Definition run (filePath : string) (cs : list command) (st : phase * FS) : phase * FS :=
  fold_left (step filePath) cs st.

End Lifecycle.

(** ** Invariants of the lifecycle *)

(** What [lstat] reports of the live path in each phase. *)
Definition live_kind (ph : phase) : Stats :=
  match ph with
  | Plain => StatFile
  | Applied => StatSymbolicLink
  end.

(** How one key fares from a state to a later one: a file stays a file, a
    link stays the same link and, when [free] is set, a free key stays free
    or becomes a file. *)
Definition stable (free : bool) (x : list string) (m m' : FS) : Prop :=
  match fs.get m x with
  | Some (File _) => ∃ c, fs.get m' x = Some (File c)
  | Some (Symlink t) => fs.get m' x = Some (Symlink t)
  | Some (Dir _) => True
  | None =>
      if free then fs.get m' x = None ∨ ∃ c, fs.get m' x = Some (File c)
      else True
  end.

(** A program all of whose runs, returning or throwing, relate the state
    they start in to the state they leave. *)
Definition preserves {A} (R : FS → FS → Prop) (prog : Promise A) : Prop :=
  ∀ m, R m (prog m).2.

(** The invariant of the lifecycle of [filePath]: the live path holds a
    file or, once applied, a link; the backup path is free or holds a file,
    and holds a file while applied. *)
Definition lifecycle_inv (cwd : list string) (filePath : string)
    (st : phase * FS) : Prop :=
  Path.dirlike filePath = false ∧
  match st.1 with
  | Plain =>
      (∃ c, fs.get st.2 (Path.locate cwd filePath) = Some (File c))
      ∧ free st.2 (Path.locate cwd (backupPath filePath))
  | Applied =>
      (∃ t, fs.get st.2 (Path.locate cwd filePath) = Some (Symlink t))
      ∧ ∃ c, fs.get st.2 (Path.locate cwd (backupPath filePath)) = Some (File c)
  end.

(** ** A small diff library for closed examples

    One hunk: the common prefix of the two texts as context, the text removed
    after it and the text added in its place.  The patch text carries the two
    lengths in unary before the three parts. *)

Module RefDiff.

Record hunk := Hunk { context : string; removed : string; added : string }.

Fixpoint common_prefix (a b : string) : string :=
  match a, b with
  | String x a', String y b' =>
      if Ascii.eqb x y then String x (common_prefix a' b') else ""
  | _, _ => ""
  end.

Fixpoint drop_str (n : nat) (s : string) : string :=
  match n, s with
  | S n', String _ s' => drop_str n' s'
  | _, _ => s
  end.

Fixpoint take_str (n : nat) (s : string) : string :=
  match n, s with
  | S n', String c s' => String c (take_str n' s')
  | _, _ => ""
  end.

Fixpoint marks (n : nat) : string :=
  match n with
  | 0 => "|"
  | S n' => String "@" (marks n')
  end.

Fixpoint read_marks (s : string) : option (nat * string) :=
  match s with
  | String c s' =>
      if Ascii.eqb c "@" then
        match read_marks s' with
        | Some (n, rest) => Some (S n, rest)
        | None => None
        end
      else if Ascii.eqb c "|" then Some (0, s')
      else None
  | EmptyString => None
  end.

Definition diffCreate (fileName old new oldHeader newHeader : string) : string :=
  let ctx := common_prefix old new in
  let n := String.length ctx in
  marks n +:+ marks (String.length old - n) +:+ old +:+ drop_str n new.

Definition parsePatch (text : string) (strict : bool) : result (list hunk) :=
  match read_marks text with
  | Some (n, rest) =>
      match read_marks rest with
      | Some (k, body) =>
          Ok [Hunk (take_str n body) (take_str k (drop_str n body))
                (drop_str (n + k) body)]
      | None => Ok []
      end
  | None => Ok []
  end.

Definition diffApply (source : string) (p : option hunk) (fuzzFactor : nat)
  : result (option string) :=
  match p with
  | None => Throw (Error "Cannot read properties of undefined")
  | Some h =>
      let old := context h +:+ removed h in
      if String.prefix old source
      then Ok (Some (context h +:+ added h +:+ drop_str (String.length old) source))
      else Ok None
  end.

End RefDiff.

(** ** Example worlds *)

Module Ex.

Definition cwd : list string := ["home"; "u"].

(** [/home/u] holds [a.txt] and the directory [src] holding another [a.txt]. *)
Definition world : FS :=
  list_to_map
    [ (["home"], Dir true);
      (["home"; "u"], Dir true);
      (["home"; "u"; "a.txt"], File "hello");
      (["home"; "u"; "src"], Dir true);
      (["home"; "u"; "src"; "a.txt"], File "hello") ].

Definition session (filePath : string) (cs : list command) (m : FS) : phase * FS :=
  run cwd RefDiff.diffCreate RefDiff.parsePatch RefDiff.diffApply filePath cs
    (Plain, m).

(** After [create]. *)
Definition created (filePath : string) : FS := (createPatch cwd filePath world).2.

(** After the edit of the snapshot to "hello world" as well. *)
Definition edited (filePath : string) : FS :=
  (fs.writeFile cwd (snapshotPath filePath) "hello world" (created filePath)).2.

(** After [commit] as well. *)
Definition committed (filePath : string) : FS :=
  (commitPatch cwd RefDiff.diffCreate filePath (edited filePath)).2.

(** After [apply] as well. *)
Definition applied (filePath : string) : FS :=
  (applyPatch cwd RefDiff.parsePatch RefDiff.diffApply filePath
     (committed filePath)).2.

(** The live file changed after [commit] so that the patch no longer fits. *)
Definition diverged : FS :=
  <[ ["home"; "u"; "a.txt"] := File "goodbye" ]> (committed "a.txt").

(** A second snapshot in a record directory that has become read-only. *)
Definition readonly : FS :=
  <[ ["home"; "u"; "patches"; "a.txt"] := Dir false ]>
    (fs.writeFile cwd (snapshotPath "a.txt") "hello there" (committed "a.txt")).2.

(** An applied file whose patched result was removed by hand. *)
Definition unpatched : FS :=
  delete ["home"; "u"; "patches"; "a.txt"; "a.txt.patched"] (applied "a.txt").

(** Records in states the operations do not produce: a live file that is
    its own snapshot, and record paths that are links to the live file. *)
Definition nested : FS :=
  <[ ["home"; "u"; "patches"; "a"; "a"] := File "hello" ]>
    (<[ ["home"; "u"; "patches"; "a"] := Dir true ]>
       (<[ ["home"; "u"; "patches"] := Dir true ]> world)).

Definition linked_patch : FS :=
  <[ ["home"; "u"; "patches"; "a.txt"; "a.txt.patch"] := Symlink "a.txt" ]>
    (edited "a.txt").

Definition linked_patched : FS :=
  <[ ["home"; "u"; "patches"; "a.txt"; "a.txt.patched"] := Symlink "../../a.txt" ]>
    (committed "a.txt").

Definition linked_backup : FS :=
  <[ ["home"; "u"; "patches"; "a.txt"; "a.txt.original.backup"] :=
       Symlink "../../a.txt" ]>
    (committed "a.txt").



End Ex.


(** ** The rest of the record

    [createPatch] writes a fifth field beside the snapshot, the absolute path
    of the live file; no operation reads it. *)

Definition pathRecord (filePath : string) : string :=
  Path.join (patchDir filePath) "original-path.txt".

(** The names of the entries the operations compute in the record directory
    of [filePath]. *)
Definition recordFields (filePath : string) : list string :=
  let fileName := Path.basename filePath in
  [ fileName; "original-path.txt"; fileName +:+ ".patch";
    fileName +:+ ".patched"; fileName +:+ ".original.backup" ].

Definition recordKeys (cwd : list string) (filePath : string)
  : list (list string) :=
  recordKey cwd filePath <$> recordFields filePath.

(** A state in which none of them is a link or a directory. *)
Definition plain_record (cwd : list string) (filePath : string) (m : FS) : Prop :=
  Forall (free m) (recordKeys cwd filePath).

(** How a run that starts with a plain record leaves an entry [x] that is
    there: the record is still plain and the entry is as it was. *)
Definition keeps (cwd : list string) (filePath : string) (x : list string)
    (m m' : FS) : Prop :=
  plain_record cwd filePath m →
  plain_record cwd filePath m'
  ∧ (fs.get m x ≠ None → fs.get m' x = fs.get m x).

(** ** [applyPatchManually]

    The helper of [src/patcher.ts] that applies the hunks of a parsed patch
    by line number, without the library.  Of a hunk it reads [oldStart] and
    [lines]; line indices are JavaScript numbers and may be negative, which
    [splice] counts from the end of the array. *)

Module Manual.

Local Open Scope Z_scope.

Record Hunk := { oldStart : Z; lines : list string }.

(** [patch.hunks] may be missing ([patch.hunks || []]). *)
Record Patch := { hunks : option (list Hunk) }.

Definition newline : ascii := "010"%char.

(** [s.split('\n')] *)
Fixpoint splitLines (s : string) : list string :=
  match s with
  | EmptyString => [""%string]
  | String c s' =>
      if Ascii.eqb c newline then ""%string :: splitLines s'
      else match splitLines s' with
           | l :: ls => String c l :: ls
           | [] => [String c ""]
           end
  end.

(** [a.join('\n')] *)
Fixpoint joinLines (a : list string) : string :=
  match a with
  | [] => ""
  | [l] => l
  | l :: a' => l +:+ String newline (joinLines a')
  end.

(** [s.startsWith(c)] for a one-character [c]. *)
Definition startsWith (c : ascii) (s : string) : bool :=
  match s with
  | String c' _ => Ascii.eqb c' c
  | EmptyString => false
  end.

(** [s.substring(1)] *)
Definition substring1 (s : string) : string :=
  match s with
  | String _ s' => s'
  | EmptyString => ""
  end.

(** How the loop reads a line of a hunk: by its first character alone. *)
Inductive mark :=
| Removed
| Added (text : string)
| Context
| Note.

Definition classify (c : string) : mark :=
  if startsWith "-"%char c then Removed
  else if startsWith "+"%char c then Added (substring1 c)
  else if startsWith "\"%char c then Note
  else Context.

(** What of a line bears on the result: nothing of a note, the text of an
    added line only. *)
Definition essence (c : string) : option mark :=
  match classify c with
  | Note => None
  | k => Some k
  end.

(** [a.splice(start, deleteCount, ...items)], as the array it leaves: a
    negative [start] counts from the end, and both ends are clamped. *)
Definition splice (a : list string) (start : Z) (deleteCount : nat)
    (items : list string) : list string :=
  let len := Z.of_nat (length a) in
  let actualStart :=
    Z.to_nat (if start <? 0 then Z.max (len + start) 0 else Z.min start len) in
  take actualStart a ++ items ++ drop (actualStart + deleteCount)%nat a.

(** One turn of the inner loop, on the array and [lineIndex]. *)
Definition change (st : list string * Z) (c : string) : list string * Z :=
  let '(a, lineIndex) := st in
  if startsWith "-"%char c then
    ((if lineIndex <? Z.of_nat (length a) then splice a lineIndex 1 [] else a),
     lineIndex)
  else if startsWith "+"%char c then
    (splice a lineIndex 0 [substring1 c], lineIndex + 1)
  else if negb (startsWith "\"%char c) then (a, lineIndex + 1)
  else (a, lineIndex).

(** The same turn, by what the line is read as. *)
Definition stepMark (st : list string * Z) (k : mark) : list string * Z :=
  let '(a, lineIndex) := st in
  match k with
  | Removed =>
      ((if lineIndex <? Z.of_nat (length a) then splice a lineIndex 1 [] else a),
       lineIndex)
  | Added text => (splice a lineIndex 0 [text], lineIndex + 1)
  | Context => (a, lineIndex + 1)
  | Note => (a, lineIndex)
  end.

(** One turn of the outer loop. *)
Definition applyHunk (a : list string) (hunk : Hunk) : list string :=
  (fold_left change (lines hunk) (a, oldStart hunk - 1)).1.

(** [hunks.sort((a, b) => b.oldStart - a.oldStart)]: descending by
    [oldStart]; the sort is stable, hunks with the same [oldStart] keep
    their order. *)
Fixpoint insertHunk (h : Hunk) (l : list Hunk) : list Hunk :=
  match l with
  | [] => [h]
  | h' :: l' =>
      if oldStart h' <=? oldStart h then h :: l else h' :: insertHunk h l'
  end.

Definition sortHunks (l : list Hunk) : list Hunk := foldr insertHunk [] l.

Definition applyPatchManually (content : string) (patch : Patch) : string :=
  joinLines
    (fold_left applyHunk (sortHunks (default [] (hunks patch)))
       (splitLines content)).

(** What a line of a hunk stands for on the old side of the hunk, on its
    new side and among the lines it adds, each time without its first
    character. *)
Definition oldLine (c : string) : option string :=
  match classify c with
  | Removed | Context => Some (substring1 c)
  | _ => None
  end.

Definition newLine (c : string) : option string :=
  match classify c with
  | Added _ | Context => Some (substring1 c)
  | _ => None
  end.

Definition addedLine (c : string) : option string :=
  match classify c with
  | Added text => Some text
  | _ => None
  end.

(** The lines a hunk expects to find, those it leaves in their place, and
    those it adds. *)
Definition oldSide (hunk : Hunk) : list string := omap oldLine (lines hunk).

Definition newSide (hunk : Hunk) : list string := omap newLine (lines hunk).

Definition added (hunk : Hunk) : list string := omap addedLine (lines hunk).

(** A hunk that changes nothing: context lines and notes only. *)
Definition idle (hunk : Hunk) : Prop :=
  Forall (λ c, classify c = Context ∨ classify c = Note) (lines hunk).

(** The order the sort puts hunks in, and the same without ties. *)
Definition later (a b : Hunk) : Prop := oldStart b ≤ oldStart a.

Definition strictly_later (a b : Hunk) : Prop := oldStart b < oldStart a.

(** Two hunks the loop cannot tell apart. *)
Definition alike (h h' : Hunk) : Prop :=
  oldStart h = oldStart h' ∧ omap essence (lines h) = omap essence (lines h').

(** A text laid out as gaps and the old sides of hunks in turn, the same
    with the new sides, and the hunks' line numbers fitting the layout from
    line [offset + 1] on. *)
Fixpoint oldText (segs : list (list string * Hunk)) (rest : list string)
  : list string :=
  match segs with
  | [] => rest
  | (gap, h) :: segs' => gap ++ oldSide h ++ oldText segs' rest
  end.

Fixpoint newText (segs : list (list string * Hunk)) (rest : list string)
  : list string :=
  match segs with
  | [] => rest
  | (gap, h) :: segs' => gap ++ newSide h ++ newText segs' rest
  end.

Fixpoint placed (offset : nat) (segs : list (list string * Hunk)) : Prop :=
  match segs with
  | [] => True
  | (gap, h) :: segs' =>
      oldStart h = Z.of_nat (offset + length gap) + 1
      ∧ placed (offset + length gap + length (oldSide h)) segs'
  end.

End Manual.

(** ** [src/index.ts]

    The command line front end: each subcommand runs one operation on its
    argument inside [try]/[catch], prints one line and, after a failure,
    leaves with status 1.  What is printed by [console.error] is kept as the
    label and the error whose [message] follows it. *)

Module Cli.

Inductive subcommand := Create | Commit | Apply | Revert.

Inductive output :=
| ConsoleLog (line : string)
| ConsoleError (label : string) (error : exn).

Record outcome := Outcome { printed : list output; status : nat }.

Section Main.

Variable cwd : list string.
Context {patch : Type}.
Variable diffCreate : string → string → string → string → string → string.
Variable parsePatch : string → bool → result (list patch).
Variable diffApply : string → option patch → nat → result (option string).

(** The body shared by the four [action] callbacks. *)
Definition action (operation : string → Promise unit) (done : string)
    (file : string) (m : FS) : outcome * FS :=
  match operation file m with
  | (Ok _, m') => (Outcome [ConsoleLog (done +:+ file)] 0, m')
  | (Throw error, m') => (Outcome [ConsoleError "Error:" error] 1, m')
  end.

Definition main (c : subcommand) : string → FS → outcome * FS :=
  match c with
  | Create => action (createPatch cwd) "Patch environment created for "
  | Commit => action (commitPatch cwd diffCreate) "Patch file generated for "
  | Apply => action (applyPatch cwd parsePatch diffApply) "Patch applied to "
  | Revert => action (revertPatch cwd) "Patch reverted from "
  end.

End Main.

End Cli.


(** ** More example worlds *)

Module Cases.

(** [/home/u] with a regular file in the place of the storage root. *)
Definition blocked : FS :=
  <[ ["home"; "u"; "patches"] := File "" ]> Ex.world.

(** The two files called [a.txt] with different contents, the first
    tracked, then the second. *)
Definition twins : FS :=
  <[ ["home"; "u"; "src"; "a.txt"] := File "bonjour" ]> Ex.world.

Definition tracked : FS := (createPatch Ex.cwd "a.txt" twins).2.

Definition retracked : FS := (createPatch Ex.cwd "src/a.txt" tracked).2.

(** A file with the name of the path record. *)
Definition named : FS :=
  <[ ["home"; "u"; "original-path.txt"] := File "hello" ]> Ex.world.

(** A committed record in a working directory that has become read-only:
    [applyPatch] fails when it removes the live file. *)
Definition locked : FS :=
  <[ ["home"; "u"] := Dir false ]> (Ex.committed "a.txt").

Definition stuck : FS :=
  (applyPatch Ex.cwd RefDiff.parsePatch RefDiff.diffApply "a.txt" locked).2.

(** An applied file, after [revertPatch] and after a second [applyPatch]. *)
Definition reverted : FS := (revertPatch Ex.cwd "a.txt" (Ex.applied "a.txt")).2.

Definition reapplied : FS :=
  (applyPatch Ex.cwd RefDiff.parsePatch RefDiff.diffApply "a.txt"
     (Ex.applied "a.txt")).2.

(** A text of four lines and hunks on its first two lines and on its last
    line; a hunk like the first in all that is read of it; a hunk that
    changes nothing; a hunk past the end; the hunk of a new file. *)
Definition text : string := Manual.joinLines ["one"; "two"; "three"; "four"].

Definition first : Manual.Hunk :=
  {| Manual.oldStart := 1; Manual.lines := ["-one"; "+ONE"; " two"] |}.

Definition last : Manual.Hunk :=
  {| Manual.oldStart := 4;
     Manual.lines := ["-four"; "+FOUR"; "\ No newline at end of file"] |}.

Definition unchecked : Manual.Hunk :=
  {| Manual.oldStart := 1; Manual.lines := ["-uno"; "+ONE"; "dos"] |}.

Definition context : Manual.Hunk :=
  {| Manual.oldStart := 2; Manual.lines := [" two"; " three"] |}.

Definition late : Manual.Hunk :=
  {| Manual.oldStart := 9; Manual.lines := ["-nine"; "+five"] |}.

Definition fresh : Manual.Hunk :=
  {| Manual.oldStart := 0; Manual.lines := ["+a"; "+b"; "+c"] |}.

End Cases.

(** * Properties *)

(** ** The definitions on small inputs *)

Example basename_ex : Path.basename "src/a.txt" = "a.txt".
Proof. reflexivity. Qed.

Example basename_trailing_ex : Path.basename "src/dir/" = "dir".
Proof. reflexivity. Qed.

Example join_ex :
  Path.join (Path.join "patches" "a.txt") ("a.txt" +:+ ".patched")
  = "patches/a.txt/a.txt.patched".
Proof. reflexivity. Qed.

Example join_dotdot_ex : Path.join "patches" ".." = ".".
Proof. reflexivity. Qed.

Example resolve_ex : Path.resolve ["home"; "u"] "src/../a.txt" = "/home/u/a.txt".
Proof. reflexivity. Qed.

Example resolve_absolute_ex : Path.resolve ["home"; "u"] "/tmp/./a.txt" = "/tmp/a.txt".
Proof. reflexivity. Qed.

Example dirlike_ex :
  Path.dirlike "a.txt" = false ∧ Path.dirlike "a.txt/." = true
  ∧ Path.dirlike "src/" = true.
Proof. repeat split. Qed.

Example diff_ex :
  RefDiff.diffCreate "a.txt" "hello" "hello world" "original" "modified"
  = "@@@@@||hello world"
  ∧ RefDiff.parsePatch "@@@@@||hello world" false
    = Ok [RefDiff.Hunk "hello" "" " world"]
  ∧ RefDiff.diffApply "hello" (Some (RefDiff.Hunk "hello" "" " world")) 3
    = Ok (Some "hello world")
  ∧ RefDiff.diffApply "goodbye" (Some (RefDiff.Hunk "hello" "" " world")) 3
    = Ok None.
Proof. repeat split. Qed.

Example readFile_ex : contentOf Ex.cwd "src/../a.txt" Ex.world = Ok "hello".
Proof. vm_compute. reflexivity. Qed.

Example readFile_dir_ex :
  contentOf Ex.cwd "src" Ex.world = Throw (SystemError EISDIR).
Proof. vm_compute. reflexivity. Qed.

Example snapshot_ex :
  contentOf Ex.cwd "patches/a.txt/a.txt" (Ex.created "a.txt") = Ok "hello"
  ∧ contentOf Ex.cwd "patches/a.txt/original-path.txt" (Ex.created "a.txt")
    = Ok "/home/u/a.txt".
Proof. split; vm_compute; reflexivity. Qed.

(** ** Paths *)

Module PathFacts.
#[local] Arguments String.append !_ _ / : simpl nomatch.
Import Path.

Lemma append_nil_r s : s +:+ "" = s.
Proof. induction s; simpl; congruence. Qed.

Lemma append_assoc a b c : (a +:+ b) +:+ c = a +:+ (b +:+ c).
Proof. induction a; simpl; congruence. Qed.

Lemma append_inv_l a b c : a +:+ b = a +:+ c → b = c.
Proof. induction a; simpl; intros H; [done|]. injection H as H. auto. Qed.

Lemma length_append a b : String.length (a +:+ b) = String.length a + String.length b.
Proof. induction a; simpl; congruence. Qed.

Lemma append_ne_self n s : s ≠ "" → n +:+ s ≠ n.
Proof.
  intros Hs H. apply (f_equal String.length) in H. rewrite length_append in H.
  destruct s; [done|]. simpl in H. lia.
Qed.

Lemma no_slash_append a b : no_slash (a +:+ b) = no_slash a && no_slash b.
Proof. induction a; simpl; [done|]. rewrite IHa. by rewrite andb_assoc. Qed.

Lemma split_path_app a cur b :
  split_path cur (a +:+ String slash b) = split_path cur a ++ segments b.
Proof.
  revert cur. induction a as [|c a IH]; intros cur; simpl.
  - destruct cur; reflexivity.
  - destruct (Ascii.eqb c slash).
    + destruct cur; rewrite IH; reflexivity.
    + apply IH.
Qed.

Lemma segments_app a b :
  segments (a +:+ "/" +:+ b) = segments a ++ segments b.
Proof. apply split_path_app. Qed.

Lemma split_path_name n cur :
  no_slash n = true →
  split_path cur n = match cur +:+ n with "" => [] | s => [s] end.
Proof.
  revert cur. induction n as [|c n IH]; intros cur Hn; simpl in *.
  - rewrite append_nil_r. destruct cur; reflexivity.
  - apply andb_prop in Hn as [Hc Hn].
    destruct (Ascii.eqb c slash); [done|].
    rewrite IH by done. by rewrite append_assoc.
Qed.

Lemma segments_name n : is_name n → segments n = [n].
Proof.
  intros [Hne Hn]. unfold segments. rewrite split_path_name by done.
  simpl. destruct n; done.
Qed.

Lemma split_path_names s cur :
  no_slash cur = true → Forall is_name (split_path cur s).
Proof.
  revert cur. induction s as [|c s IH]; intros cur Hcur; simpl.
  - destruct cur; [constructor|]. repeat constructor; done.
  - destruct (Ascii.eqb c slash) eqn:Hc.
    + destruct cur; [by apply IH|]. constructor; [done|]. by apply IH.
    + apply IH. rewrite no_slash_append, Hcur. simpl. by rewrite Hc.
Qed.

Lemma segments_names p : Forall is_name (segments p).
Proof. by apply split_path_names. Qed.

Lemma join_slash_cons s l :
  l ≠ [] → join_slash (s :: l) = s +:+ "/" +:+ join_slash l.
Proof. destruct l; done. Qed.

Lemma segments_join_slash l : Forall is_name l → segments (join_slash l) = l.
Proof.
  induction 1 as [|n l Hn Hl IH]; [reflexivity|].
  destruct l as [|n' l].
  - simpl. by apply segments_name.
  - rewrite join_slash_cons by done. rewrite segments_app, IH.
    by rewrite segments_name.
Qed.

Lemma isAbsolute_name_append n s : is_name n → isAbsolute (n +:+ s) = false.
Proof.
  intros [Hne Hn]. destruct n as [|c n]; [done|]. simpl in *.
  apply andb_prop in Hn as [Hc _]. by destruct (Ascii.eqb c slash).
Qed.

Lemma isAbsolute_join_slash l : Forall is_name l → isAbsolute (join_slash l) = false.
Proof.
  destruct 1 as [|n l Hn Hl]; [reflexivity|].
  destruct l.
  - simpl. rewrite <- (append_nil_r n). by apply isAbsolute_name_append.
  - rewrite join_slash_cons by done. by apply isAbsolute_name_append.
Qed.

Lemma norm_step_proper b acc n : proper n → norm_step b acc n = n :: acc.
Proof.
  intros (_ & H1 & H2). unfold norm_step.
  destruct (String.eqb_spec n "."); [done|].
  destruct (String.eqb_spec n ".."); done.
Qed.

Lemma fold_norm_proper b l acc :
  Forall proper l → fold_left (norm_step b) l acc = rev l ++ acc.
Proof.
  intros Hl. revert acc. induction Hl as [|n l Hn Hl IH]; intros acc; [done|].
  simpl. rewrite norm_step_proper by done. rewrite IH.
  by rewrite <- app_assoc.
Qed.

Lemma normalizeSegs_app_proper b l l' :
  Forall proper l' → normalizeSegs b (l ++ l') = normalizeSegs b l ++ l'.
Proof.
  intros Hl'. unfold normalizeSegs. rewrite fold_left_app.
  rewrite fold_norm_proper by done. rewrite rev_app_distr.
  by rewrite rev_involutive.
Qed.

Lemma normalizeSegs_proper b l : Forall proper l → normalizeSegs b l = l.
Proof. intros Hl. by rewrite <- (app_nil_l l), normalizeSegs_app_proper. Qed.

Lemma proper_is_name n : proper n → is_name n.
Proof. by intros []. Qed.

Lemma proper_names l : Forall proper l → Forall is_name l.
Proof. intros H. eapply Forall_impl; [exact H|]. apply proper_is_name. Qed.

Lemma join_slash_nonempty l : Forall is_name l → l ≠ [] → join_slash l ≠ "".
Proof.
  destruct 1 as [|n l [Hn _] _]; [done|]. intros _.
  destruct l; simpl; destruct n; done.
Qed.

Lemma join_nonempty a b :
  a ≠ "" → b ≠ "" → join a b = normalize (a +:+ "/" +:+ b).
Proof. destruct a, b; done. Qed.

(** [join] of a relative path made of kept components with one more. *)
Lemma join_proper l x :
  Forall proper l → l ≠ [] → proper x →
  join (join_slash l) x = join_slash (l ++ [x]).
Proof.
  intros Hl Hne Hx.
  assert (Hall : Forall proper (l ++ [x])).
  { apply Forall_app. split; [done|]. by constructor. }
  rewrite join_nonempty.
  2:{ apply join_slash_nonempty; [by apply proper_names|done]. }
  2:{ by destruct Hx as [[] _]. }
  unfold normalize.
  rewrite segments_app, segments_join_slash by by apply proper_names.
  rewrite (segments_name x) by by apply proper_is_name.
  assert (Habs : isAbsolute (join_slash l +:+ "/" +:+ x) = false).
  { destruct l as [|n l]; [done|]. destruct l.
    - simpl. apply isAbsolute_name_append, proper_is_name. by inversion Hl.
    - rewrite join_slash_cons by done. rewrite append_assoc.
      apply isAbsolute_name_append, proper_is_name. by inversion Hl. }
  rewrite Habs. simpl negb.
  rewrite normalizeSegs_proper by done.
  unfold render. destruct (l ++ [x]) eqn:E; [|done].
  by destruct l.
Qed.

Lemma locate_join_slash dir l :
  Forall proper l → locate dir (join_slash l) = normalizeSegs false dir ++ l.
Proof.
  intros Hl. unfold locate.
  rewrite isAbsolute_join_slash, segments_join_slash by by apply proper_names.
  by apply normalizeSegs_app_proper.
Qed.

Lemma ends_slash_append a b : b ≠ "" → ends_slash (a +:+ b) = ends_slash b.
Proof.
  intros Hb. induction a as [|c a IH]; [done|].
  simpl. destruct (a +:+ b) eqn:E; [|done].
  destruct a, b; done.
Qed.

Lemma ends_slash_name n : no_slash n = true → ends_slash n = false.
Proof.
  induction n as [|c n IH]; [done|]. simpl. intros H.
  apply andb_prop in H as [Hc Hn].
  destruct n; [by destruct (Ascii.eqb c slash)|]. by apply IH.
Qed.

Lemma ends_slash_join_slash l : Forall is_name l → ends_slash (join_slash l) = false.
Proof.
  induction 1 as [|n l [Hne Hn] Hl IH]; [done|].
  destruct l.
  - simpl. by apply ends_slash_name.
  - rewrite join_slash_cons by done. rewrite ends_slash_append.
    + rewrite ends_slash_append; [done|]. by apply join_slash_nonempty.
    + done.
Qed.

Lemma dirlike_join_slash l x :
  Forall proper l → proper x → dirlike (join_slash (l ++ [x])) = false.
Proof.
  intros Hl Hx.
  assert (Hall : Forall proper (l ++ [x])).
  { apply Forall_app. split; [done|]. by constructor. }
  unfold dirlike. rewrite ends_slash_join_slash by by apply proper_names.
  rewrite segments_join_slash by by apply proper_names.
  rewrite last_snoc. simpl.
  destruct Hx as (_ & H1 & H2).
  destruct (String.eqb_spec x "."); [done|].
  destruct (String.eqb_spec x ".."); done.
Qed.

(** A path that can name a file ends in a kept component, its base name. *)
Lemma not_dirlike p :
  dirlike p = false →
  proper (basename p) ∧ ∃ l, segments p = l ++ [basename p].
Proof.
  unfold dirlike, basename. intros H.
  apply orb_false_elim in H as [_ H].
  pose proof (segments_names p) as Hnames.
  destruct (segments p) as [|s l] using rev_ind.
  - simpl in H. done.
  - rewrite last_snoc in *. simpl in *.
    apply Forall_app in Hnames as [_ Hn]. inversion_clear Hn as [|? ? Hn' _].
    apply orb_false_elim in H as [H1 H2].
    split; [|by eexists].
    split; [done|].
    split; [by destruct (String.eqb_spec s ".")|by destruct (String.eqb_spec s "..")].
Qed.

Lemma locate_not_dirlike dir p :
  dirlike p = false → ∃ d, locate dir p = d ++ [basename p].
Proof.
  intros H. apply not_dirlike in H as [Hn [l Hl]].
  unfold locate. rewrite Hl.
  destruct (isAbsolute p).
  - rewrite normalizeSegs_app_proper by by constructor. by eexists.
  - rewrite app_assoc, normalizeSegs_app_proper by by constructor. by eexists.
Qed.

Lemma norm_step_kept b acc n : kept n → norm_step b acc n = n :: acc.
Proof.
  intros [H1 H2]. unfold norm_step.
  destruct (String.eqb_spec n "."); [done|].
  destruct (String.eqb_spec n ".."); done.
Qed.

Lemma fold_norm_kept b l acc :
  Forall kept l → fold_left (norm_step b) l acc = rev l ++ acc.
Proof.
  intros Hl. revert acc. induction Hl as [|n l Hn Hl IH]; intros acc; [done|].
  simpl. rewrite norm_step_kept by done. rewrite IH.
  by rewrite <- app_assoc.
Qed.

Lemma normalizeSegs_kept b l : Forall kept l → normalizeSegs b l = l.
Proof.
  intros Hl. unfold normalizeSegs. rewrite fold_norm_kept by done.
  by rewrite app_nil_r, rev_involutive.
Qed.

Lemma norm_step_abs_forall (P : string → Prop) acc n :
  P n → Forall (λ s, P s ∧ kept s) acc →
  Forall (λ s, P s ∧ kept s) (norm_step false acc n).
Proof.
  intros Hn Hacc. unfold norm_step.
  destruct (String.eqb_spec n "."); [done|].
  destruct (String.eqb_spec n "..").
  - destruct acc as [|t acc]; [done|].
    inversion_clear Hacc as [|? ? [_ [_ Ht]] Hacc'].
    destruct (String.eqb_spec t ".."); done.
  - constructor; [|done]. by repeat split.
Qed.

(** Normalising an absolute path keeps only components that normalisation
    does not consume, and only components of the path. *)
Lemma normalizeSegs_abs_forall (P : string → Prop) l :
  Forall P l → Forall (λ s, P s ∧ kept s) (normalizeSegs false l).
Proof.
  intros Hl. unfold normalizeSegs. apply Forall_rev.
  assert (H : ∀ acc, Forall (λ s, P s ∧ kept s) acc →
                Forall (λ s, P s ∧ kept s) (fold_left (norm_step false) l acc)).
  { induction Hl as [|n l Hn Hl IH]; intros acc Hacc; [done|].
    simpl. apply IH. by apply norm_step_abs_forall. }
  apply H. constructor.
Qed.

Lemma normalizeSegs_idem l :
  normalizeSegs false (normalizeSegs false l) = normalizeSegs false l.
Proof.
  apply normalizeSegs_kept.
  eapply Forall_impl.
  - apply (normalizeSegs_abs_forall (λ _, True)). by apply Forall_true.
  - by intros s [_ ?].
Qed.

Lemma normalizeSegs_names l :
  Forall is_name l → Forall proper (normalizeSegs false l).
Proof.
  intros Hl. eapply Forall_impl; [by apply (normalizeSegs_abs_forall is_name)|].
  intros s [? [? ?]]. split; [done|by split].
Qed.

(** The absolute path of a key names that key again. *)
Lemma locate_render dir k :
  Forall proper k → locate dir (render true k) = k.
Proof.
  intros Hk. unfold locate, render.
  replace (isAbsolute ("/" +:+ join_slash k)) with true by done.
  replace (segments ("/" +:+ join_slash k)) with (segments (join_slash k)) by done.
  rewrite segments_join_slash by by apply proper_names.
  by apply normalizeSegs_proper.
Qed.

Lemma dirlike_render k n :
  Forall proper k → proper n → dirlike (render true (k ++ [n])) = false.
Proof.
  intros Hk Hn. unfold dirlike, render.
  replace (segments ("/" +:+ join_slash (k ++ [n])))
    with (segments (join_slash (k ++ [n]))) by done.
  assert (Hall : Forall proper (k ++ [n])).
  { apply Forall_app. split; [done|]. by constructor. }
  rewrite segments_join_slash by by apply proper_names.
  rewrite last_snoc. simpl default.
  rewrite ends_slash_append.
  2:{ apply join_slash_nonempty; [by apply proper_names|]. by destruct k. }
  rewrite ends_slash_join_slash by by apply proper_names.
  destruct Hn as (_ & H1 & H2).
  destruct (String.eqb_spec n "."); [done|].
  destruct (String.eqb_spec n ".."); done.
Qed.

End PathFacts.

(** ** The paths of a record *)

Section RecordPaths.

Import Path PathFacts.

Variable cwd : list string.
Variable filePath : string.
Hypothesis Hname : proper (basename filePath).

Lemma proper_patches : proper "patches".
Proof. repeat split; done. Qed.

Lemma proper_suffix n s :
  is_name n → no_slash s = true → (2 ≤ String.length s)%nat → proper (n +:+ s).
Proof.
  intros [Hne Hn] Hs Hlen.
  assert (Hl : (3 ≤ String.length (n +:+ s))%nat).
  { rewrite length_append. destruct n; [done|]. simpl. lia. }
  repeat split.
  - intros E. rewrite E in Hl. simpl in Hl. lia.
  - by rewrite no_slash_append, Hn, Hs.
  - intros E. rewrite E in Hl. simpl in Hl. lia.
  - intros E. rewrite E in Hl. simpl in Hl. lia.
Qed.

Ltac proper_list :=
  repeat (apply Forall_cons_2; [first [apply proper_patches | done]|]);
  apply Forall_nil_2.

Lemma patchDir_eq : patchDir filePath = join_slash ["patches"; basename filePath].
Proof.
  unfold patchDir, PATCHES_DIR.
  apply (join_proper ["patches"]); [proper_list|done|done].
Qed.

Lemma field_path x :
  proper x →
  join (patchDir filePath) x = join_slash ["patches"; basename filePath; x].
Proof.
  intros Hx. rewrite patchDir_eq.
  apply (join_proper ["patches"; basename filePath]); [proper_list|done|done].
Qed.

Lemma field_locate x :
  proper x → locate cwd (join (patchDir filePath) x) = recordKey cwd filePath x.
Proof.
  intros Hx. rewrite field_path by done. apply locate_join_slash.
  proper_list.
Qed.

Lemma field_dirlike x : proper x → dirlike (join (patchDir filePath) x) = false.
Proof.
  intros Hx. rewrite field_path by done.
  apply (dirlike_join_slash ["patches"; basename filePath]); [proper_list|done].
Qed.

Lemma proper_ext s :
  no_slash s = true → (2 ≤ String.length s)%nat →
  proper (basename filePath +:+ s).
Proof. intros. apply proper_suffix; [by apply proper_is_name|done|done]. Qed.

Lemma recordKey_inj x y : recordKey cwd filePath x = recordKey cwd filePath y → x = y.
Proof. unfold recordKey. intros H. apply app_inv_head in H. congruence. Qed.

Lemma recordKey_nonempty x : recordKey cwd filePath x ≠ [].
Proof. unfold recordKey. by destruct (normalizeSegs false cwd). Qed.

Lemma recordKey_parent x :
  fs.parent (recordKey cwd filePath x)
  = normalizeSegs false cwd ++ ["patches"; basename filePath].
Proof.
  unfold fs.parent, recordKey.
  change ["patches"; basename filePath; x] with (["patches"; basename filePath] ++ [x]).
  by rewrite app_assoc, removelast_last.
Qed.

End RecordPaths.

(** ** The file system operations *)

Ltac run_promise :=
  unfold mbind, promise_bind, mret, promise_ret, call, throw, catch_ignore.

Section FsFacts.

Import Path PathFacts.

Variable cwd : list string.

Lemma get_insert_eq (k : list string) (n : node) (m : FS) :
  k ≠ [] → fs.get (<[k:=n]> m) k = Some n.
Proof. intros Hk. destruct k; [done|]. simpl. by rewrite lookup_insert_eq. Qed.

Lemma get_insert_ne (k k' : list string) (n : node) (m : FS) :
  k ≠ k' → fs.get (<[k:=n]> m) k' = fs.get m k'.
Proof. intros Hk. destruct k'; [done|]. simpl. by rewrite lookup_insert_ne. Qed.

Lemma get_delete_eq (k : list string) (m : FS) :
  k ≠ [] → fs.get (delete k m) k = None.
Proof. intros Hk. destruct k; [done|]. simpl. by rewrite lookup_delete_eq. Qed.

Lemma get_delete_ne (k k' : list string) (m : FS) :
  k ≠ k' → fs.get (delete k m) k' = fs.get m k'.
Proof. intros Hk. destruct k'; [done|]. simpl. by rewrite lookup_delete_ne. Qed.

Lemma parent_snoc d n : fs.parent (d ++ [n]) = d.
Proof. apply removelast_last. Qed.

Lemma parent_ne k : k ≠ [] → fs.parent k ≠ k.
Proof.
  intros Hk. destruct k as [|n d _] using rev_ind; [done|].
  rewrite parent_snoc. intros E. apply (f_equal length) in E.
  rewrite length_app in E. simpl in E. lia.
Qed.

(** What [chase] finds is what the map holds at the key it stops at. *)
Lemma chase_final fuel m dir p k f :
  fs.chase fuel m dir p = Ok (k, f) → holds m k f.
Proof.
  revert dir p. induction fuel as [|fuel IH]; intros dir p; simpl;
    destruct (fs.get m (locate dir p)) as [[c|t|w]|] eqn:Hget;
    destruct (dirlike p); intros H; try discriminate H;
    try (injection H as <- <-; exact Hget).
  by eapply IH.
Qed.

Lemma chase_here fuel m dir p f :
  holds m (locate dir p) f → dirlike p = false ∨ (∃ w, f = Directory w) →
  fs.chase fuel m dir p = Ok (locate dir p, f).
Proof.
  unfold holds. intros Hget Hd.
  destruct fuel; simpl; rewrite Hget; destruct f; try done;
    destruct Hd as [->|[w [=]]]; done.
Qed.

Lemma chase_not_dirlike fuel m dir p k c :
  fs.chase fuel m dir p = Ok (k, Regular c) → dirlike p = false.
Proof.
  destruct fuel; simpl;
    destruct (fs.get m (locate dir p)) as [[?|?|?]|], (dirlike p); done.
Qed.

(** Writing a file where a chase stopped does not move where it stops. *)
Lemma chase_insert_final fuel m dir p k f x :
  fs.chase fuel m dir p = Ok (k, f) → (∀ w, f ≠ Directory w) →
  fs.chase fuel (<[k := File x]> m) dir p = Ok (k, Regular x).
Proof.
  intros Hc Hf.
  assert (Hk : holds m k f) by by eapply chase_final.
  assert (Hne : k ≠ []).
  { intros ->. unfold holds in Hk. simpl in Hk. destruct f; try done.
    by eapply Hf. }
  revert dir p Hc. induction fuel as [|fuel IH]; intros dir p; simpl;
    destruct (fs.get m (locate dir p)) as [[c|t|w]|] eqn:Hget;
    destruct (dirlike p); intros H; try discriminate H;
    try (injection H as <- <-;
         first [ by destruct (Hf w) | by rewrite get_insert_eq by done ]).
  rewrite get_insert_ne, Hget.
  - by apply IH.
  - intros ->. unfold holds in Hk. rewrite Hget in Hk. by destruct f.
Qed.

(** A chase that reaches a file after a removal reached it before. *)
Lemma chase_delete_regular fuel m kd dir p k c :
  fs.chase fuel (delete kd m) dir p = Ok (k, Regular c) →
  fs.chase fuel m dir p = Ok (k, Regular c).
Proof.
  revert dir p. induction fuel as [|fuel IH]; intros dir p; simpl;
    destruct (decide (kd = locate dir p)) as [<-|Hne];
    try (destruct kd; [|simpl; rewrite lookup_delete_eq];
         simpl; destruct (dirlike p); done);
    rewrite get_delete_ne by done;
    destruct (fs.get m (locate dir p)) as [[?|?|?]|], (dirlike p);
    try done.
  apply IH.
Qed.

Lemma readFile_state p m : (fs.readFile cwd p m).2 = m.
Proof. unfold fs.readFile. by repeat case_match. Qed.

Lemma access_state p m : (fs.access cwd p m).2 = m.
Proof. unfold fs.access. by repeat case_match. Qed.

Lemma lstat_state p m : (fs.lstat cwd p m).2 = m.
Proof. unfold fs.lstat. by repeat case_match. Qed.

Lemma readFile_inv p m c m' :
  fs.readFile cwd p m = (Ok c, m') →
  m' = m ∧ ∃ k, fs.chase fs.max_symlinks m cwd p = Ok (k, Regular c).
Proof.
  unfold fs.readFile. intros H.
  destruct (fs.chase _ m cwd p) as [[k [|c'|w]]|e]; simplify_eq. eauto.
Qed.

Lemma readFile_chase p m k c :
  fs.chase fs.max_symlinks m cwd p = Ok (k, Regular c) →
  fs.readFile cwd p m = (Ok c, m).
Proof. unfold fs.readFile. by intros ->. Qed.

Lemma readFile_file p m c :
  fs.get m (locate cwd p) = Some (File c) → dirlike p = false →
  fs.readFile cwd p m = (Ok c, m).
Proof.
  intros Hget Hd. eapply readFile_chase, (chase_here _ _ _ _ (Regular c)); auto.
Qed.

Lemma readFile_not_dirlike p m c m' :
  fs.readFile cwd p m = (Ok c, m') → dirlike p = false.
Proof.
  intros H. apply readFile_inv in H as [_ [k H]]. by eapply chase_not_dirlike.
Qed.

Lemma lstat_inv p m s m' :
  fs.lstat cwd p m = (Ok s, m') →
  m' = m ∧
  match s with
  | StatFile => dirlike p = false ∧ ∃ c, fs.get m (locate cwd p) = Some (File c)
  | StatSymbolicLink =>
      dirlike p = false ∧ ∃ t, fs.get m (locate cwd p) = Some (Symlink t)
  | StatDirectory => ∃ w, fs.get m (locate cwd p) = Some (Dir w)
  end.
Proof.
  unfold fs.lstat. intros H.
  destruct (fs.get m (locate cwd p)) as [[c|t|w]|], (dirlike p); simplify_eq;
    eauto.
Qed.

Lemma lstat_file p m c :
  fs.get m (locate cwd p) = Some (File c) → dirlike p = false →
  fs.lstat cwd p m = (Ok StatFile, m).
Proof. unfold fs.lstat. by intros -> ->. Qed.

Lemma lstat_link p m t :
  fs.get m (locate cwd p) = Some (Symlink t) → dirlike p = false →
  fs.lstat cwd p m = (Ok StatSymbolicLink, m).
Proof. unfold fs.lstat. by intros -> ->. Qed.

(** A write lands on one key, which held a file or nothing. *)
Lemma writeFile_inv p d m m' :
  fs.writeFile cwd p d m = (Ok tt, m') →
  ∃ k f, fs.chase fs.max_symlinks m cwd p = Ok (k, f) ∧ (∀ w, f ≠ Directory w)
         ∧ m' = <[k := File d]> m.
Proof.
  unfold fs.writeFile, fs.create. intros H.
  destruct (fs.chase _ m cwd p) as [[k [|c|w]]|e] eqn:Hc; simplify_eq.
  - destruct (fs.get m (fs.parent k)) as [[?|?|[]]|]; simplify_eq.
    exists k, Missing. done.
  - exists k, (Regular c). done.
Qed.

Lemma writeFile_state p d m :
  (fs.writeFile cwd p d m).2 = m ∨
  ∃ k f, fs.chase fs.max_symlinks m cwd p = Ok (k, f) ∧ (∀ w, f ≠ Directory w)
         ∧ fs.writeFile cwd p d m = (Ok tt, <[k := File d]> m).
Proof.
  destruct (fs.writeFile cwd p d m) as [[[]|e] m'] eqn:H.
  - right. apply writeFile_inv in H as (k & f & ? & ? & ->). eauto.
  - left. unfold fs.writeFile, fs.create in H. repeat case_match; by simplify_eq.
Qed.

Lemma unlink_inv p m m' :
  fs.unlink cwd p m = (Ok tt, m') →
  m' = delete (locate cwd p) m ∧ dirlike p = false ∧ locate cwd p ≠ [] ∧
  fs.get m (fs.parent (locate cwd p)) = Some (Dir true).
Proof.
  unfold fs.unlink. intros H.
  destruct (fs.get m (locate cwd p)) as [[c|t|w]|] eqn:Hget; simplify_eq;
    destruct (dirlike p); simplify_eq;
    destruct (fs.get m (fs.parent (locate cwd p))) as [[?|?|[]]|]; simplify_eq;
    (repeat split; [by intros E; rewrite E in Hget]).
Qed.

Lemma unlink_state p m :
  (fs.unlink cwd p m).2 = m ∨ (fs.unlink cwd p m).2 = delete (locate cwd p) m.
Proof. unfold fs.unlink. repeat case_match; auto. Qed.

Lemma unlink_ok p m n :
  fs.get m (locate cwd p) = Some n → (∀ w, n ≠ Dir w) → dirlike p = false →
  fs.get m (fs.parent (locate cwd p)) = Some (Dir true) →
  fs.unlink cwd p m = (Ok tt, delete (locate cwd p) m).
Proof.
  unfold fs.unlink. intros -> Hn -> ->. destruct n; try done. by destruct (Hn writable).
Qed.

Lemma symlink_ok t p m :
  fs.get m (locate cwd p) = None → dirlike p = false →
  fs.get m (fs.parent (locate cwd p)) = Some (Dir true) →
  fs.symlink cwd t p m = (Ok tt, <[locate cwd p := Symlink t]> m).
Proof. unfold fs.symlink, fs.create. by intros -> -> ->. Qed.

Lemma symlink_inv t p m m' :
  fs.symlink cwd t p m = (Ok tt, m') →
  m' = <[locate cwd p := Symlink t]> m ∧ dirlike p = false ∧ locate cwd p ≠ [].
Proof.
  unfold fs.symlink, fs.create. intros H.
  destruct (fs.get m (locate cwd p)) eqn:Hget; simplify_eq.
  destruct (dirlike p); simplify_eq.
  destruct (fs.get m (fs.parent (locate cwd p))) as [[?|?|[]]|]; simplify_eq.
  repeat split. by intros E; rewrite E in Hget.
Qed.

Lemma access_inv p m r m' : fs.access cwd p m = (r, m') → m' = m.
Proof. intros H. pose proof (access_state p m) as E. by rewrite H in E. Qed.

Lemma copyFile_inv src dest m m' :
  fs.copyFile cwd src dest m = (Ok tt, m') →
  ∃ c, fs.readFile cwd src m = (Ok c, m) ∧ fs.writeFile cwd dest c m = (Ok tt, m').
Proof.
  unfold fs.copyFile. run_promise. intros H.
  destruct (fs.readFile cwd src m) as [[c|e] m1] eqn:Hr; [|done].
  apply readFile_inv in Hr as Hr'. destruct Hr' as [-> _]. eauto.
Qed.

Lemma copyFile_state src dest m :
  (fs.copyFile cwd src dest m).2 = m ∨
  ∃ c, fs.readFile cwd src m = (Ok c, m) ∧
       (fs.copyFile cwd src dest m) = fs.writeFile cwd dest c m.
Proof.
  unfold fs.copyFile. run_promise.
  destruct (fs.readFile cwd src m) as [[c|e] m1] eqn:Hr.
  - apply readFile_inv in Hr as Hr'. destruct Hr' as [-> _]. eauto.
  - left. pose proof (readFile_state src m) as E. by rewrite Hr in E.
Qed.

Lemma pair_ok {A} (r : result A * FS) v : r.1 = Ok v → r = (Ok v, r.2).
Proof. destruct r as [r m]. simpl. by intros ->. Qed.

Lemma access_ok p m : (fs.access cwd p m).1 = Ok tt → fs.access cwd p m = (Ok tt, m).
Proof. intros H. rewrite <- (access_state p m) at 2. by apply pair_ok. Qed.

Lemma readFile_ok p m c :
  (fs.readFile cwd p m).1 = Ok c → fs.readFile cwd p m = (Ok c, m).
Proof. intros H. rewrite <- (readFile_state p m) at 2. by apply pair_ok. Qed.

Lemma lstat_ok p m s : (fs.lstat cwd p m).1 = Ok s → fs.lstat cwd p m = (Ok s, m).
Proof. intros H. rewrite <- (lstat_state p m) at 2. by apply pair_ok. Qed.

End FsFacts.

(** ** What the operations leave in place *)

Section Stability.
Import Path PathFacts.
Variable cwd : list string.

Lemma stable_refl b x m : stable b x m m.
Proof.
  unfold stable. destruct (fs.get m x) as [[c|t|w]|]; eauto. destruct b; auto.
Qed.

Lemma stable_trans b x m1 m2 m3 :
  stable b x m1 m2 → stable b x m2 m3 → stable b x m1 m3.
Proof.
  unfold stable.
  destruct (fs.get m1 x) as [[c|t|w]|]; try done.
  - intros [c' ->]. done.
  - intros ->. done.
  - destruct b; [|done]. intros [->|[c ->]]; [done|]. auto.
Qed.

Lemma stable_insert_file b x k d m :
  k ≠ [] → (fs.get m k = None ∨ ∃ c, fs.get m k = Some (File c)) →
  stable b x m (<[k := File d]> m).
Proof.
  intros Hk Hget. unfold stable.
  destruct (decide (k = x)) as [->|Hne].
  - rewrite get_insert_eq by done.
    destruct Hget as [->|[c ->]]; [|eauto]. destruct b; eauto.
  - rewrite get_insert_ne by done.
    destruct (fs.get m x) as [[c|t|w]|]; eauto. destruct b; auto.
Qed.

Lemma stable_delete b x k m : k ≠ x → stable b x m (delete k m).
Proof.
  intros Hne. unfold stable. rewrite get_delete_ne by done.
  destruct (fs.get m x) as [[c|t|w]|]; eauto. destruct b; auto.
Qed.

Lemma stable_get b x m m' : fs.get m' x = fs.get m x → stable b x m m'.
Proof. intros E. unfold stable. rewrite E. apply stable_refl. Qed.

Lemma holds_free m k f :
  holds m k f → (∀ w, f ≠ Directory w) →
  k ≠ [] ∧ (fs.get m k = None ∨ ∃ c, fs.get m k = Some (File c)).
Proof.
  unfold holds. intros H Hf. split.
  - intros ->. destruct f; try done. by eapply Hf.
  - destruct f; eauto. by destruct (Hf writable).
Qed.

Lemma writeFile_stable b x p d : preserves (stable b x) (fs.writeFile cwd p d).
Proof.
  intros m. destruct (writeFile_state cwd p d m) as [->|(k & f & Hc & Hf & ->)].
  - apply stable_refl.
  - apply chase_final in Hc. destruct (holds_free _ _ _ Hc Hf).
    by apply stable_insert_file.
Qed.

Lemma readFile_stable b x p : preserves (stable b x) (fs.readFile cwd p).
Proof. intros m. rewrite readFile_state. apply stable_refl. Qed.

Lemma access_stable b x p : preserves (stable b x) (fs.access cwd p).
Proof. intros m. rewrite access_state. apply stable_refl. Qed.

Lemma copyFile_stable b x src dest : preserves (stable b x) (fs.copyFile cwd src dest).
Proof.
  intros m. destruct (copyFile_state cwd src dest m) as [->|(c & _ & ->)].
  - apply stable_refl.
  - apply writeFile_stable.
Qed.

Lemma unlink_stable b x p :
  locate cwd p ≠ x → preserves (stable b x) (fs.unlink cwd p).
Proof.
  intros Hne m. destruct (unlink_state cwd p m) as [->| ->].
  - apply stable_refl.
  - by apply stable_delete.
Qed.

Lemma unlink_throw p m e m' : fs.unlink cwd p m = (Throw e, m') → m' = m.
Proof. unfold fs.unlink. intros H. repeat case_match; by simplify_eq. Qed.

Lemma writeFile_throw p d m e m' : fs.writeFile cwd p d m = (Throw e, m') → m' = m.
Proof.
  unfold fs.writeFile, fs.create. intros H. repeat case_match; by simplify_eq.
Qed.

(** [mkdir] leaves what exists, and what lies deeper than the directory. *)
Lemma mkdirp_get m rk x :
  fs.get m x ≠ None ∨ length rk < length x →
  fs.get (fs.mkdirp m rk).2 x = fs.get m x.
Proof.
  revert m. induction rk as [|s rk IH]; intros m Hx.
  - simpl. by repeat case_match.
  - cbn [fs.mkdirp].
    destruct (fs.get m (rev (s :: rk))) as [[?|?|?]|] eqn:Hget; try done.
    assert (Hrk : fs.get (fs.mkdirp m rk).2 x = fs.get m x).
    { apply IH. destruct Hx as [?|Hx]; [by left|right]. simpl in Hx. lia. }
    assert (Hne : rev (s :: rk) ≠ x).
    { intros <-. destruct Hx as [Hx|Hx]; [done|].
      rewrite length_rev in Hx. lia. }
    destruct (fs.mkdirp m rk) as [[[]|e] m']; simpl in Hrk.
    + unfold fs.create.
      destruct (fs.get m' (fs.parent (rev (s :: rk)))) as [[?|?|[]]|]; try done.
      simpl. by rewrite get_insert_ne.
    + by repeat case_match.
Qed.

Lemma mkdir_stable_present x p : preserves (stable false x) (fs.mkdir cwd p).
Proof.
  intros m. unfold fs.mkdir, stable.
  destruct (fs.get m x) as [n|] eqn:Hget; [|done].
  rewrite mkdirp_get by (left; congruence). rewrite Hget.
  destruct n; eauto.
Qed.

Lemma mkdir_stable_deeper b x p :
  length (locate cwd p) < length x → preserves (stable b x) (fs.mkdir cwd p).
Proof.
  intros Hlen m. apply stable_get. unfold fs.mkdir.
  apply mkdirp_get. right. by rewrite length_rev.
Qed.

(** Composition. *)
Lemma preserves_bind {A B} (R : FS → FS → Prop) `{!PreOrder R}
    (a : Promise A) (k : A → Promise B) :
  preserves R a → (∀ v, preserves R (k v)) → preserves R (a ≫= k).
Proof.
  intros Ha Hk m. unfold mbind, promise_bind.
  specialize (Ha m). destruct (a m) as [[v|e] m1]; simpl in *; [|done].
  etrans; [exact Ha|apply Hk].
Qed.

Lemma preserves_ret {A} (R : FS → FS → Prop) `{!PreOrder R} (v : A) :
  preserves R (mret v).
Proof. intros m. simpl. reflexivity. Qed.

Lemma preserves_throw {A} (R : FS → FS → Prop) `{!PreOrder R} e :
  preserves R (@throw A e).
Proof. intros m. simpl. reflexivity. Qed.

Lemma preserves_call {A} (R : FS → FS → Prop) `{!PreOrder R} (r : result A) :
  preserves R (call r).
Proof. intros m. simpl. reflexivity. Qed.

Lemma preserves_catch_ignore (R : FS → FS → Prop) prog :
  preserves R prog → preserves R (catch_ignore prog).
Proof. intros H m. apply H. Qed.

Lemma preserves_try_catch {A} (R : FS → FS → Prop) `{!PreOrder R}
    (prog : Promise A) h :
  preserves R prog → (∀ e, preserves R (h e)) → preserves R (try_catch prog h).
Proof.
  intros Hp Hh m. unfold try_catch. specialize (Hp m).
  destruct (prog m) as [[v|e] m1]; simpl in *; [done|].
  etrans; [exact Hp|apply Hh].
Qed.

Global Instance stable_preorder b x : PreOrder (stable b x).
Proof.
  split; [intros m; apply stable_refl|intros m1 m2 m3; apply stable_trans].
Qed.

Lemma access_file p m n :
  fs.get m (locate cwd p) = Some n → (∀ t, n ≠ Symlink t) →
  dirlike p = false →
  fs.access cwd p m = (Ok tt, m).
Proof.
  intros Hget Hn Hd. unfold fs.access.
  destruct n as [c|t|w]; [| by destruct (Hn t) |].
  - by rewrite (chase_here _ _ _ _ (Regular c)); [| |left].
  - by rewrite (chase_here _ _ _ _ (Directory w)); [| |left].
Qed.

Lemma writeFile_new p d m :
  fs.get m (locate cwd p) = None → dirlike p = false →
  fs.get m (fs.parent (locate cwd p)) = Some (Dir true) →
  fs.writeFile cwd p d m = (Ok tt, <[locate cwd p := File d]> m).
Proof.
  intros Hget Hd Hpar. unfold fs.writeFile.
  rewrite (chase_here _ _ _ _ Missing); [| done | by left].
  unfold fs.create. by rewrite Hpar.
Qed.

Lemma writeFile_over p d m c :
  fs.get m (locate cwd p) = Some (File c) → dirlike p = false →
  fs.writeFile cwd p d m = (Ok tt, <[locate cwd p := File d]> m).
Proof.
  intros Hget Hd. unfold fs.writeFile.
  by rewrite (chase_here _ _ _ _ (Regular c)); [| | left].
Qed.

End Stability.

(** ** Runs of the operations from known states *)

Section Forward.
Import Path PathFacts.
Variable cwd : list string.

Lemma free_insert_file m k d x : k ≠ [] → free m x → free (<[k := File d]> m) x.
Proof.
  intros Hk Hx. unfold free. destruct (decide (k = x)) as [->|Hne].
  - rewrite get_insert_eq by done. eauto.
  - by rewrite get_insert_ne.
Qed.

Lemma free_insert_ne m k n x : k ≠ x → free m x → free (<[k := n]> m) x.
Proof. intros Hne Hx. unfold free. by rewrite get_insert_ne. Qed.

Lemma free_delete m k x : free m x → free (delete k m) x.
Proof.
  intros Hx. unfold free. destruct (decide (k = x)) as [->|Hne].
  - destruct x; [|left; simpl; by rewrite lookup_delete_eq]. done.
  - by rewrite get_delete_ne.
Qed.

Lemma writeFile_free p d m :
  free m (locate cwd p) → dirlike p = false →
  fs.get m (fs.parent (locate cwd p)) = Some (Dir true) →
  fs.writeFile cwd p d m = (Ok tt, <[locate cwd p := File d]> m).
Proof.
  intros [Hget|[c Hget]] Hd Hpar.
  - by apply writeFile_new.
  - by eapply writeFile_over.
Qed.

Lemma mkdir_new p m d s :
  locate cwd p = d ++ [s] → fs.get m (d ++ [s]) = None →
  fs.get m d = Some (Dir true) →
  fs.mkdir cwd p m = (Ok tt, <[d ++ [s] := Dir true]> m).
Proof.
  intros Hk Hget Hpar. unfold fs.mkdir. rewrite Hk.
  rewrite rev_unit. cbn [fs.mkdirp].
  rewrite <- rev_unit, rev_involutive, Hget.
  assert (Hd : fs.mkdirp m (rev d) = (Ok tt, m)).
  { destruct (rev d) eqn:E; cbn [fs.mkdirp]; rewrite <- E, rev_involutive, Hpar; done. }
  rewrite Hd. unfold fs.create. by rewrite parent_snoc, Hpar.
Qed.

Lemma chase_link fuel m dir p t :
  fs.get m (locate dir p) = Some (Symlink t) → dirlike p = false →
  fs.chase (S fuel) m dir p = fs.chase fuel m (fs.parent (locate dir p)) t.
Proof. intros Hget Hd. simpl. by rewrite Hget, Hd. Qed.

Lemma readFile_link p m t c :
  fs.get m (locate cwd p) = Some (Symlink t) → dirlike p = false →
  fs.get m (locate (fs.parent (locate cwd p)) t) = Some (File c) →
  dirlike t = false →
  fs.readFile cwd p m = (Ok c, m).
Proof.
  intros Hget Hd Ht Hdt. unfold fs.readFile, fs.max_symlinks.
  rewrite (chase_link _ _ _ _ t) by done.
  by rewrite (chase_here _ _ _ _ (Regular c)); [| |left].
Qed.

End Forward.

(** ** Keys that stay free *)

Section FreeFs.
Import Path PathFacts.
Variable cwd : list string.

Global Instance free_to_preorder x : PreOrder (free_to x).
Proof.
  split; [intros m H; exact H|].
  intros m1 m2 m3 H12 H23 H. by apply H23, H12.
Qed.

Lemma stable_free_to x m m' : stable true x m m' → free_to x m m'.
Proof.
  unfold stable, free_to, free. intros Hs [H|[c H]]; rewrite H in Hs; [done|by right].
Qed.

Lemma writeFile_free_to x p d : preserves (free_to x) (fs.writeFile cwd p d).
Proof. intros m. apply stable_free_to, writeFile_stable. Qed.

Lemma readFile_free_to x p : preserves (free_to x) (fs.readFile cwd p).
Proof. intros m. apply stable_free_to, readFile_stable. Qed.

Lemma access_free_to x p : preserves (free_to x) (fs.access cwd p).
Proof. intros m. apply stable_free_to, access_stable. Qed.

Lemma lstat_free_to x p : preserves (free_to x) (fs.lstat cwd p).
Proof. intros m. rewrite lstat_state. reflexivity. Qed.

Lemma copyFile_free_to x src dest : preserves (free_to x) (fs.copyFile cwd src dest).
Proof. intros m. apply stable_free_to, copyFile_stable. Qed.

Lemma unlink_free_to x p : preserves (free_to x) (fs.unlink cwd p).
Proof.
  intros m. destruct (unlink_state cwd p m) as [->| ->]; [reflexivity|].
  intros ?. by apply free_delete.
Qed.

Lemma symlink_free_to x t p :
  locate cwd p ≠ x → preserves (free_to x) (fs.symlink cwd t p).
Proof.
  intros Hne m. unfold fs.symlink, fs.create.
  repeat case_match; simplify_eq; try reflexivity.
  intros ?. by apply free_insert_ne.
Qed.

Lemma mkdir_free_to x p :
  length (locate cwd p) < length x → preserves (free_to x) (fs.mkdir cwd p).
Proof. intros Hlen m. by apply stable_free_to, mkdir_stable_deeper. Qed.

End FreeFs.

(** ** The operations *)

Section Operations.

Import Path PathFacts.

Variable cwd : list string.
Context {patch : Type}.
Variable diffCreate : string → string → string → string → string → string.
Variable parsePatch : string → bool → result (list patch).
Variable diffApply : string → option patch → nat → result (option string).

(** The operations, with the record's paths named. *)
Lemma commitPatch_eq filePath :
  commitPatch cwd diffCreate filePath =
  (originalContent ← fs.readFile cwd filePath;
   modifiedContent ← fs.readFile cwd (snapshotPath filePath);
   fs.writeFile cwd (patchPath filePath)
     (diffCreate (basename filePath) originalContent modifiedContent
        "original" "modified");;
   catch_ignore (fs.unlink cwd (snapshotPath filePath))).
Proof. reflexivity. Qed.

Lemma applyPatch_eq filePath :
  applyPatch cwd parsePatch diffApply filePath =
  (fs.access cwd (patchPath filePath);;
   originalContent ← fs.readFile cwd filePath;
   patchContent ← fs.readFile cwd (patchPath filePath);
   patches ← call (parsePatch patchContent false);
   result ← call (diffApply originalContent (head patches) 3);
   match result with
   | None => throw (Error "Failed to apply patch")
   | Some result =>
       fs.writeFile cwd (patchedPath filePath) result;;
       fs.copyFile cwd filePath (backupPath filePath);;
       fs.unlink cwd filePath;;
       fs.symlink cwd (patchedPath filePath) filePath
   end).
Proof. reflexivity. Qed.

Lemma revertPatch_eq filePath :
  revertPatch cwd filePath =
  (fs.access cwd (backupPath filePath);;
   stats ← fs.lstat cwd filePath;
   if isSymbolicLink stats then
     fs.unlink cwd filePath;;
     fs.copyFile cwd (backupPath filePath) filePath;;
     catch_ignore (fs.unlink cwd (backupPath filePath));;
     catch_ignore (fs.unlink cwd (patchedPath filePath))
   else mret tt).
Proof. reflexivity. Qed.

Lemma createPatch_eq filePath :
  createPatch cwd filePath =
  (ensurePatchesDir cwd;;
   fs.mkdir cwd (patchDir filePath);;
   originalContent ← fs.readFile cwd (resolve cwd filePath);
   fs.writeFile cwd (snapshotPath filePath) originalContent;;
   fs.writeFile cwd (join (patchDir filePath) "original-path.txt")
     (resolve cwd filePath)).
Proof. reflexivity. Qed.

(** The keys of the record's fields, for a path that can name a file. *)
Section Keys.

Variable filePath : string.
Hypothesis Hfile : dirlike filePath = false.

Lemma basename_proper : proper (basename filePath).
Proof. by apply not_dirlike. Qed.

Lemma ext_proper s :
  no_slash s = true → (2 ≤ String.length s)%nat →
  proper (basename filePath +:+ s).
Proof. apply proper_ext, basename_proper. Qed.

Lemma locate_snapshot :
  locate cwd (snapshotPath filePath) = recordKey cwd filePath (basename filePath).
Proof. apply field_locate; apply basename_proper. Qed.

Lemma locate_patch :
  locate cwd (patchPath filePath)
  = recordKey cwd filePath (basename filePath +:+ ".patch").
Proof.
  apply field_locate; [apply basename_proper|].
  apply ext_proper; [reflexivity|simpl; lia].
Qed.

Lemma locate_patched :
  locate cwd (patchedPath filePath)
  = recordKey cwd filePath (basename filePath +:+ ".patched").
Proof.
  apply field_locate; [apply basename_proper|].
  apply ext_proper; [reflexivity|simpl; lia].
Qed.

Lemma locate_backup :
  locate cwd (backupPath filePath)
  = recordKey cwd filePath (basename filePath +:+ ".original.backup").
Proof.
  apply field_locate; [apply basename_proper|].
  apply ext_proper; [reflexivity|simpl; lia].
Qed.

Lemma dirlike_snapshot : dirlike (snapshotPath filePath) = false.
Proof. apply field_dirlike; apply basename_proper. Qed.

Lemma dirlike_patch : dirlike (patchPath filePath) = false.
Proof.
  apply field_dirlike; [apply basename_proper|].
  apply ext_proper; [reflexivity|simpl; lia].
Qed.

Lemma dirlike_patched : dirlike (patchedPath filePath) = false.
Proof.
  apply field_dirlike; [apply basename_proper|].
  apply ext_proper; [reflexivity|simpl; lia].
Qed.

Lemma dirlike_backup : dirlike (backupPath filePath) = false.
Proof.
  apply field_dirlike; [apply basename_proper|].
  apply ext_proper; [reflexivity|simpl; lia].
Qed.

(** The live file is none of the fields named after it with a suffix. *)
Lemma live_ne_field s :
  s ≠ "" → locate cwd filePath ≠ recordKey cwd filePath (basename filePath +:+ s).
Proof.
  intros Hs E. destruct (locate_not_dirlike cwd filePath Hfile) as [d Hd].
  rewrite Hd in E. unfold recordKey in E.
  change ["patches"; basename filePath; basename filePath +:+ s]
    with (["patches"; basename filePath] ++ [basename filePath +:+ s]) in E.
  rewrite app_assoc in E. apply app_inj_tail in E as [_ E].
  symmetry in E. exact (append_ne_self _ _ Hs E).
Qed.

Lemma field_ne s t :
  s ≠ t →
  recordKey cwd filePath (basename filePath +:+ s)
  ≠ recordKey cwd filePath (basename filePath +:+ t).
Proof. intros Hst E. apply recordKey_inj, append_inv_l in E. done. Qed.

Lemma snapshot_ne_field s :
  s ≠ "" →
  recordKey cwd filePath (basename filePath)
  ≠ recordKey cwd filePath (basename filePath +:+ s).
Proof.
  intros Hs E. apply recordKey_inj in E. symmetry in E.
  exact (append_ne_self _ _ Hs E).
Qed.

End Keys.

(** What a returning [applyPatch] did. *)
Lemma applyPatch_inv filePath m m' :
  applyPatch cwd parsePatch diffApply filePath m = (Ok tt, m') →
  ∃ originalContent result mA mB,
    fs.readFile cwd filePath m = (Ok originalContent, m)
    ∧ fs.writeFile cwd (patchedPath filePath) result m = (Ok tt, mA)
    ∧ fs.copyFile cwd filePath (backupPath filePath) mA = (Ok tt, mB)
    ∧ fs.unlink cwd filePath mB = (Ok tt, delete (locate cwd filePath) mB)
    ∧ m' = <[locate cwd filePath := Symlink (patchedPath filePath)]>
             (delete (locate cwd filePath) mB).
Proof.
  rewrite applyPatch_eq. run_promise. intros H.
  destruct (fs.access cwd _ m) as [[[]|e] m1] eqn:Hacc; [|done].
  apply access_inv in Hacc as ->.
  destruct (fs.readFile cwd filePath m) as [[orig|e] m1] eqn:Horig; [|done].
  apply readFile_inv in Horig as Horig'. destruct Horig' as [-> _].
  destruct (fs.readFile cwd (patchPath filePath) m) as [[ptxt|e] m1] eqn:Hp; [|done].
  apply readFile_inv in Hp as Hp'. destruct Hp' as [-> _].
  destruct (parsePatch ptxt false) as [patches|e]; [|done].
  destruct (diffApply orig (head patches) 3) as [[result|]|e]; [|done|done].
  destruct (fs.writeFile cwd (patchedPath filePath) result m) as [[[]|e] mA] eqn:Hw;
    [|done].
  destruct (fs.copyFile cwd filePath (backupPath filePath) mA) as [[[]|e] mB] eqn:Hc;
    [|done].
  destruct (fs.unlink cwd filePath mB) as [[[]|e] mC] eqn:Hu; [|done].
  apply unlink_inv in Hu as Hu'. destruct Hu' as (-> & _).
  apply symlink_inv in H as (-> & _).
  exists orig, result, mA, mB. done.
Qed.

End Operations.

(** ** Outcomes of the operations on one file *)

Section Outcomes.
Import Path PathFacts.

Variable cwd : list string.
Context {patch : Type}.
Variable diffCreate : string → string → string → string → string → string.
Variable parsePatch : string → bool → result (list patch).
Variable diffApply : string → option patch → nat → result (option string).

Variable filePath : string.
Hypothesis Hfile : dirlike filePath = false.

Local Abbreviation kF := (locate cwd filePath).
Local Abbreviation kB := (locate cwd (backupPath filePath)).

Lemma locate_patches : locate cwd PATCHES_DIR = normalizeSegs false cwd ++ ["patches"].
Proof.
  apply (locate_join_slash cwd ["patches"]).
  apply Forall_cons_2; [apply proper_patches|apply Forall_nil_2].
Qed.

Lemma locate_patchDir :
  locate cwd (patchDir filePath)
  = normalizeSegs false cwd ++ ["patches"; basename filePath].
Proof.
  rewrite patchDir_eq by by apply basename_proper.
  apply locate_join_slash.
  apply Forall_cons_2; [apply proper_patches|].
  apply Forall_cons_2; [by apply basename_proper|apply Forall_nil_2].
Qed.

Lemma live_ne_backup : kF ≠ kB.
Proof. rewrite locate_backup by done. by apply live_ne_field. Qed.

Lemma live_ne_patched : kF ≠ locate cwd (patchedPath filePath).
Proof. rewrite locate_patched by done. by apply live_ne_field. Qed.

Lemma snapshot_ne_backup : locate cwd (snapshotPath filePath) ≠ kB.
Proof.
  rewrite locate_snapshot, locate_backup by done. by apply snapshot_ne_field.
Qed.

Lemma patched_ne_backup : locate cwd (patchedPath filePath) ≠ kB.
Proof. rewrite locate_patched, locate_backup by done. by apply field_ne. Qed.

Lemma ensurePatchesDir_stable_live :
  preserves (stable false kF) (ensurePatchesDir cwd).
Proof.
  apply preserves_try_catch; [apply _|apply mkdir_stable_present|].
  intros e. case_decide; [apply preserves_throw|apply preserves_ret]; apply _.
Qed.

Lemma ensurePatchesDir_stable_backup :
  preserves (stable true kB) (ensurePatchesDir cwd).
Proof.
  apply preserves_try_catch; [apply _| |].
  - apply mkdir_stable_deeper. rewrite locate_patches, locate_backup by done.
    unfold recordKey. rewrite !length_app. simpl. lia.
  - intros e. case_decide; [apply preserves_throw|apply preserves_ret]; apply _.
Qed.

Lemma createPatch_stable_live : preserves (stable false kF) (createPatch cwd filePath).
Proof.
  rewrite createPatch_eq.
  apply preserves_bind; [apply _|apply ensurePatchesDir_stable_live|intros _].
  apply preserves_bind; [apply _|apply mkdir_stable_present|intros _].
  apply preserves_bind; [apply _|apply readFile_stable|intros c].
  apply preserves_bind; [apply _|apply writeFile_stable|intros _].
  apply writeFile_stable.
Qed.

Lemma createPatch_stable_backup : preserves (stable true kB) (createPatch cwd filePath).
Proof.
  rewrite createPatch_eq.
  apply preserves_bind; [apply _|apply ensurePatchesDir_stable_backup|intros _].
  apply preserves_bind; [apply _| |intros _].
  { apply mkdir_stable_deeper. rewrite locate_patchDir, locate_backup by done.
    unfold recordKey. rewrite !length_app. simpl. lia. }
  apply preserves_bind; [apply _|apply readFile_stable|intros c].
  apply preserves_bind; [apply _|apply writeFile_stable|intros _].
  apply writeFile_stable.
Qed.

Lemma commitPatch_stable b x :
  locate cwd (snapshotPath filePath) ≠ x →
  preserves (stable b x) (commitPatch cwd diffCreate filePath).
Proof.
  intros Hx. rewrite commitPatch_eq.
  apply preserves_bind; [apply _|apply readFile_stable|intros c].
  apply preserves_bind; [apply _|apply readFile_stable|intros c'].
  apply preserves_bind; [apply _|apply writeFile_stable|intros _].
  by apply preserves_catch_ignore, unlink_stable.
Qed.

(** An [applyPatch] that throws has at most written files. *)
Lemma applyPatch_throw m e m' b x :
  applyPatch cwd parsePatch diffApply filePath m = (Throw e, m') →
  stable b x m m'.
Proof.
  rewrite applyPatch_eq. run_promise. intros H.
  destruct (fs.access cwd _ m) as [[[]|e0] m1] eqn:Hacc;
    apply access_inv in Hacc as ->; [|simplify_eq; apply stable_refl].
  destruct (fs.readFile cwd filePath m) as [[orig|e0] m1] eqn:Horig;
    pose proof (readFile_state cwd filePath m) as E; rewrite Horig in E;
    simpl in E; subst m1; [|simplify_eq; apply stable_refl].
  destruct (fs.readFile cwd (patchPath filePath) m) as [[ptxt|e0] m1] eqn:Hp;
    pose proof (readFile_state cwd (patchPath filePath) m) as E; rewrite Hp in E;
    simpl in E; subst m1; [|simplify_eq; apply stable_refl].
  destruct (parsePatch ptxt false) as [patches|e0];
    [|simplify_eq; apply stable_refl].
  destruct (diffApply orig (head patches) 3) as [[result|]|e0];
    [|simplify_eq; apply stable_refl|simplify_eq; apply stable_refl].
  pose proof (writeFile_stable cwd b x (patchedPath filePath) result m) as HA.
  destruct (fs.writeFile cwd (patchedPath filePath) result m) as [[[]|e0] mA];
    simpl in HA; [|by simplify_eq].
  pose proof (copyFile_stable cwd b x filePath (backupPath filePath) mA) as HB.
  destruct (fs.copyFile cwd filePath (backupPath filePath) mA) as [[[]|e0] mB];
    simpl in HB; [|simplify_eq; by etrans].
  destruct (fs.unlink cwd filePath mB) as [[[]|e0] mC] eqn:Hu.
  - apply unlink_inv in Hu as (-> & _ & Hne & Hpar).
    rewrite symlink_ok in H; [done|by apply get_delete_eq|done|].
    rewrite get_delete_ne; [done|by apply not_eq_sym, parent_ne].
  - apply unlink_throw in Hu as ->. simplify_eq. by etrans.
Qed.

(** An [applyPatch] that returns leaves a link at the live path and, when
    the backup path was free or a file, a file at the backup path. *)
Lemma applyPatch_ok m m' :
  applyPatch cwd parsePatch diffApply filePath m = (Ok tt, m') →
  free m kB →
  (∃ t, fs.get m' kF = Some (Symlink t)) ∧ ∃ c, fs.get m' kB = Some (File c).
Proof.
  intros H HB.
  apply applyPatch_inv in H as (orig & result & mA & mB & _ & HwA & HcB & Hun & ->).
  apply unlink_inv in Hun as (_ & _ & Hne & _).
  split; [by rewrite get_insert_eq; eauto|].
  rewrite get_insert_ne, get_delete_ne by apply live_ne_backup.
  assert (HBA : free mA kB).
  { pose proof (writeFile_stable cwd true kB (patchedPath filePath) result m) as HA.
    rewrite HwA in HA. unfold stable in HA. simpl in HA.
    destruct HB as [HB|[c HB]]; rewrite HB in HA; [done|by right]. }
  apply copyFile_inv in HcB as (c & _ & Hw).
  apply writeFile_inv in Hw as (k & f & Hc & _ & ->).
  assert (k = kB) as ->.
  { destruct HBA as [HBA|[c' HBA]].
    - rewrite (chase_here _ _ _ _ Missing) in Hc;
        [by simplify_eq|done|left; by apply dirlike_backup].
    - rewrite (chase_here _ _ _ _ (Regular c')) in Hc;
        [by simplify_eq|done|left; by apply dirlike_backup]. }
  rewrite get_insert_eq; [eauto|].
  rewrite locate_backup by done. apply recordKey_nonempty.
Qed.

(** [revertPatch] where the live path is not a link. *)
Lemma revertPatch_not_link m stats :
  fs.lstat cwd filePath m = (Ok stats, m) → isSymbolicLink stats = false →
  revertPatch cwd filePath m = ((fs.access cwd (backupPath filePath) m).1, m).
Proof.
  intros Hstat Hlink. rewrite revertPatch_eq. run_promise.
  destruct (fs.access cwd (backupPath filePath) m) as [[[]|e] m'] eqn:Hacc;
    apply access_inv in Hacc as ->; [|done].
  by rewrite Hstat, Hlink.
Qed.

(** [revertPatch] where the live path is a link and the backup a file. *)
Lemma revertPatch_link m t c :
  fs.get m kF = Some (Symlink t) → fs.get m kB = Some (File c) →
  (∃ e, revertPatch cwd filePath m = (Throw e, m))
  ∨ ∃ m', revertPatch cwd filePath m = (Ok tt, m')
          ∧ fs.get m' kF = Some (File c)
          ∧ (fs.get m' kB = None ∨ fs.get m' kB = Some (File c)).
Proof.
  intros HF HB. rewrite revertPatch_eq. run_promise.
  erewrite access_file; [|exact HB|done|by apply dirlike_backup].
  erewrite lstat_link; [|exact HF|done]. cbn [isSymbolicLink].
  destruct (fs.unlink cwd filePath m) as [[[]|e] m1] eqn:Hu.
  2:{ apply unlink_throw in Hu as ->. eauto. }
  apply unlink_inv in Hu as (-> & _ & Hne & Hpar).
  right. unfold fs.copyFile. run_promise.
  erewrite readFile_file;
    [|by rewrite get_delete_ne by apply live_ne_backup|by apply dirlike_backup].
  rewrite writeFile_new; [|by apply get_delete_eq|done|].
  2:{ rewrite get_delete_ne; [done|by apply not_eq_sym, parent_ne]. }
  eexists. split; [reflexivity|].
  set (m1 := <[kF:=File c]> (delete kF m)).
  assert (H1F : fs.get m1 kF = Some (File c)) by by apply get_insert_eq.
  assert (H1B : fs.get m1 kB = Some (File c)).
  { unfold m1. by rewrite get_insert_ne, get_delete_ne by apply live_ne_backup. }
  assert (HkB : kB ≠ []).
  { rewrite locate_backup by done. apply recordKey_nonempty. }
  destruct (unlink_state cwd (backupPath filePath) m1) as [->| ->];
    match goal with
    | |- context [fs.unlink cwd (patchedPath filePath) ?m] =>
        destruct (unlink_state cwd (patchedPath filePath) m) as [->| ->]
    end;
    rewrite ?(get_delete_ne (locate cwd (patchedPath filePath)))
      by first [apply patched_ne_backup | apply not_eq_sym, live_ne_patched];
    rewrite ?(get_delete_ne kB kF) by apply not_eq_sym, live_ne_backup;
    rewrite ?get_delete_eq by done; auto.
Qed.

Hypothesis Hsnap : kF ≠ locate cwd (snapshotPath filePath).

Lemma lifecycle_inv_stable ph m m' :
  stable false kF m m' → stable true kB m m' →
  lifecycle_inv cwd filePath (ph, m) → lifecycle_inv cwd filePath (ph, m').
Proof.
  unfold stable, lifecycle_inv. simpl. intros HF HB [_ Hph].
  split; [done|]. destruct ph.
  - destruct Hph as [[c Hc] Hb]. rewrite Hc in HF. split; [done|].
    destruct Hb as [Hb|[c' Hb]]; rewrite Hb in HB; [exact HB|by right].
  - destruct Hph as [[t Ht] [c Hc]]. rewrite Ht in HF. rewrite Hc in HB. eauto.
Qed.

Lemma step_inv st c :
  lifecycle_inv cwd filePath st →
  lifecycle_inv cwd filePath (step cwd diffCreate parsePatch diffApply filePath st c).
Proof.
  destruct st as [ph m]. intros Hinv. unfold step. cbn [fst snd].
  destruct c as [|text| | |]; cbn [perform].
  - pose proof (createPatch_stable_live m) as HF.
    pose proof (createPatch_stable_backup m) as HB.
    destruct (createPatch cwd filePath m) as [[[]|e] m'];
      by apply (lifecycle_inv_stable ph m).
  - pose proof (writeFile_stable cwd false kF (snapshotPath filePath) text m) as HF.
    pose proof (writeFile_stable cwd true kB (snapshotPath filePath) text m) as HB.
    destruct (fs.writeFile cwd (snapshotPath filePath) text m) as [[[]|e] m'];
      by apply (lifecycle_inv_stable ph m).
  - pose proof (commitPatch_stable false kF (not_eq_sym Hsnap) m) as HF.
    pose proof (commitPatch_stable true kB snapshot_ne_backup m) as HB.
    destruct (commitPatch cwd diffCreate filePath m) as [[[]|e] m'];
      by apply (lifecycle_inv_stable ph m).
  - destruct (applyPatch cwd parsePatch diffApply filePath m) as [[[]|e] m'] eqn:Ha.
    + apply applyPatch_ok in Ha; [by split|].
      destruct Hinv as [_ Hph]. destruct ph; simpl in Hph.
      * by destruct Hph.
      * destruct Hph as [_ ?]. by right.
    + apply (lifecycle_inv_stable ph m); [| |done]; by eapply applyPatch_throw.
  - destruct Hinv as [_ Hph]. destruct ph; simpl in Hph.
    + destruct Hph as [[c Hc] Hb].
      erewrite revertPatch_not_link; [|by eapply lstat_file|done].
      destruct (fs.access cwd (backupPath filePath) m).1;
        (split; [done|]; split; [by eexists|done]).
    + destruct Hph as [[t Ht] [c Hc]].
      destruct (revertPatch_link m t c Ht Hc) as [[e ->]|(m' & -> & HF & HB)].
      * split; [done|]. split; by eexists.
      * split; [done|]. split; [by eexists|].
        destruct HB as [HB|HB]; [by left|right; by eexists].
Qed.

Lemma run_inv cs st :
  lifecycle_inv cwd filePath st →
  lifecycle_inv cwd filePath (run cwd diffCreate parsePatch diffApply filePath cs st).
Proof.
  revert st. induction cs as [|c cs IH]; intros st Hinv; [done|].
  simpl. by apply IH, step_inv.
Qed.

Lemma lifecycle_inv_kind st :
  lifecycle_inv cwd filePath st → kindOf cwd filePath st.2 = Ok (live_kind st.1).
Proof.
  destruct st as [ph m]. intros [_ Hph]. unfold kindOf. simpl in *. destruct ph.
  - destruct Hph as [[c Hc] _]. by erewrite lstat_file.
  - destruct Hph as [[t Ht] _]. by erewrite lstat_link.
Qed.

End Outcomes.

(** ** Runs of the operations on a record *)

Section ForwardOps.
Import Path PathFacts.

Variable cwd : list string.
Context {patch : Type}.
Variable diffCreate : string → string → string → string → string → string.
Variable parsePatch : string → bool → result (list patch).
Variable diffApply : string → option patch → nat → result (option string).

Variable filePath : string.
Hypothesis Hfile : dirlike filePath = false.

Local Abbreviation kF := (locate cwd filePath).
Local Abbreviation field := (recordKey cwd filePath).
Local Abbreviation n := (basename filePath).
Local Abbreviation kDir := (normalizeSegs false cwd ++ ["patches"; basename filePath]).

Lemma field_ne_nil x : field x ≠ [].
Proof. apply recordKey_nonempty. Qed.

Lemma dir_ne_field x : kDir ≠ field x.
Proof.
  unfold recordKey. intros E. apply (f_equal length) in E.
  rewrite !length_app in E. simpl in E. lia.
Qed.

Lemma live_parent_ne m x :
  fs.get m (fs.parent kF) = Some (Dir true) → free m x → fs.parent kF ≠ x.
Proof. intros Hp [Hx|[c Hx]] E; rewrite E in Hp; congruence. Qed.

(** [commitPatch] on a record with a snapshot. *)
Lemma commitPatch_forward m original modified :
  fs.get m kF = Some (File original) →
  fs.get m (field n) = Some (File modified) →
  free m (field (n +:+ ".patch")) →
  fs.get m kDir = Some (Dir true) →
  commitPatch cwd diffCreate filePath m
  = (Ok tt, delete (field n)
              (<[field (n +:+ ".patch") :=
                   File (diffCreate n original modified "original" "modified")]> m)).
Proof.
  intros HF HS Hp Hdir. rewrite commitPatch_eq. run_promise.
  erewrite readFile_file; [|exact HF|done].
  erewrite readFile_file; [|by rewrite locate_snapshot|by apply dirlike_snapshot].
  rewrite writeFile_free;
    [|by rewrite locate_patch|by apply dirlike_patch
     |by rewrite locate_patch, recordKey_parent].
  rewrite locate_patch by done.
  rewrite (unlink_ok cwd _ _ (File modified));
    [by rewrite locate_snapshot| |done|by apply dirlike_snapshot|].
  - rewrite locate_snapshot by done.
    rewrite get_insert_ne by (by apply not_eq_sym, snapshot_ne_field). exact HS.
  - rewrite locate_snapshot, recordKey_parent by done.
    by rewrite get_insert_ne by (by apply not_eq_sym, dir_ne_field).
Qed.

(** [applyPatch] on a record with a patch the library accepts. *)
Lemma applyPatch_forward m original text result :
  fs.get m kF = Some (File original) →
  fs.get m (fs.parent kF) = Some (Dir true) →
  fs.get m (field (n +:+ ".patch")) = Some (File text) →
  first_patch (parsePatch text false) ≫= (λ p, diffApply original p 3)
  = Ok (Some result) →
  free m (field (n +:+ ".patched")) →
  free m (field (n +:+ ".original.backup")) →
  fs.get m kDir = Some (Dir true) →
  applyPatch cwd parsePatch diffApply filePath m
  = (Ok tt, <[kF := Symlink (patchedPath filePath)]>
              (delete kF
                 (<[field (n +:+ ".original.backup") := File original]>
                    (<[field (n +:+ ".patched") := File result]> m)))).
Proof.
  intros HF Hpar Hp Hlib HP HB Hdir.
  assert (HkF : kF ≠ []) by (by intros E; rewrite E in HF).
  rewrite applyPatch_eq. run_promise.
  erewrite access_file; [|by rewrite locate_patch|done|by apply dirlike_patch].
  erewrite readFile_file; [|exact HF|done].
  erewrite readFile_file; [|by rewrite locate_patch|by apply dirlike_patch].
  unfold first_patch in Hlib.
  destruct (parsePatch text false) as [patches|e]; [|done]. simpl in Hlib.
  rewrite Hlib.
  rewrite writeFile_free;
    [|by rewrite locate_patched|by apply dirlike_patched
     |by rewrite locate_patched, recordKey_parent].
  rewrite locate_patched by done.
  unfold fs.copyFile. run_promise.
  erewrite readFile_file;
    [|by rewrite get_insert_ne by (by apply not_eq_sym, live_ne_field)|done].
  rewrite writeFile_free;
    [|rewrite locate_backup by done; by apply free_insert_file; [apply field_ne_nil|]
     |by apply dirlike_backup
     |rewrite locate_backup, recordKey_parent by done;
      by rewrite get_insert_ne by (by apply not_eq_sym, dir_ne_field)].
  rewrite locate_backup by done.
  rewrite (unlink_ok cwd _ _ (File original)); [| |done|done|].
  2:{ rewrite !get_insert_ne by (by apply not_eq_sym, live_ne_field). exact HF. }
  2:{ rewrite !get_insert_ne; [done| |].
      - by apply not_eq_sym, (live_parent_ne m).
      - by apply not_eq_sym, (live_parent_ne m). }
  rewrite symlink_ok; [done|by apply get_delete_eq|done|].
  rewrite get_delete_ne by (by apply not_eq_sym, parent_ne).
  rewrite !get_insert_ne; [done| |]; by apply not_eq_sym, (live_parent_ne m).
Qed.

End ForwardOps.

Section RoundTrip.
Import Path PathFacts.

Variable cwd : list string.
Context {patch : Type}.
Variable diffCreate : string → string → string → string → string → string.
Variable parsePatch : string → bool → result (list patch).
Variable diffApply : string → option patch → nat → result (option string).

Variable filePath : string.
Hypothesis Hfile : dirlike filePath = false.
Hypothesis Hcwd : Forall is_name cwd.

Local Abbreviation wd := (normalizeSegs false cwd).
Local Abbreviation kF := (locate cwd filePath).
Local Abbreviation field := (recordKey cwd filePath).
Local Abbreviation n := (basename filePath).
Local Abbreviation kTop := (normalizeSegs false cwd ++ ["patches"]).
Local Abbreviation kDir := (normalizeSegs false cwd ++ ["patches"; basename filePath]).

Lemma locate_proper p : Forall proper (locate cwd p).
Proof.
  unfold locate. apply normalizeSegs_names.
  destruct (isAbsolute p); [apply segments_names|].
  apply Forall_app. split; [done|apply segments_names].
Qed.

Lemma locate_resolve : locate cwd (resolve cwd filePath) = kF.
Proof. apply locate_render, locate_proper. Qed.

Lemma dirlike_resolve : dirlike (resolve cwd filePath) = false.
Proof.
  unfold resolve. destruct (locate_not_dirlike cwd filePath Hfile) as [d Hd].
  pose proof (locate_proper filePath) as Hp. rewrite Hd in Hp |- *.
  apply Forall_app in Hp as [Hd' Hn]. apply dirlike_render; [done|].
  by inversion Hn.
Qed.

Lemma untracked_get m l : untracked cwd m → fs.get m (wd ++ "patches" :: l) = None.
Proof. intros H. specialize (H l). by destruct wd. Qed.

Lemma untracked_free m l : untracked cwd m → free m (wd ++ "patches" :: l).
Proof. intros H. left. by apply untracked_get. Qed.

Lemma top_ne_field x : kTop ≠ field x.
Proof.
  unfold recordKey. intros E. apply (f_equal length) in E.
  rewrite !length_app in E. simpl in E. lia.
Qed.

Lemma top_ne_dir : kTop ≠ kDir.
Proof.
  intros E. apply (f_equal length) in E. rewrite !length_app in E. simpl in E. lia.
Qed.

(** [createPatch] where no record exists yet. *)
Lemma createPatch_forward m content :
  untracked cwd m →
  fs.get m wd = Some (Dir true) →
  fs.get m kF = Some (File content) →
  createPatch cwd filePath m
  = (Ok tt, <[field "original-path.txt" := File (resolve cwd filePath)]>
              (<[field n := File content]>
                 (<[kDir := Dir true]> (<[kTop := Dir true]> m)))).
Proof.
  intros Hun Hwd HF.
  assert (HFtop : kTop ≠ kF).
  { intros E. rewrite <- E in HF. by rewrite (untracked_get m []) in HF. }
  assert (HFdir : kDir ≠ kF).
  { intros E. rewrite <- E in HF. by rewrite (untracked_get m [n]) in HF. }
  assert (Horig : proper "original-path.txt") by (repeat split; done).
  rewrite createPatch_eq. run_promise. unfold ensurePatchesDir, try_catch.
  rewrite (mkdir_new cwd _ _ wd "patches");
    [|by apply locate_patches|by apply (untracked_get m [])|done].
  rewrite (mkdir_new cwd _ _ kTop n).
  2:{ rewrite locate_patchDir by done. by rewrite <- app_assoc. }
  2:{ rewrite <- app_assoc. rewrite get_insert_ne by apply top_ne_dir.
      by apply (untracked_get m [n]). }
  2:{ apply get_insert_eq. by destruct wd. }
  rewrite <- app_assoc. simpl app.
  erewrite readFile_file; [| |by apply dirlike_resolve].
  2:{ rewrite locate_resolve. rewrite !get_insert_ne by done. exact HF. }
  rewrite writeFile_free.
  2:{ rewrite locate_snapshot by done.
      apply free_insert_ne; [apply dir_ne_field|].
      apply free_insert_ne; [apply top_ne_field|].
      by apply (untracked_free m [n; n]). }
  2:{ by apply dirlike_snapshot. }
  2:{ rewrite locate_snapshot, recordKey_parent by done.
      apply get_insert_eq. by destruct wd. }
  rewrite locate_snapshot by done.
  rewrite writeFile_free.
  2:{ rewrite field_locate by (done || by apply basename_proper).
      apply free_insert_file; [apply recordKey_nonempty|].
      apply free_insert_ne; [apply dir_ne_field|].
      apply free_insert_ne; [apply top_ne_field|].
      by apply (untracked_free m [n; "original-path.txt"]). }
  2:{ apply field_dirlike; [by apply basename_proper|done]. }
  2:{ rewrite field_locate, recordKey_parent by (done || by apply basename_proper).
      rewrite get_insert_ne by (apply not_eq_sym, dir_ne_field).
      apply get_insert_eq. by destruct wd. }
  by rewrite field_locate by (done || by apply basename_proper).
Qed.

End RoundTrip.

(** ** The link made by [applyPatch] *)

Section Link.
Import Path PathFacts.

Variable cwd : list string.
Context {patch : Type}.
Variable parsePatch : string → bool → result (list patch).
Variable diffApply : string → option patch → nat → result (option string).

Variable filePath : string.
Hypothesis Hfile : dirlike filePath = false.
Hypothesis Hcwd : Forall is_name cwd.

Local Abbreviation wd := (normalizeSegs false cwd).
Local Abbreviation kF := (locate cwd filePath).
Local Abbreviation field := (recordKey cwd filePath).
Local Abbreviation n := (basename filePath).
Local Abbreviation kDir := (normalizeSegs false cwd ++ ["patches"; basename filePath]).

(** Where the link made by [applyPatch] leads: the path of the patched
    result, read from the directory of the live file. *)
Lemma link_key :
  locate (fs.parent kF) (patchedPath filePath)
  = fs.parent kF ++ ["patches"; n; n +:+ ".patched"].
Proof.
  unfold patchedPath.
  rewrite field_path
    by (by apply basename_proper || (apply ext_proper; [done|reflexivity|simpl; lia])).
  rewrite locate_join_slash.
  2:{ apply Forall_cons_2; [apply proper_patches|].
      apply Forall_cons_2; [by apply basename_proper|].
      apply Forall_cons_2; [|apply Forall_nil_2].
      apply ext_proper; [done|reflexivity|simpl; lia]. }
  f_equal. apply normalizeSegs_proper.
  destruct (locate_not_dirlike cwd filePath Hfile) as [d Hd].
  pose proof (locate_proper cwd Hcwd filePath) as Hp.
  rewrite Hd in Hp |- *. rewrite parent_snoc.
  by apply Forall_app in Hp as [? _].
Qed.

(** It leads to the patched result exactly when the live file lies
    directly in the working directory. *)
Lemma link_reaches_patched :
  locate (fs.parent kF) (patchedPath filePath) = locate cwd (patchedPath filePath)
  ↔ fs.parent kF = wd.
Proof.
  rewrite link_key, locate_patched by done. unfold recordKey. split.
  - by intros E%app_inv_tail.
  - by intros ->.
Qed.

(** [applyPatch] on a file that is already applied, in the working
    directory: the patched text is patched again and replaces the backup. *)
Lemma applyPatch_again m patched text result :
  fs.parent kF = wd →
  fs.get m kF = Some (Symlink (patchedPath filePath)) →
  fs.get m wd = Some (Dir true) →
  fs.get m (field (n +:+ ".patched")) = Some (File patched) →
  fs.get m (field (n +:+ ".patch")) = Some (File text) →
  first_patch (parsePatch text false) ≫= (λ p, diffApply patched p 3)
  = Ok (Some result) →
  free m (field (n +:+ ".original.backup")) →
  fs.get m kDir = Some (Dir true) →
  applyPatch cwd parsePatch diffApply filePath m
  = (Ok tt, <[kF := Symlink (patchedPath filePath)]>
              (delete kF
                 (<[field (n +:+ ".original.backup") := File result]>
                    (<[field (n +:+ ".patched") := File result]> m)))).
Proof.
  intros Hdir HF Hwd HP Hp Hlib HB Hrec.
  assert (HkF : kF ≠ []) by (by intros E; rewrite E in HF).
  assert (Hlink : locate (fs.parent kF) (patchedPath filePath)
                  = field (n +:+ ".patched")).
  { rewrite (proj2 link_reaches_patched Hdir). by apply locate_patched. }
  assert (HFP : field (n +:+ ".patched") ≠ kF)
    by (by apply not_eq_sym, live_ne_field).
  assert (HFB : field (n +:+ ".original.backup") ≠ kF)
    by (by apply not_eq_sym, live_ne_field).
  assert (HwdP : ∀ x, field x ≠ wd).
  { intros x E. apply (f_equal length) in E. unfold recordKey in E.
    rewrite !length_app in E. simpl in E. lia. }
  rewrite applyPatch_eq. run_promise.
  erewrite access_file; [|by rewrite locate_patch|done|by apply dirlike_patch].
  erewrite readFile_link;
    [|exact HF|done|by rewrite Hlink|by apply dirlike_patched].
  erewrite readFile_file; [|by rewrite locate_patch|by apply dirlike_patch].
  unfold first_patch in Hlib.
  destruct (parsePatch text false) as [patches|e]; [|done]. simpl in Hlib.
  rewrite Hlib.
  erewrite writeFile_over; [|by rewrite locate_patched|by apply dirlike_patched].
  rewrite locate_patched by done.
  unfold fs.copyFile. run_promise.
  erewrite readFile_link; [|by rewrite get_insert_ne|done| |by apply dirlike_patched].
  2:{ fold kF. rewrite Hlink. apply get_insert_eq, recordKey_nonempty. }
  rewrite writeFile_free;
    [|rewrite locate_backup by done;
      by apply free_insert_file; [apply recordKey_nonempty|]
     |by apply dirlike_backup
     |rewrite locate_backup, recordKey_parent by done;
      by rewrite get_insert_ne by (by apply not_eq_sym, dir_ne_field)].
  rewrite locate_backup by done.
  rewrite (unlink_ok cwd _ _ (Symlink (patchedPath filePath))); [| |done|done|].
  2:{ by rewrite !get_insert_ne. }
  2:{ fold kF. rewrite Hdir. by rewrite !get_insert_ne. }
  rewrite symlink_ok; [done|by apply get_delete_eq|done|].
  rewrite get_delete_ne by (by apply not_eq_sym, parent_ne).
  fold kF. rewrite Hdir. by rewrite !get_insert_ne.
Qed.

End Link.

(** ** Record keys along the lifecycle *)

Section FreeOps.
Import Path PathFacts.

Variable cwd : list string.
Context {patch : Type}.
Variable diffCreate : string → string → string → string → string → string.
Variable parsePatch : string → bool → result (list patch).
Variable diffApply : string → option patch → nat → result (option string).

Variable filePath : string.
Hypothesis Hfile : dirlike filePath = false.

(** A key below the record directory, other than the live path. *)
Variable x : list string.
Hypothesis Hdeep : length (normalizeSegs false cwd) + 2 < length x.
Hypothesis Hlive : locate cwd filePath ≠ x.

Lemma perform_free_to c :
  preserves (free_to x) (perform cwd diffCreate parsePatch diffApply filePath c).
Proof.
  destruct c as [|text| | |]; cbn [perform].
  - rewrite createPatch_eq.
    apply preserves_bind; [apply _| |intros _].
    { apply preserves_try_catch; [apply _| |].
      - apply mkdir_free_to. rewrite locate_patches by done.
        rewrite length_app. simpl. lia.
      - intros e. case_decide; [apply preserves_throw|apply preserves_ret]; apply _. }
    apply preserves_bind; [apply _| |intros _].
    { apply mkdir_free_to. rewrite locate_patchDir by done.
      rewrite length_app. simpl. lia. }
    apply preserves_bind; [apply _|apply readFile_free_to|intros c].
    apply preserves_bind; [apply _|apply writeFile_free_to|intros _].
    apply writeFile_free_to.
  - apply writeFile_free_to.
  - rewrite commitPatch_eq.
    apply preserves_bind; [apply _|apply readFile_free_to|intros c].
    apply preserves_bind; [apply _|apply readFile_free_to|intros c'].
    apply preserves_bind; [apply _|apply writeFile_free_to|intros _].
    apply preserves_catch_ignore, unlink_free_to.
  - rewrite applyPatch_eq.
    apply preserves_bind; [apply _|apply access_free_to|intros _].
    apply preserves_bind; [apply _|apply readFile_free_to|intros c].
    apply preserves_bind; [apply _|apply readFile_free_to|intros c'].
    apply preserves_bind; [apply _|apply preserves_call; apply _|intros patches].
    apply preserves_bind; [apply _|apply preserves_call; apply _|intros [result|]].
    2:{ apply preserves_throw; apply _. }
    apply preserves_bind; [apply _|apply writeFile_free_to|intros _].
    apply preserves_bind; [apply _|apply copyFile_free_to|intros _].
    apply preserves_bind; [apply _|apply unlink_free_to|intros _].
    by apply symlink_free_to.
  - rewrite revertPatch_eq.
    apply preserves_bind; [apply _|apply access_free_to|intros _].
    apply preserves_bind; [apply _|apply lstat_free_to|intros stats].
    destruct (isSymbolicLink stats); [|apply preserves_ret; apply _].
    apply preserves_bind; [apply _|apply unlink_free_to|intros _].
    apply preserves_bind; [apply _|apply copyFile_free_to|intros _].
    apply preserves_bind;
      [apply _|apply preserves_catch_ignore, unlink_free_to|intros _].
    apply preserves_catch_ignore, unlink_free_to.
Qed.

Lemma run_free_to cs st :
  free st.2 x →
  free (run cwd diffCreate parsePatch diffApply filePath cs st).2 x.
Proof.
  revert st. induction cs as [|c cs IH]; intros [ph m] H; [done|].
  simpl. apply IH. unfold step. cbn [fst snd].
  pose proof (perform_free_to c m H) as H'.
  by destruct (perform cwd diffCreate parsePatch diffApply filePath c m) as [[[]|e] m'].
Qed.

End FreeOps.

(** ** [applyPatch] followed by [revertPatch] *)

Section ApplyRevert.
Import Path PathFacts.

Variable cwd : list string.
Context {patch : Type}.
Variable parsePatch : string → bool → result (list patch).
Variable diffApply : string → option patch → nat → result (option string).

Lemma apply_revert_restores filePath m0 m1 m2 content :
  kindOf cwd filePath m0 = Ok StatFile →
  contentOf cwd filePath m0 = Ok content →
  kindOf cwd (patchedPath filePath) m0 ≠ Ok StatSymbolicLink →
  applyPatch cwd parsePatch diffApply filePath m0 = (Ok tt, m1) →
  revertPatch cwd filePath m1 = (Ok tt, m2) →
  kindOf cwd filePath m2 = Ok StatFile ∧ contentOf cwd filePath m2 = Ok content.
Proof.
  unfold kindOf, contentOf. intros Hkind Hcontent Hpatched Happly Hrevert.
  destruct (fs.lstat cwd filePath m0) as [r m0'] eqn:Hstat. simpl in Hkind. subst r.
  apply lstat_inv in Hstat as (_ & Hfile & c0 & Hlive).
  rewrite (readFile_file cwd _ _ _ Hlive Hfile) in Hcontent. simplify_eq/=.
  set (kF := locate cwd filePath) in *.
  set (kP := recordKey cwd filePath (basename filePath +:+ ".patched")).
  set (kB := recordKey cwd filePath (basename filePath +:+ ".original.backup")).
  assert (HkF : kF ≠ []) by (by intros E; rewrite E in Hlive).
  assert (HFP : kF ≠ kP) by (by apply live_ne_field).
  assert (HFB : kF ≠ kB) by (by apply live_ne_field).
  apply applyPatch_inv in Happly
    as (orig & result & mA & mB & _ & HwA & HcB & Hun & ->).
  (* the patched result is written at its own key *)
  apply writeFile_inv in HwA as (k & f & Hc & Hf & ->).
  assert (k = kP) as ->.
  { unfold fs.max_symlinks in Hc. simpl in Hc.
    rewrite locate_patched, dirlike_patched in Hc by done. fold kP in Hc.
    destruct (fs.get m0 kP) as [[c|t|w]|] eqn:Hget; simplify_eq; try done.
    destruct Hpatched.
    by erewrite lstat_link; [| rewrite locate_patched | apply dirlike_patched]. }
  (* the backup receives the live content *)
  apply copyFile_inv in HcB as (c & Hr & Hw).
  rewrite (readFile_file cwd _ _ content) in Hr;
    [|by rewrite get_insert_ne|done].
  simplify_eq.
  apply writeFile_inv in Hw as (kb & fb & Hcb & Hfb & ->).
  apply (chase_insert_final _ _ _ _ _ _ c) in Hcb; [|done].
  set (mB := <[kb:=File c]> (<[kP:=File result]> m0)) in *.
  (* revert *)
  revert Hrevert. rewrite revertPatch_eq. run_promise. intros H.
  destruct (fs.access cwd _ _) as [[[]|e] mx] eqn:Hacc; [|done].
  apply access_inv in Hacc as ->.
  erewrite lstat_link in H; [|by apply get_insert_eq|done].
  cbn [isSymbolicLink] in H.
  erewrite unlink_ok in H; [|by apply get_insert_eq|done|done|].
  2:{ rewrite get_insert_ne by (by apply not_eq_sym, parent_ne).
      rewrite get_delete_ne by (by apply not_eq_sym, parent_ne).
      by apply unlink_inv in Hun as (_ & _ & _ & ?). }
  fold kF in H. rewrite delete_insert_eq, delete_delete_eq in H.
  destruct (fs.copyFile cwd _ _ _) as [[[]|e] mF] eqn:Hcp; [|done].
  apply copyFile_inv in Hcp as (c' & Hr' & Hw').
  apply readFile_inv in Hr' as (_ & k' & Hc').
  apply chase_delete_regular in Hc'. rewrite Hcb in Hc'. simplify_eq.
  apply writeFile_inv in Hw' as (k & f' & Hck & _ & ->).
  rewrite (chase_here _ _ _ _ Missing) in Hck;
    [|by apply get_delete_eq|by left].
  simplify_eq.
  set (m2 := (fs.unlink cwd (patchedPath filePath) _).2).
  assert (Hfinal : fs.get m2 kF = Some (File c')).
  { subst m2.
    destruct (unlink_state cwd (backupPath filePath)
                (<[locate cwd filePath:=File c']> (delete kF mB))) as [->| ->];
    match goal with
    | |- context [fs.unlink cwd ?p ?m] =>
        destruct (unlink_state cwd p m) as [->| ->]
    end;
    rewrite ?locate_backup, ?locate_patched by done; fold kP kB;
    rewrite ?get_delete_ne by done; by apply get_insert_eq. }
  split.
  - by erewrite lstat_file.
  - by erewrite readFile_file.
Qed.

End ApplyRevert.

(** * The claims *)

Section Claims.

Import Path PathFacts.

Variable cwd : list string.
Context {patch : Type}.
Variable diffCreate : string → string → string → string → string → string.
Variable parsePatch : string → bool → result (list patch).
Variable diffApply : string → option patch → nat → result (option string).

Local Abbreviation wd := (normalizeSegs false cwd).
Local Abbreviation applyPatch' :=
  (applyPatch Ex.cwd RefDiff.parsePatch RefDiff.diffApply).
Local Abbreviation commitPatch' := (commitPatch Ex.cwd RefDiff.diffCreate).

(** C1. The round trip, at a file below the working directory: [create],
    the edit of the snapshot, [commit] and [apply] all return and the live
    file is unchanged until [apply], yet reading the live path then fails:
    the link holds the path of the patched result relative to the working
    directory and is read from the directory of the link. *)
Theorem round_trip_fails_below_working_directory :
  (createPatch Ex.cwd "src/a.txt" Ex.world).1 = Ok tt
  ∧ (fs.writeFile Ex.cwd (snapshotPath "src/a.txt") "hello world"
       (Ex.created "src/a.txt")).1 = Ok tt
  ∧ (commitPatch' "src/a.txt" (Ex.edited "src/a.txt")).1 = Ok tt
  ∧ contentOf Ex.cwd "src/a.txt" (Ex.committed "src/a.txt") = Ok "hello"
  ∧ (applyPatch' "src/a.txt" (Ex.committed "src/a.txt")).1 = Ok tt
  ∧ contentOf Ex.cwd "src/a.txt" (Ex.applied "src/a.txt")
    = Throw (SystemError ENOENT).
Proof. repeat split; vm_compute; reflexivity. Qed.

(** X18. Round trip in the working directory: from the Untracked state,
    for a regular file lying directly in a writable working directory and
    texts on which the library's patch gives back the edit, [create], the
    edit of the snapshot, [commit] and [apply] all return; the live path is
    then a link resolving to the edit and the backup holds the earlier
    content. *)
Theorem round_trip_in_working_directory filePath m content edit :
  Forall is_name cwd →
  untracked cwd m →
  fs.get m wd = Some (Dir true) →
  kindOf cwd filePath m = Ok StatFile →
  contentOf cwd filePath m = Ok content →
  fs.parent (locate cwd filePath) = wd →
  first_patch
    (parsePatch (diffCreate (basename filePath) content edit "original" "modified")
       false)
  ≫= (λ p, diffApply content p 3) = Ok (Some edit) →
  ∃ m1 m2 m3 m4,
    createPatch cwd filePath m = (Ok tt, m1)
    ∧ fs.writeFile cwd (snapshotPath filePath) edit m1 = (Ok tt, m2)
    ∧ commitPatch cwd diffCreate filePath m2 = (Ok tt, m3)
    ∧ contentOf cwd filePath m3 = Ok content
    ∧ applyPatch cwd parsePatch diffApply filePath m3 = (Ok tt, m4)
    ∧ kindOf cwd filePath m4 = Ok StatSymbolicLink
    ∧ contentOf cwd filePath m4 = Ok edit
    ∧ contentOf cwd (backupPath filePath) m4 = Ok content.
Proof.
  intros Hcwd Hun Hwd Hkind Hcontent Hdir Hlib.
  unfold kindOf in Hkind.
  destruct (fs.lstat cwd filePath m) as [r m'] eqn:Hstat. simpl in Hkind. subst r.
  apply lstat_inv in Hstat as (_ & Hfile & c & HF).
  unfold contentOf in Hcontent.
  rewrite (readFile_file cwd _ _ _ HF Hfile) in Hcontent. simplify_eq/=.
  set (n := basename filePath) in *.
  set (kF := locate cwd filePath) in *.
  set (field := recordKey cwd filePath).
  set (kTop := wd ++ ["patches"]).
  set (kDir := wd ++ ["patches"; n]).
  assert (HkF : kF = wd ++ [n]).
  { destruct (locate_not_dirlike cwd filePath Hfile) as [d Hd].
    fold kF n in Hd. rewrite Hd, parent_snoc in Hdir. by rewrite Hd, Hdir. }
  assert (HFfield : ∀ x, field x ≠ kF).
  { intros x E. rewrite HkF in E. apply (f_equal length) in E.
    unfold field, recordKey in E.
    rewrite !length_app in E. simpl in E. lia. }
  assert (HFdir : kDir ≠ kF).
  { intros E. rewrite HkF in E. apply (f_equal length) in E.
    unfold kDir in E. rewrite !length_app in E. simpl in E. lia. }
  assert (HFtop : kTop ≠ kF).
  { intros E. pose proof (untracked_get cwd m [] Hun) as H0.
    change (fs.get m kTop = None) in H0. rewrite E in H0. congruence. }
  assert (Hwdfield : ∀ x, field x ≠ wd).
  { intros x E. apply (f_equal length) in E. unfold field, recordKey in E.
    rewrite !length_app in E. simpl in E. lia. }
  assert (Hwddir : kDir ≠ wd).
  { intros E. apply (f_equal length) in E. unfold kDir in E.
    rewrite !length_app in E. simpl in E. lia. }
  assert (Hwdtop : kTop ≠ wd).
  { intros E. apply (f_equal length) in E. unfold kTop in E.
    rewrite !length_app in E. simpl in E. lia. }
  assert (HwdF : kF ≠ wd).
  { rewrite HkF. intros E. apply (f_equal length) in E.
    rewrite !length_app in E. simpl in E. lia. }
  assert (Hfield_ne : ∀ x, field x ≠ []) by (intros x; apply recordKey_nonempty).
  assert (Hdir_ne : ∀ x, kDir ≠ field x) by (intros x; by apply dir_ne_field).
  assert (Htop_ne : ∀ x, kTop ≠ field x) by (intros x; by apply top_ne_field).
  assert (Hfree0 : ∀ x, free m (field x)).
  { intros x. apply (untracked_free cwd m [n; x] Hun). }
  eexists _, _, _, _.
  (* create *)
  split; [by apply createPatch_forward|].
  fold n field kTop kDir.
  set (m1 := <[field "original-path.txt":=_]> _).
  assert (H1free : ∀ x, free m1 (field x)).
  { intros x. apply free_insert_file; [done|]. apply free_insert_file; [done|].
    apply free_insert_ne; [done|]. by apply free_insert_ne. }
  assert (H1dir : fs.get m1 kDir = Some (Dir true)).
  { unfold m1. rewrite !get_insert_ne by (by apply not_eq_sym).
    apply get_insert_eq. unfold kDir. by destruct wd. }
  assert (H1F : fs.get m1 kF = Some (File content)).
  { unfold m1. by rewrite !get_insert_ne. }
  assert (H1wd : fs.get m1 wd = Some (Dir true)).
  { unfold m1. by rewrite !get_insert_ne. }
  (* edit *)
  split.
  { rewrite writeFile_free;
      [reflexivity|rewrite locate_snapshot by done; apply H1free
      |by apply dirlike_snapshot
      |by rewrite locate_snapshot, recordKey_parent by done]. }
  rewrite locate_snapshot by done. fold n field.
  set (m2 := <[field n:=File edit]> m1).
  (* commit *)
  split.
  { apply commitPatch_forward; [done| | | |].
    - unfold m2. by rewrite get_insert_ne.
    - by apply get_insert_eq.
    - by apply free_insert_file.
    - unfold m2. by rewrite get_insert_ne by (by apply not_eq_sym). }
  fold n field.
  set (text := diffCreate n content edit "original" "modified") in *.
  set (m3 := delete (field n) _).
  assert (H3F : fs.get m3 kF = Some (File content)).
  { unfold m3, m2. by rewrite get_delete_ne, !get_insert_ne. }
  split; [by unfold contentOf; erewrite readFile_file|].
  (* apply *)
  split.
  { apply (applyPatch_forward cwd parsePatch diffApply filePath Hfile m3 content
             text edit);
      [done| | |done| | |].
    - fold kF. rewrite Hdir. unfold m3, m2. by rewrite get_delete_ne, !get_insert_ne.
    - unfold m3. rewrite get_delete_ne by (by apply snapshot_ne_field).
      by apply get_insert_eq.
    - apply free_delete. do 2 (apply free_insert_file; [done|]). done.
    - apply free_delete. do 2 (apply free_insert_file; [done|]). done.
    - change (wd ++ ["patches"; basename filePath]) with kDir. unfold m3, m2.
      rewrite get_delete_ne, !get_insert_ne by (by apply not_eq_sym).
      apply get_insert_eq. unfold kDir. by destruct wd. }
  fold n field kF.
  set (m4 := <[kF:=_]> _).
  assert (HkFne : kF ≠ []) by (rewrite HkF; by destruct wd).
  assert (H4F : fs.get m4 kF = Some (Symlink (patchedPath filePath)))
    by by apply get_insert_eq.
  assert (H4P : fs.get m4 (field (n +:+ ".patched")) = Some (File edit)).
  { unfold m4. rewrite get_insert_ne, get_delete_ne by (by apply not_eq_sym).
    rewrite get_insert_ne by (by apply field_ne). by apply get_insert_eq. }
  assert (H4B : fs.get m4 (field (n +:+ ".original.backup")) = Some (File content)).
  { unfold m4. rewrite get_insert_ne, get_delete_ne by (by apply not_eq_sym).
    by apply get_insert_eq. }
  split; [by unfold kindOf; erewrite lstat_link|].
  split.
  - unfold contentOf. erewrite readFile_link; [done|exact H4F|done| |].
    + fold kF. rewrite Hdir. unfold patchedPath.
      rewrite field_path
        by (by apply basename_proper
            || (apply ext_proper; [done|reflexivity|simpl; lia])).
      rewrite locate_join_slash, normalizeSegs_idem; [exact H4P|].
      apply Forall_cons_2; [apply proper_patches|].
      apply Forall_cons_2; [by apply basename_proper|].
      apply Forall_cons_2; [|apply Forall_nil_2].
      apply ext_proper; [done|reflexivity|simpl; lia].
    + by apply dirlike_patched.
  - unfold contentOf. erewrite readFile_file; [done| |by apply dirlike_backup].
    by rewrite locate_backup.
Qed.

(** C2. Apply-conflict atomicity: when the patch file is there, both reads
    succeed and the library reports that the first parsed patch does not
    apply to the live content, [applyPatch] throws its conflict error and
    returns the file system it was given: nothing is written. *)
Theorem apply_conflict_atomic filePath m originalContent patchContent patches :
  fs.access cwd (patchPath filePath) m = (Ok tt, m) →
  fs.readFile cwd filePath m = (Ok originalContent, m) →
  fs.readFile cwd (patchPath filePath) m = (Ok patchContent, m) →
  parsePatch patchContent false = Ok patches →
  diffApply originalContent (head patches) 3 = Ok None →
  applyPatch cwd parsePatch diffApply filePath m
  = (Throw (Error "Failed to apply patch"), m).
Proof.
  intros Hacc Horig Hpatch Hparse Happly.
  rewrite applyPatch_eq. run_promise.
  rewrite Hacc, Horig, Hpatch, Hparse, Happly. reflexivity.
Qed.

(** C3. Revert no-op: when the live path is not a symbolic link,
    [revertPatch] leaves the file system as it is; it returns when the backup
    can be accessed, and its only failure is that of the backup check. *)
Theorem revert_noop filePath m stats :
  fs.lstat cwd filePath m = (Ok stats, m) →
  isSymbolicLink stats = false →
  (revertPatch cwd filePath m).2 = m
  ∧ (fs.access cwd (backupPath filePath) m = (Ok tt, m) →
     revertPatch cwd filePath m = (Ok tt, m))
  ∧ (∀ e, (revertPatch cwd filePath m).1 = Throw e →
          fs.access cwd (backupPath filePath) m = (Throw e, m)).
Proof.
  intros Hstat Hlink. rewrite revertPatch_eq. run_promise.
  pose proof (access_state cwd (backupPath filePath) m) as Hm.
  destruct (fs.access cwd (backupPath filePath) m) as [[[]|e] m'];
    simpl in Hm; subst m'.
  - rewrite Hstat, Hlink. simpl. split; [reflexivity|]. split; [reflexivity|].
    intros e He. discriminate He.
  - simpl. split; [reflexivity|]. split; [intros H; discriminate H|].
    intros e' He. congruence.
Qed.

(** C4. Revert restores exact bytes: when the live path is a regular file
    before [applyPatch] and the patched-result path is not a symbolic link,
    an [applyPatch] that returns followed at once by a [revertPatch] that
    returns leaves the live path a regular file holding the content it had
    before the apply. *)
Theorem revert_restores_bytes filePath m0 m1 m2 content :
  kindOf cwd filePath m0 = Ok StatFile →
  contentOf cwd filePath m0 = Ok content →
  kindOf cwd (patchedPath filePath) m0 ≠ Ok StatSymbolicLink →
  applyPatch cwd parsePatch diffApply filePath m0 = (Ok tt, m1) →
  revertPatch cwd filePath m1 = (Ok tt, m2) →
  kindOf cwd filePath m2 = Ok StatFile ∧ contentOf cwd filePath m2 = Ok content.
Proof. apply apply_revert_restores. Qed.

(** The same along the lifecycle: in every state the commands lead to from
    the Untracked state, the patched-result path is free or a regular file,
    so that nothing more is asked of the record. *)
Theorem revert_restores_bytes_in_lifecycle filePath m cs m1 m2 content :
  untracked cwd m →
  let m0 := (run cwd diffCreate parsePatch diffApply filePath cs (Plain, m)).2 in
  kindOf cwd filePath m0 = Ok StatFile →
  contentOf cwd filePath m0 = Ok content →
  applyPatch cwd parsePatch diffApply filePath m0 = (Ok tt, m1) →
  revertPatch cwd filePath m1 = (Ok tt, m2) →
  kindOf cwd filePath m2 = Ok StatFile ∧ contentOf cwd filePath m2 = Ok content.
Proof.
  intros Hun m0 Hkind Hcontent Happly Hrevert.
  apply (apply_revert_restores cwd parsePatch diffApply filePath m0 m1 m2);
    [done|done| |done|done].
  assert (Hfile : dirlike filePath = false).
  { unfold kindOf in Hkind.
    destruct (fs.lstat cwd filePath m0) as [r m'] eqn:Hstat. simpl in Hkind.
    subst r. by apply lstat_inv in Hstat as (_ & ? & _). }
  assert (Hfree : free m0 (locate cwd (patchedPath filePath))).
  { subst m0. rewrite locate_patched by done. apply run_free_to; [done| | |].
    - unfold recordKey. rewrite length_app. simpl. lia.
    - by apply live_ne_field.
    - apply (untracked_free cwd m
               [basename filePath; basename filePath +:+ ".patched"] Hun). }
  unfold kindOf, fs.lstat.
  destruct Hfree as [->|[c ->]]; [done|].
  by rewrite dirlike_patched.
Qed.

(** C5. Symlink type invariant: start where the live path is a regular
    file that is not its own snapshot and the backup path is free or a
    regular file; after any sequence of commands, [lstat] of the live path
    reports a symbolic link when the last [apply] or [revert] that returned
    was an [apply], and a regular file otherwise. *)
Theorem symlink_invariant filePath m0 cs :
  kindOf cwd filePath m0 = Ok StatFile →
  locate cwd filePath ≠ locate cwd (snapshotPath filePath) →
  kindOf cwd (backupPath filePath) m0 = Ok StatFile
  ∨ kindOf cwd (backupPath filePath) m0 = Throw (SystemError ENOENT) →
  let st := run cwd diffCreate parsePatch diffApply filePath cs (Plain, m0) in
  kindOf cwd filePath st.2 = Ok (live_kind st.1).
Proof.
  intros Hkind Hsnap Hbackup st. unfold kindOf in Hkind, Hbackup.
  destruct (fs.lstat cwd filePath m0) as [r m'] eqn:Hstat. simpl in Hkind. subst r.
  apply lstat_inv in Hstat as (_ & Hfile & c & Hlive).
  subst st. apply lifecycle_inv_kind; [exact Hfile|].
  apply run_inv; [exact Hfile|exact Hsnap|].
  split; [done|]. simpl. split; [eauto|].
  unfold fs.lstat in Hbackup. unfold free.
  destruct (fs.get m0 (locate cwd (backupPath filePath))) as [[c'|t|w]|];
    [right; eauto| | |by left];
    rewrite ?dirlike_backup in Hbackup by done; by destruct Hbackup.
Qed.

(** The same from the Untracked state, where the two conditions on the
    record hold of themselves. *)
Theorem symlink_invariant_from_untracked filePath m cs :
  untracked cwd m →
  kindOf cwd filePath m = Ok StatFile →
  let st := run cwd diffCreate parsePatch diffApply filePath cs (Plain, m) in
  kindOf cwd filePath st.2 = Ok (live_kind st.1).
Proof.
  intros Hun Hkind st. unfold kindOf in Hkind.
  destruct (fs.lstat cwd filePath m) as [r m'] eqn:Hstat. simpl in Hkind. subst r.
  apply lstat_inv in Hstat as (_ & Hfile & c & Hlive).
  subst st. apply lifecycle_inv_kind; [exact Hfile|].
  apply run_inv; [exact Hfile| |].
  - rewrite locate_snapshot by done. intros E. rewrite E in Hlive.
    unfold recordKey in Hlive.
    by rewrite (untracked_get cwd m [basename filePath; basename filePath] Hun)
      in Hlive.
  - split; [done|]. simpl. split; [eauto|].
    rewrite locate_backup by done.
    apply (untracked_free cwd m
             [basename filePath; basename filePath +:+ ".original.backup"] Hun).
Qed.

(** C6. The apply precondition, at a file that is already applied: the
    live path is a symbolic link and the backup holds the original text; a
    second [applyPatch] returns all the same, patching the patched text, and
    the backup then holds that text instead of the original. *)
Theorem apply_proceeds_on_applied_file :
  kindOf Ex.cwd "a.txt" (Ex.applied "a.txt") = Ok StatSymbolicLink
  ∧ contentOf Ex.cwd (backupPath "a.txt") (Ex.applied "a.txt") = Ok "hello"
  ∧ (applyPatch' "a.txt" (Ex.applied "a.txt")).1 = Ok tt
  ∧ contentOf Ex.cwd (backupPath "a.txt")
      (applyPatch' "a.txt" (Ex.applied "a.txt")).2
    = Ok "hello world world".
Proof. repeat split; vm_compute; reflexivity. Qed.

(** C7. Commit diff orientation and labels: after a [commitPatch] that
    returned, on a record whose patch path was not a symbolic link, the patch
    file reads as the library's diff of the live content (first) and the
    snapshot content (second), labelled with the base name and the headers
    "original" and "modified". *)
Theorem commit_writes_diff filePath m m' :
  commitPatch cwd diffCreate filePath m = (Ok tt, m') →
  kindOf cwd (patchPath filePath) m ≠ Ok StatSymbolicLink →
  ∃ originalContent modifiedContent,
    contentOf cwd filePath m = Ok originalContent
    ∧ contentOf cwd (snapshotPath filePath) m = Ok modifiedContent
    ∧ contentOf cwd (patchPath filePath) m'
      = Ok (diffCreate (basename filePath) originalContent modifiedContent
              "original" "modified").
Proof.
  rewrite commitPatch_eq. run_promise. intros H Hkind.
  destruct (fs.readFile cwd filePath m) as [[orig|e] m1] eqn:Horig; [|done].
  pose proof (readFile_not_dirlike _ _ _ _ _ Horig) as Hfile.
  apply readFile_inv in Horig as Horig'. destruct Horig' as [-> _].
  destruct (fs.readFile cwd (snapshotPath filePath) m) as [[modi|e] m1] eqn:Hmodi;
    [|done].
  apply readFile_inv in Hmodi as Hmodi'. destruct Hmodi' as [-> _].
  destruct (fs.writeFile cwd (patchPath filePath) _ m) as [[[]|e] m1] eqn:Hw;
    [|done].
  injection H as <-.
  exists orig, modi. unfold contentOf. rewrite Horig, Hmodi.
  split; [done|]. split; [done|].
  apply writeFile_inv in Hw as (k & f & Hc & Hf & ->).
  set (kp := recordKey cwd filePath (basename filePath +:+ ".patch")).
  assert (Hk : k = kp).
  { unfold fs.max_symlinks in Hc. simpl in Hc.
    rewrite locate_patch in Hc by done. fold kp in Hc.
    rewrite dirlike_patch in Hc by done.
    destruct (fs.get m kp) as [[c|t|w]|] eqn:Hget; simplify_eq; try done.
    destruct Hkind. unfold kindOf.
    by rewrite (lstat_link cwd _ _ t); [|rewrite locate_patch|apply dirlike_patch]. }
  subst k.
  set (text := diffCreate _ _ _ _ _).
  assert (Hread : ∀ m2 : FS, fs.get m2 kp = Some (File text) →
                  (fs.readFile cwd (patchPath filePath) m2).1 = Ok text).
  { intros m2 Hm2. erewrite readFile_file; [done| |by apply dirlike_patch].
    by rewrite locate_patch. }
  apply Hread.
  assert (Hkp : kp ≠ []) by (apply recordKey_nonempty).
  destruct (unlink_state cwd (snapshotPath filePath) (<[kp:=File text]> m))
    as [->| ->].
  - by apply get_insert_eq.
  - rewrite locate_snapshot by done.
    rewrite get_delete_ne by (by apply snapshot_ne_field).
    by apply get_insert_eq.
Qed.

(** C8. The symlink target, at a file below the working directory: after
    an [applyPatch] that returned, the link at the live path holds the text
    [patches/a.txt/a.txt.patched]; read from the directory of the link it
    names a path under [src], not the patched result of the record, which
    holds the patched text; the live path resolves to nothing. *)
Theorem link_dangles_below_working_directory :
  (applyPatch' "src/a.txt" (Ex.committed "src/a.txt")).1 = Ok tt
  ∧ fs.get (Ex.applied "src/a.txt") (locate Ex.cwd "src/a.txt")
    = Some (Symlink "patches/a.txt/a.txt.patched")
  ∧ locate (fs.parent (locate Ex.cwd "src/a.txt")) "patches/a.txt/a.txt.patched"
    = ["home"; "u"; "src"; "patches"; "a.txt"; "a.txt.patched"]
  ∧ locate Ex.cwd (patchedPath "src/a.txt")
    = ["home"; "u"; "patches"; "a.txt"; "a.txt.patched"]
  ∧ contentOf Ex.cwd (patchedPath "src/a.txt") (Ex.applied "src/a.txt")
    = Ok "hello world"
  ∧ (fs.access Ex.cwd "src/a.txt" (Ex.applied "src/a.txt")).1
    = Throw (SystemError ENOENT).
Proof. repeat split; vm_compute; reflexivity. Qed.

(** C9. Best-effort cleanup: once the steps before the cleanup have
    returned, [commitPatch] and [revertPatch] return, whatever the deletes
    at their end do; the state is the one those deletes leave. *)
Theorem cleanup_is_best_effort filePath :
  (∀ m originalContent modifiedContent m1,
     fs.readFile cwd filePath m = (Ok originalContent, m) →
     fs.readFile cwd (snapshotPath filePath) m = (Ok modifiedContent, m) →
     fs.writeFile cwd (patchPath filePath)
       (diffCreate (basename filePath) originalContent modifiedContent
          "original" "modified") m = (Ok tt, m1) →
     commitPatch cwd diffCreate filePath m
     = (Ok tt, (fs.unlink cwd (snapshotPath filePath) m1).2))
  ∧ (∀ m m1 m2,
     fs.access cwd (backupPath filePath) m = (Ok tt, m) →
     fs.lstat cwd filePath m = (Ok StatSymbolicLink, m) →
     fs.unlink cwd filePath m = (Ok tt, m1) →
     fs.copyFile cwd (backupPath filePath) filePath m1 = (Ok tt, m2) →
     revertPatch cwd filePath m
     = (Ok tt, (fs.unlink cwd (patchedPath filePath)
                  (fs.unlink cwd (backupPath filePath) m2).2).2)).
Proof.
  split.
  - intros m orig modi m1 Horig Hmodi Hw.
    rewrite commitPatch_eq. run_promise. by rewrite Horig, Hmodi, Hw.
  - intros m m1 m2 Hacc Hstat Hun Hcp.
    rewrite revertPatch_eq. run_promise.
    rewrite Hacc, Hstat. simpl. by rewrite Hun, Hcp.
Qed.


End Claims.

(** * The claims on the example worlds *)

Section Examples.

Import Path.

Local Abbreviation applyPatch' :=
  (applyPatch Ex.cwd RefDiff.parsePatch RefDiff.diffApply).
Local Abbreviation commitPatch' := (commitPatch Ex.cwd RefDiff.diffCreate).

(** The scenario of the specification: [a.txt] becomes a link resolving to
    the edit, the backup holds the old text, and [revert] restores it. *)
Example scenario_ex :
  kindOf Ex.cwd "a.txt" (Ex.applied "a.txt") = Ok StatSymbolicLink
  ∧ contentOf Ex.cwd "a.txt" (Ex.applied "a.txt") = Ok "hello world"
  ∧ contentOf Ex.cwd (backupPath "a.txt") (Ex.applied "a.txt") = Ok "hello"
  ∧ kindOf Ex.cwd "a.txt" (revertPatch Ex.cwd "a.txt" (Ex.applied "a.txt")).2
    = Ok StatFile
  ∧ contentOf Ex.cwd "a.txt" (revertPatch Ex.cwd "a.txt" (Ex.applied "a.txt")).2
    = Ok "hello".
Proof. repeat split; vm_compute; reflexivity. Qed.

Lemma world_untracked : untracked Ex.cwd Ex.world.
Proof.
  intros l. unfold Ex.world. cbn [list_to_map foldr curry fst snd].
  change (normalizeSegs false Ex.cwd) with ["home"; "u"].
  cbn [app]. by rewrite !lookup_insert_ne, lookup_empty.
Qed.

Lemma round_trip_in_working_directory_witness :
  ∃ m1 m2 m3 m4,
    createPatch Ex.cwd "a.txt" Ex.world = (Ok tt, m1)
    ∧ fs.writeFile Ex.cwd (snapshotPath "a.txt") "hello world" m1 = (Ok tt, m2)
    ∧ commitPatch' "a.txt" m2 = (Ok tt, m3)
    ∧ contentOf Ex.cwd "a.txt" m3 = Ok "hello"
    ∧ applyPatch' "a.txt" m3 = (Ok tt, m4)
    ∧ kindOf Ex.cwd "a.txt" m4 = Ok StatSymbolicLink
    ∧ contentOf Ex.cwd "a.txt" m4 = Ok "hello world"
    ∧ contentOf Ex.cwd (backupPath "a.txt") m4 = Ok "hello".
Proof.
  apply (round_trip_in_working_directory Ex.cwd RefDiff.diffCreate
           RefDiff.parsePatch RefDiff.diffApply "a.txt" Ex.world).
  - repeat constructor; done.
  - apply world_untracked.
  - vm_compute. reflexivity.
  - vm_compute. reflexivity.
  - vm_compute. reflexivity.
  - vm_compute. reflexivity.
  - vm_compute. reflexivity.
Defined.

Lemma apply_conflict_atomic_witness :
  applyPatch' "a.txt" Ex.diverged
  = (Throw (Error "Failed to apply patch"), Ex.diverged).
Proof.
  apply (apply_conflict_atomic Ex.cwd RefDiff.parsePatch RefDiff.diffApply
           "a.txt" Ex.diverged "goodbye" "@@@@@||hello world"
           [RefDiff.Hunk "hello" "" " world"]).
  - apply access_ok. vm_compute. reflexivity.
  - apply readFile_ok. vm_compute. reflexivity.
  - apply readFile_ok. vm_compute. reflexivity.
  - vm_compute. reflexivity.
  - vm_compute. reflexivity.
Defined.

Lemma revert_noop_witness :
  (revertPatch Ex.cwd "a.txt" Ex.world).2 = Ex.world
  ∧ (fs.access Ex.cwd (backupPath "a.txt") Ex.world = (Ok tt, Ex.world) →
     revertPatch Ex.cwd "a.txt" Ex.world = (Ok tt, Ex.world))
  ∧ (∀ e, (revertPatch Ex.cwd "a.txt" Ex.world).1 = Throw e →
          fs.access Ex.cwd (backupPath "a.txt") Ex.world = (Throw e, Ex.world)).
Proof.
  apply (revert_noop Ex.cwd "a.txt" Ex.world StatFile).
  - apply lstat_ok. vm_compute. reflexivity.
  - reflexivity.
Defined.

(** A file that was committed but never applied has no backup: [revert]
    throws the error of the backup check and changes nothing; with a backup
    left behind it returns. *)
Example revert_never_applied_ex :
  (revertPatch Ex.cwd "a.txt" (Ex.committed "a.txt")).1
  = Throw (SystemError ENOENT)
  ∧ (revertPatch Ex.cwd "a.txt"
       (<[ ["home"; "u"; "patches"; "a.txt"; "a.txt.original.backup"] := File "old" ]>
          (Ex.committed "a.txt"))).1
    = Ok tt.
Proof. split; vm_compute; reflexivity. Qed.

Lemma revert_restores_bytes_witness :
  kindOf Ex.cwd "a.txt" (revertPatch Ex.cwd "a.txt" (Ex.applied "a.txt")).2
  = Ok StatFile
  ∧ contentOf Ex.cwd "a.txt" (revertPatch Ex.cwd "a.txt" (Ex.applied "a.txt")).2
    = Ok "hello".
Proof.
  apply (revert_restores_bytes Ex.cwd RefDiff.parsePatch RefDiff.diffApply
           "a.txt" (Ex.committed "a.txt") (Ex.applied "a.txt")).
  - vm_compute. reflexivity.
  - vm_compute. reflexivity.
  - vm_compute. discriminate.
  - apply pair_ok. vm_compute. reflexivity.
  - apply pair_ok. vm_compute. reflexivity.
Defined.

Lemma symlink_invariant_witness :
  kindOf Ex.cwd "a.txt"
    (Ex.session "a.txt" [Create; Edit "hello world"; Commit; Apply; Revert; Apply]
       Ex.world).2
  = Ok (live_kind
          (Ex.session "a.txt" [Create; Edit "hello world"; Commit; Apply; Revert; Apply]
             Ex.world).1)
  ∧ (Ex.session "a.txt" [Create; Edit "hello world"; Commit; Apply; Revert; Apply]
       Ex.world).1 = Applied.
Proof.
  split; [|vm_compute; reflexivity].
  apply (symlink_invariant Ex.cwd RefDiff.diffCreate RefDiff.parsePatch
           RefDiff.diffApply "a.txt" Ex.world
           [Create; Edit "hello world"; Commit; Apply; Revert; Apply]).
  - vm_compute. reflexivity.
  - vm_compute. discriminate.
  - right. vm_compute. reflexivity.
Defined.

Lemma commit_writes_diff_witness :
  ∃ originalContent modifiedContent,
    contentOf Ex.cwd "a.txt" (Ex.edited "a.txt") = Ok originalContent
    ∧ contentOf Ex.cwd (snapshotPath "a.txt") (Ex.edited "a.txt")
      = Ok modifiedContent
    ∧ contentOf Ex.cwd (patchPath "a.txt") (Ex.committed "a.txt")
      = Ok (RefDiff.diffCreate (basename "a.txt") originalContent modifiedContent
              "original" "modified").
Proof.
  apply (commit_writes_diff Ex.cwd RefDiff.diffCreate "a.txt").
  - apply pair_ok. vm_compute. reflexivity.
  - vm_compute. discriminate.
Defined.

Lemma cleanup_is_best_effort_witness :
  (fs.unlink Ex.cwd (snapshotPath "a.txt")
     (fs.writeFile Ex.cwd (patchPath "a.txt")
        (RefDiff.diffCreate (basename "a.txt") "hello" "hello there"
           "original" "modified")
        Ex.readonly).2).1
  = Throw (SystemError EACCES)
  ∧ (commitPatch' "a.txt" Ex.readonly).1 = Ok tt
  ∧ (fs.unlink Ex.cwd (patchedPath "a.txt")
       (fs.unlink Ex.cwd (backupPath "a.txt")
          (fs.copyFile Ex.cwd (backupPath "a.txt") "a.txt"
             (fs.unlink Ex.cwd "a.txt" Ex.unpatched).2).2).2).1
    = Throw (SystemError ENOENT)
  ∧ (revertPatch Ex.cwd "a.txt" Ex.unpatched).1 = Ok tt.
Proof.
  split; [vm_compute; reflexivity|]. split.
  - rewrite (proj1 (cleanup_is_best_effort Ex.cwd RefDiff.diffCreate "a.txt")
               Ex.readonly "hello" "hello there"
               (fs.writeFile Ex.cwd (patchPath "a.txt")
                  (RefDiff.diffCreate (basename "a.txt") "hello" "hello there"
                     "original" "modified") Ex.readonly).2).
    + reflexivity.
    + apply readFile_ok. vm_compute. reflexivity.
    + apply readFile_ok. vm_compute. reflexivity.
    + apply pair_ok. vm_compute. reflexivity.
  - split; [vm_compute; reflexivity|].
    rewrite (proj2 (cleanup_is_best_effort Ex.cwd RefDiff.diffCreate "a.txt")
               Ex.unpatched (fs.unlink Ex.cwd "a.txt" Ex.unpatched).2
               (fs.copyFile Ex.cwd (backupPath "a.txt") "a.txt"
                  (fs.unlink Ex.cwd "a.txt" Ex.unpatched).2).2).
    + reflexivity.
    + apply access_ok. vm_compute. reflexivity.
    + apply lstat_ok. vm_compute. reflexivity.
    + apply pair_ok. vm_compute. reflexivity.
    + apply pair_ok. vm_compute. reflexivity.
Defined.


(** Why the theorems ask what they ask of the record.  A live file that is
    its own snapshot is deleted by the cleanup of [commit]. *)
Example own_snapshot_ex :
  (createPatch Ex.cwd "patches/a/a" Ex.nested).1 = Ok tt
  ∧ (commitPatch' "patches/a/a" (createPatch Ex.cwd "patches/a/a" Ex.nested).2).1
    = Ok tt
  ∧ kindOf Ex.cwd "patches/a/a"
      (commitPatch' "patches/a/a" (createPatch Ex.cwd "patches/a/a" Ex.nested).2).2
    = Throw (SystemError ENOENT).
Proof. repeat split; vm_compute; reflexivity. Qed.

(** A patch path that is a link to the snapshot: the diff is written into
    the snapshot, which the cleanup then deletes. *)
Example linked_patch_ex :
  (commitPatch' "a.txt" Ex.linked_patch).1 = Ok tt
  ∧ contentOf Ex.cwd (patchPath "a.txt") (commitPatch' "a.txt" Ex.linked_patch).2
    = Throw (SystemError ENOENT).
Proof. split; vm_compute; reflexivity. Qed.

(** A patched-result path that is a link to the live file: the patched text
    is written into the live file before the backup is taken. *)
Example linked_patched_ex :
  contentOf Ex.cwd "a.txt" Ex.linked_patched = Ok "hello"
  ∧ (applyPatch' "a.txt" Ex.linked_patched).1 = Ok tt
  ∧ (revertPatch Ex.cwd "a.txt" (applyPatch' "a.txt" Ex.linked_patched).2).1 = Ok tt
  ∧ contentOf Ex.cwd "a.txt"
      (revertPatch Ex.cwd "a.txt" (applyPatch' "a.txt" Ex.linked_patched).2).2
    = Ok "hello world".
Proof. repeat split; vm_compute; reflexivity. Qed.

(** A backup path that is a link to the live file: [revert] deletes the
    live link and then finds nothing to restore. *)
Example linked_backup_ex :
  (applyPatch' "a.txt" Ex.linked_backup).1 = Ok tt
  ∧ (revertPatch Ex.cwd "a.txt" (applyPatch' "a.txt" Ex.linked_backup).2).1
    = Throw (SystemError ENOENT)
  ∧ kindOf Ex.cwd "a.txt"
      (revertPatch Ex.cwd "a.txt" (applyPatch' "a.txt" Ex.linked_backup).2).2
    = Throw (SystemError ENOENT).
Proof. repeat split; vm_compute; reflexivity. Qed.

Lemma revert_restores_bytes_in_lifecycle_witness :
  kindOf Ex.cwd "a.txt"
    (revertPatch Ex.cwd "a.txt"
       (applyPatch' "a.txt"
          (Ex.session "a.txt" [Create; Edit "hello world"; Commit] Ex.world).2).2).2
  = Ok StatFile
  ∧ contentOf Ex.cwd "a.txt"
      (revertPatch Ex.cwd "a.txt"
         (applyPatch' "a.txt"
            (Ex.session "a.txt" [Create; Edit "hello world"; Commit] Ex.world).2).2).2
    = Ok "hello".
Proof.
  apply (revert_restores_bytes_in_lifecycle Ex.cwd RefDiff.diffCreate
           RefDiff.parsePatch RefDiff.diffApply "a.txt" Ex.world
           [Create; Edit "hello world"; Commit]
           (applyPatch' "a.txt"
              (Ex.session "a.txt" [Create; Edit "hello world"; Commit] Ex.world).2).2).
  - apply world_untracked.
  - vm_compute. reflexivity.
  - vm_compute. reflexivity.
  - apply pair_ok. vm_compute. reflexivity.
  - apply pair_ok. vm_compute. reflexivity.
Defined.

Lemma symlink_invariant_from_untracked_witness :
  kindOf Ex.cwd "a.txt"
    (Ex.session "a.txt" [Create; Edit "hello world"; Commit; Apply] Ex.world).2
  = Ok (live_kind
          (Ex.session "a.txt" [Create; Edit "hello world"; Commit; Apply]
             Ex.world).1).
Proof.
  apply (symlink_invariant_from_untracked Ex.cwd RefDiff.diffCreate
           RefDiff.parsePatch RefDiff.diffApply "a.txt" Ex.world
           [Create; Edit "hello world"; Commit; Apply]).
  - apply world_untracked.
  - vm_compute. reflexivity.
Defined.

End Examples.

(** * Further properties of the operations *)

Section MoreFs.

Import Path PathFacts.

Variable cwd : list string.

Lemma access_missing p m :
  fs.get m (locate cwd p) = None → dirlike p = false →
  fs.access cwd p m = (Throw (SystemError ENOENT), m).
Proof.
  intros Hget Hp. unfold fs.access.
  rewrite (chase_here _ _ _ _ Missing Hget); [done|by left].
Qed.

Lemma readFile_missing p m :
  fs.get m (locate cwd p) = None → dirlike p = false →
  fs.readFile cwd p m = (Throw (SystemError ENOENT), m).
Proof.
  intros Hget Hp. unfold fs.readFile.
  rewrite (chase_here _ _ _ _ Missing Hget); [done|by left].
Qed.

Lemma readFile_dir p m w :
  fs.get m (locate cwd p) = Some (Dir w) →
  fs.readFile cwd p m = (Throw (SystemError EISDIR), m).
Proof.
  intros Hget. unfold fs.readFile.
  rewrite (chase_here _ _ _ _ (Directory w) Hget); [done|right; eauto].
Qed.

(** What was written is what is read back. *)
Lemma writeFile_read p d m m' :
  fs.writeFile cwd p d m = (Ok tt, m') → fs.readFile cwd p m' = (Ok d, m').
Proof.
  intros (k & f & Hc & Hf & ->)%writeFile_inv.
  apply readFile_chase with k. by eapply chase_insert_final.
Qed.

Lemma lstat_missing p m :
  fs.get m (locate cwd p) = None →
  fs.lstat cwd p m = (Throw (SystemError ENOENT), m).
Proof. intros Hget. unfold fs.lstat. by rewrite Hget. Qed.

Lemma lstat_dir p m w :
  fs.get m (locate cwd p) = Some (Dir w) →
  fs.lstat cwd p m = (Ok StatDirectory, m).
Proof. intros Hget. unfold fs.lstat. by rewrite Hget. Qed.

(** A path that [lstat] does not report as a link, and to which a write
    returned, was free or a file. *)
Lemma not_link_free p m :
  dirlike p = false →
  kindOf cwd p m ≠ Ok StatSymbolicLink →
  (∀ w, fs.get m (locate cwd p) ≠ Some (Dir w)) →
  free m (locate cwd p).
Proof.
  intros Hp Hkind Hdir. unfold kindOf, fs.lstat in Hkind. unfold free.
  destruct (fs.get m (locate cwd p)) as [[c|t|w]|] eqn:Hget.
  - right. eauto.
  - by rewrite Hp in Hkind.
  - by destruct (Hdir w).
  - by left.
Qed.

(** ** Recursive [mkdir] *)

Lemma mkdirp_dir m rk w :
  fs.get m (rev rk) = Some (Dir w) → fs.mkdirp m rk = (Ok tt, m).
Proof. intros Hget. destruct rk; cbn [fs.mkdirp]; by rewrite Hget. Qed.

Lemma mkdirp_exists m rk n :
  fs.get m (rev rk) = Some n → (∀ w, n ≠ Dir w) →
  fs.mkdirp m rk = (Throw (SystemError EEXIST), m).
Proof.
  intros Hget Hn. destruct rk; cbn [fs.mkdirp]; rewrite Hget;
    destruct n as [c|t|w]; try done; by destruct (Hn w).
Qed.

(** When it returns the directory is there. *)
Lemma mkdirp_ok m rk m' :
  fs.mkdirp m rk = (Ok tt, m') → ∃ w, fs.get m' (rev rk) = Some (Dir w).
Proof.
  destruct rk as [|s rk]; [intros _; by exists true|].
  cbn [fs.mkdirp].
  destruct (fs.get m (rev (s :: rk))) as [[c|t|w]|] eqn:Hget; try done.
  - intros [= <-]. eauto.
  - destruct (fs.mkdirp m rk) as [[[]|[[]|]] m1]; try done.
    unfold fs.create.
    destruct (fs.get m1 (fs.parent (rev (s :: rk)))) as [[c|t|[]]|]; try done.
    intros [= <-]. exists true. apply get_insert_eq.
    simpl. by destruct (rev rk).
Qed.

(** It throws [EEXIST] only for an entry that is there and is no directory,
    and then changes nothing. *)
Lemma mkdirp_eexist m rk m' :
  fs.mkdirp m rk = (Throw (SystemError EEXIST), m') →
  m' = m ∧ ∃ n, fs.get m (rev rk) = Some n ∧ ∀ w, n ≠ Dir w.
Proof.
  destruct rk as [|s rk]; [done|].
  cbn [fs.mkdirp].
  destruct (fs.get m (rev (s :: rk))) as [[c|t|w]|] eqn:Hget; try done.
  - intros [= <-]. eauto.
  - intros [= <-]. eauto.
  - destruct (fs.mkdirp m rk) as [[[]|[[]|]] m1]; try done.
    unfold fs.create.
    destruct (fs.get m1 (fs.parent (rev (s :: rk)))) as [[c|t|[]]|]; done.
Qed.

(** It only ever adds directories, where nothing was. *)
Lemma mkdirp_adds m rk x :
  fs.get (fs.mkdirp m rk).2 x = fs.get m x
  ∨ fs.get m x = None ∧ fs.get (fs.mkdirp m rk).2 x = Some (Dir true).
Proof.
  revert x. induction rk as [|s rk IH]; intros x.
  - left. simpl. by destruct (fs.get m []) as [[]|].
  - cbn [fs.mkdirp].
    destruct (fs.get m (rev (s :: rk))) as [[c|t|w]|] eqn:Hget; try by left.
    destruct (fs.mkdirp m rk) as [[[]|e] m1] eqn:Hrec; simpl in IH.
    2: { destruct e as [[]|]; simpl; apply IH. }
    unfold fs.create.
    destruct (fs.get m1 (fs.parent (rev (s :: rk)))) as [[c|t|[]]|];
      simpl; try apply IH.
    destruct (decide (rev (s :: rk) = x)) as [<-|Hne].
    + right. split; [done|]. apply get_insert_eq. simpl. by destruct (rev rk).
    + rewrite get_insert_ne by done. apply IH.
Qed.

Lemma mkdir_adds p m x :
  fs.get (fs.mkdir cwd p m).2 x = fs.get m x
  ∨ fs.get m x = None ∧ fs.get (fs.mkdir cwd p m).2 x = Some (Dir true).
Proof. apply mkdirp_adds. Qed.

Lemma mkdir_ok p m m' :
  fs.mkdir cwd p m = (Ok tt, m') → ∃ w, fs.get m' (locate cwd p) = Some (Dir w).
Proof.
  unfold fs.mkdir. intros H%mkdirp_ok. by rewrite rev_involutive in H.
Qed.

Lemma mkdir_dir p m w :
  fs.get m (locate cwd p) = Some (Dir w) → fs.mkdir cwd p m = (Ok tt, m).
Proof.
  intros H. unfold fs.mkdir. apply mkdirp_dir with w. by rewrite rev_involutive.
Qed.

(** Entries that are there stay as they are. *)
Lemma mkdir_keeps p m x n :
  fs.get m x = Some n → fs.get (fs.mkdir cwd p m).2 x = Some n.
Proof.
  intros Hx. destruct (mkdir_adds p m x) as [->|[H _]]; congruence.
Qed.

End MoreFs.

Section MoreOperations.

Import Path PathFacts.

Variable cwd : list string.
Context {patch : Type}.
Variable diffCreate : string → string → string → string → string → string.
Variable parsePatch : string → bool → result (list patch).
Variable diffApply : string → option patch → nat → result (option string).

Local Abbreviation wd := (normalizeSegs false cwd).
Local Abbreviation kTop := (normalizeSegs false cwd ++ ["patches"]).

Lemma dirlike_patches : dirlike PATCHES_DIR = false.
Proof. reflexivity. Qed.

Lemma kTop_nonempty : kTop ≠ [].
Proof. by destruct wd. Qed.

Lemma kindOf_missing p m :
  dirlike p = false →
  kindOf cwd p m = Throw (SystemError ENOENT) → fs.get m (locate cwd p) = None.
Proof.
  intros Hp. unfold kindOf, fs.lstat. rewrite Hp.
  by destruct (fs.get m (locate cwd p)) as [[c|t|w]|].
Qed.

Lemma kindOf_file p m :
  kindOf cwd p m = Ok StatFile →
  dirlike p = false ∧ ∃ c, fs.get m (locate cwd p) = Some (File c).
Proof.
  unfold kindOf. destruct (fs.lstat cwd p m) as [r m'] eqn:Hstat. simpl.
  intros ->. by apply lstat_inv in Hstat as (_ & ? & ?).
Qed.

Lemma kindOf_link p m :
  kindOf cwd p m = Ok StatSymbolicLink →
  dirlike p = false ∧ ∃ t, fs.get m (locate cwd p) = Some (Symlink t).
Proof.
  unfold kindOf. destruct (fs.lstat cwd p m) as [r m'] eqn:Hstat. simpl.
  intros ->. by apply lstat_inv in Hstat as (_ & ? & ?).
Qed.

(** ** [ensurePatchesDir] *)

(** X1. [ensurePatchesDir] never throws [EEXIST] and rethrows any other
    error of [mkdir] as it is.  When it returns, the storage root is a
    directory, or it was there as a file or a link and nothing was done: the
    check that swallows [EEXIST] lets a root that is no directory pass. *)
Theorem ensurePatchesDir_outcome m :
  let r := ensurePatchesDir cwd m in
  r.1 ≠ Throw (SystemError EEXIST)
  ∧ (∀ e, r.1 = Throw e → fs.mkdir cwd PATCHES_DIR m = (Throw e, r.2))
  ∧ (r.1 = Ok tt →
     kindOf cwd PATCHES_DIR r.2 = Ok StatDirectory
     ∨ r.2 = m ∧ (kindOf cwd PATCHES_DIR m = Ok StatFile
                  ∨ kindOf cwd PATCHES_DIR m = Ok StatSymbolicLink)).
Proof.
  unfold ensurePatchesDir, try_catch. cbn zeta.
  destruct (fs.mkdir cwd PATCHES_DIR m) as [[[]|e] m1] eqn:Hmk.
  - simpl. split; [done|]. split; [done|]. intros _. left.
    apply mkdir_ok in Hmk as [w Hw]. unfold kindOf.
    by rewrite (lstat_dir cwd _ _ w).
  - destruct (decide (code e ≠ Some EEXIST)) as [Hne|Heq].
    + unfold throw. simpl. split; [intros [= ->]; by apply Hne|].
      split; [by intros e' [= ->]|done].
    + apply dec_stable in Heq. destruct e as [c|msg]; [|done].
      injection Heq as ->. unfold mret, promise_ret. simpl.
      split; [done|]. split; [done|]. intros _. right.
      unfold fs.mkdir in Hmk. apply mkdirp_eexist in Hmk as (-> & n & Hn & Hdir).
      rewrite rev_involutive in Hn. split; [done|].
      unfold kindOf, fs.lstat. rewrite Hn, dirlike_patches.
      destruct n as [c|t|w]; [by left|by right|by destruct (Hdir w)].
Qed.

Lemma ensurePatchesDir_file m n :
  fs.get m kTop = Some n → (∀ w, n ≠ Dir w) →
  ensurePatchesDir cwd m = (Ok tt, m).
Proof.
  intros Hn Hdir. unfold ensurePatchesDir, try_catch, fs.mkdir.
  rewrite (mkdirp_exists m _ n); [done| |done].
  by rewrite rev_involutive, locate_patches.
Qed.

Lemma ensurePatchesDir_dir m w :
  fs.get m kTop = Some (Dir w) → ensurePatchesDir cwd m = (Ok tt, m).
Proof.
  intros Hw. unfold ensurePatchesDir, try_catch.
  rewrite (mkdir_dir cwd _ _ w); [done|]. by rewrite locate_patches.
Qed.

(** ** [createPatch] *)

(** X2. With a regular file in the place of the storage root,
    [ensurePatchesDir] returns all the same, and [createPatch] then fails
    with [ENOTDIR] when it makes the record directory; nothing is changed. *)
Theorem create_fails_below_a_file filePath m :
  dirlike filePath = false →
  kindOf cwd PATCHES_DIR m = Ok StatFile →
  fs.get m (locate cwd (patchDir filePath)) = None →
  ensurePatchesDir cwd m = (Ok tt, m)
  ∧ createPatch cwd filePath m = (Throw (SystemError ENOTDIR), m).
Proof.
  intros Hfile (_ & c & Hc)%kindOf_file Hdir.
  rewrite locate_patches in Hc.
  assert (Hens : ensurePatchesDir cwd m = (Ok tt, m))
    by (by apply (ensurePatchesDir_file m (File c))).
  split; [done|].
  rewrite createPatch_eq. run_promise. rewrite Hens.
  unfold fs.mkdir. rewrite locate_patchDir in * by done.
  replace (rev (wd ++ ["patches"; basename filePath]))
    with (basename filePath :: rev kTop)
    by (by rewrite !rev_app_distr).
  cbn [fs.mkdirp].
  replace (rev (basename filePath :: rev kTop))
    with (wd ++ ["patches"; basename filePath])
    by (simpl; by rewrite rev_involutive, <- app_assoc).
  rewrite Hdir.
  by rewrite (mkdirp_exists m _ (File c)) by (by rewrite ?rev_involutive).
Qed.

(** X3. A live file that is not there, from the Untracked state:
    [createPatch] throws the [ENOENT] of the read only after it has made the
    storage root and the record directory, which stay behind. *)
Theorem create_of_missing_file_leaves_directories filePath m :
  Forall is_name cwd →
  dirlike filePath = false →
  untracked cwd m →
  fs.get m wd = Some (Dir true) →
  kindOf cwd filePath m = Throw (SystemError ENOENT) →
  locate cwd filePath ≠ locate cwd PATCHES_DIR →
  locate cwd filePath ≠ locate cwd (patchDir filePath) →
  let r := createPatch cwd filePath m in
  r.1 = Throw (SystemError ENOENT)
  ∧ kindOf cwd PATCHES_DIR r.2 = Ok StatDirectory
  ∧ kindOf cwd (patchDir filePath) r.2 = Ok StatDirectory.
Proof.
  intros Hcwd Hfile Hun Hwd Hkind Htop Hdir r. subst r.
  apply kindOf_missing in Hkind; [|done].
  rewrite locate_patches in Htop. rewrite locate_patchDir in Hdir by done.
  set (kDir := wd ++ ["patches"; basename filePath]) in *.
  assert (Hens : ensurePatchesDir cwd m = (Ok tt, <[kTop := Dir true]> m)).
  { unfold ensurePatchesDir, try_catch.
    rewrite (mkdir_new cwd _ m wd "patches"); [done| |by apply untracked_get|done].
    apply locate_patches. }
  set (m1 := <[kTop := Dir true]> m) in *.
  assert (Hmk : fs.mkdir cwd (patchDir filePath) m1
                = (Ok tt, <[kDir := Dir true]> m1)).
  { replace kDir with (kTop ++ [basename filePath])
      by (unfold kDir; by rewrite <- app_assoc).
    apply mkdir_new.
    - rewrite locate_patchDir by done. by rewrite <- app_assoc.
    - unfold m1. rewrite get_insert_ne.
      + rewrite <- app_assoc. by apply untracked_get.
      + intros E. apply (f_equal length) in E.
        rewrite !length_app in E. simpl in E. lia.
    - apply get_insert_eq, kTop_nonempty. }
  set (m2 := <[kDir := Dir true]> m1) in *.
  assert (Hread : fs.readFile cwd (resolve cwd filePath) m2
                  = (Throw (SystemError ENOENT), m2)).
  { apply readFile_missing; [|by apply dirlike_resolve].
    rewrite locate_resolve by done. unfold m2, m1.
    by rewrite !get_insert_ne by (by apply not_eq_sym). }
  rewrite createPatch_eq. run_promise. rewrite Hens, Hmk, Hread. simpl.
  split; [done|]. unfold kindOf. split.
  - rewrite (lstat_dir cwd _ _ true); [done|].
    rewrite locate_patches. unfold m2.
    rewrite get_insert_ne by (apply not_eq_sym, top_ne_dir).
    apply get_insert_eq, kTop_nonempty.
  - rewrite (lstat_dir cwd _ _ true); [done|].
    rewrite locate_patchDir by done. apply get_insert_eq.
    unfold kDir. by destruct wd.
Qed.

(** ** Operations on a file that has no record *)

Lemma applyPatch_without_patch filePath m :
  dirlike filePath = false →
  fs.get m (recordKey cwd filePath (basename filePath +:+ ".patch")) = None →
  applyPatch cwd parsePatch diffApply filePath m
  = (Throw (SystemError ENOENT), m).
Proof.
  intros Hfile Hnone. rewrite applyPatch_eq. run_promise.
  rewrite access_missing; [done| |by apply dirlike_patch].
  by rewrite locate_patch.
Qed.

Lemma revertPatch_without_backup filePath m :
  dirlike filePath = false →
  fs.get m (recordKey cwd filePath (basename filePath +:+ ".original.backup"))
  = None →
  revertPatch cwd filePath m = (Throw (SystemError ENOENT), m).
Proof.
  intros Hfile Hnone. rewrite revertPatch_eq. run_promise.
  rewrite access_missing; [done| |by apply dirlike_backup].
  by rewrite locate_backup.
Qed.

Lemma commitPatch_without_snapshot filePath m content :
  dirlike filePath = false →
  contentOf cwd filePath m = Ok content →
  fs.get m (recordKey cwd filePath (basename filePath)) = None →
  commitPatch cwd diffCreate filePath m = (Throw (SystemError ENOENT), m).
Proof.
  intros Hfile Hc Hnone. unfold contentOf in Hc.
  rewrite commitPatch_eq. run_promise.
  rewrite (readFile_ok cwd _ _ _ Hc).
  rewrite readFile_missing; [done| |by apply dirlike_snapshot].
  by rewrite locate_snapshot.
Qed.

(** X8. In the Untracked state [applyPatch] and [revertPatch] throw
    [ENOENT] at their first check, and [commitPatch] throws it at the read of
    the snapshot; the file system stays as it is. *)
Theorem operations_need_a_record filePath m :
  dirlike filePath = false →
  untracked cwd m →
  applyPatch cwd parsePatch diffApply filePath m
  = (Throw (SystemError ENOENT), m)
  ∧ revertPatch cwd filePath m = (Throw (SystemError ENOENT), m)
  ∧ (∀ content, contentOf cwd filePath m = Ok content →
       commitPatch cwd diffCreate filePath m = (Throw (SystemError ENOENT), m)).
Proof.
  intros Hfile Hun.
  assert (Hfield : ∀ x, fs.get m (recordKey cwd filePath x) = None).
  { intros x. apply (untracked_get cwd m [basename filePath; x] Hun). }
  split; [by apply applyPatch_without_patch|].
  split; [by apply revertPatch_without_backup|].
  intros content Hc. by apply commitPatch_without_snapshot with content.
Qed.

End MoreOperations.

(** ** The steps of [createPatch] *)

Section CreateFacts.

Import Path PathFacts.

Variable cwd : list string.
Variable filePath : string.
Hypothesis Hfile : dirlike filePath = false.

Local Abbreviation wd := (normalizeSegs false cwd).
Local Abbreviation kF := (locate cwd filePath).
Local Abbreviation field := (recordKey cwd filePath).
Local Abbreviation n := (basename filePath).
Local Abbreviation kTop := (normalizeSegs false cwd ++ ["patches"]).
Local Abbreviation kDir := (normalizeSegs false cwd ++ ["patches"; basename filePath]).

Lemma proper_pathRecord : proper "original-path.txt".
Proof. repeat split; done. Qed.

Lemma locate_pathRecord :
  locate cwd (pathRecord filePath) = field "original-path.txt".
Proof.
  apply field_locate; [by apply basename_proper|apply proper_pathRecord].
Qed.

Lemma dirlike_pathRecord : dirlike (pathRecord filePath) = false.
Proof.
  apply field_dirlike; [by apply basename_proper|apply proper_pathRecord].
Qed.

Lemma plain_record_field m x :
  plain_record cwd filePath m → x ∈ recordFields filePath → free m (field x).
Proof.
  unfold plain_record, recordKeys. rewrite Forall_fmap, Forall_forall.
  intros H Hx. by apply H.
Qed.

Lemma plain_record_intro m :
  (∀ x, x ∈ recordFields filePath → free m (field x)) →
  plain_record cwd filePath m.
Proof.
  intros H. unfold plain_record, recordKeys. rewrite Forall_fmap, Forall_forall.
  intros x Hx. by apply H.
Qed.

Lemma untracked_plain_record m : untracked cwd m → plain_record cwd filePath m.
Proof.
  intros Hun. apply plain_record_intro. intros x _.
  apply (untracked_free cwd m [n; x] Hun).
Qed.

Lemma snapshot_field : n ∈ recordFields filePath.
Proof. unfold recordFields. repeat constructor. Qed.

Lemma pathRecord_field : "original-path.txt" ∈ recordFields filePath.
Proof. unfold recordFields. repeat constructor. Qed.

Lemma patch_field : n +:+ ".patch" ∈ recordFields filePath.
Proof. unfold recordFields. repeat constructor. Qed.

Lemma patched_field : n +:+ ".patched" ∈ recordFields filePath.
Proof. unfold recordFields. repeat constructor. Qed.

Lemma backup_field : n +:+ ".original.backup" ∈ recordFields filePath.
Proof. unfold recordFields. repeat constructor. Qed.

(** The live path can only be the snapshot or the path record among the
    fields of its own record. *)
Lemma live_ne_pathRecord :
  n ≠ "original-path.txt" → kF ≠ field "original-path.txt".
Proof.
  intros Hn E. destruct (locate_not_dirlike cwd filePath Hfile) as [d Hd].
  rewrite Hd in E. unfold recordKey in E.
  change ["patches"; n; "original-path.txt"]
    with (["patches"; n] ++ ["original-path.txt"]) in E.
  rewrite app_assoc in E. by apply app_inj_tail in E as [_ E].
Qed.

(** The directories made on the way leave the fields as they are. *)
Lemma ensurePatchesDir_state m :
  (ensurePatchesDir cwd m).2 = (fs.mkdir cwd PATCHES_DIR m).2.
Proof.
  unfold ensurePatchesDir, try_catch.
  destruct (fs.mkdir cwd PATCHES_DIR m) as [[[]|e] m1]; [done|].
  by destruct (decide (code e ≠ Some EEXIST)).
Qed.

Lemma ensurePatchesDir_field m x :
  fs.get (ensurePatchesDir cwd m).2 (field x) = fs.get m (field x).
Proof.
  rewrite ensurePatchesDir_state. unfold fs.mkdir. apply mkdirp_get. right.
  rewrite length_rev, locate_patches. unfold recordKey.
  rewrite !length_app. simpl. lia.
Qed.

Lemma mkdir_patchDir_field m x :
  fs.get (fs.mkdir cwd (patchDir filePath) m).2 (field x) = fs.get m (field x).
Proof.
  unfold fs.mkdir. apply mkdirp_get. right.
  rewrite length_rev, locate_patchDir by done. unfold recordKey.
  rewrite !length_app. simpl. lia.
Qed.

Lemma ensurePatchesDir_keeps m x node :
  fs.get m x = Some node → fs.get (ensurePatchesDir cwd m).2 x = Some node.
Proof. rewrite ensurePatchesDir_state. apply mkdir_keeps. Qed.

(** Once [ensurePatchesDir] has returned it returns in every state that
    has the same storage root, and changes nothing there. *)
Lemma ensurePatchesDir_again m mA :
  ensurePatchesDir cwd m = (Ok tt, mA) →
  ∃ node, fs.get mA kTop = Some node
          ∧ ∀ m', fs.get m' kTop = Some node →
                  ensurePatchesDir cwd m' = (Ok tt, m').
Proof.
  unfold ensurePatchesDir at 1. unfold try_catch.
  destruct (fs.mkdir cwd PATCHES_DIR m) as [[[]|e] m1] eqn:Hmk.
  - intros [= <-]. apply mkdir_ok in Hmk as [w Hw].
    rewrite locate_patches in Hw. exists (Dir w). split; [done|].
    intros m' Hm'. by apply ensurePatchesDir_dir with w.
  - destruct (decide (code e ≠ Some EEXIST)) as [Hne|Heq]; [done|].
    intros [= <-]. apply dec_stable in Heq. destruct e as [c|msg]; [|done].
    injection Heq as ->.
    unfold fs.mkdir in Hmk. apply mkdirp_eexist in Hmk as (-> & node & Hn & Hdir).
    rewrite rev_involutive, locate_patches in Hn.
    exists node. split; [done|].
    intros m' Hm'. by apply ensurePatchesDir_file with node.
Qed.

(** The five steps of a [createPatch] that returned. *)
Lemma createPatch_inv m m' :
  createPatch cwd filePath m = (Ok tt, m') →
  ∃ mA mB content mC,
    ensurePatchesDir cwd m = (Ok tt, mA)
    ∧ fs.mkdir cwd (patchDir filePath) mA = (Ok tt, mB)
    ∧ fs.readFile cwd (resolve cwd filePath) mB = (Ok content, mB)
    ∧ fs.writeFile cwd (snapshotPath filePath) content mB = (Ok tt, mC)
    ∧ fs.writeFile cwd (pathRecord filePath) (resolve cwd filePath) mC
      = (Ok tt, m').
Proof.
  rewrite createPatch_eq. run_promise.
  destruct (ensurePatchesDir cwd m) as [[[]|e] mA] eqn:Hens; [|done].
  destruct (fs.mkdir cwd (patchDir filePath) mA) as [[[]|e] mB] eqn:Hmk; [|done].
  destruct (fs.readFile cwd (resolve cwd filePath) mB) as [[content|e] mB']
    eqn:Hread; [|done].
  apply readFile_inv in Hread as Hread'. destruct Hread' as [-> _].
  destruct (fs.writeFile cwd (snapshotPath filePath) content mB)
    as [[[]|e] mC] eqn:Hw; [|done].
  intros Hw'. by exists mA, mB, content, mC.
Qed.

(** A write to a field of a plain record lands on the field itself. *)
Lemma writeFile_field p x d m m' :
  locate cwd p = field x → dirlike p = false → free m (field x) →
  fs.writeFile cwd p d m = (Ok tt, m') → m' = <[field x := File d]> m.
Proof.
  intros Hp Hd Hfree (k & f & Hc & Hf & ->)%writeFile_inv.
  assert (∃ f', holds m (field x) f' ∧ ∀ w, f' ≠ Directory w)
    as (f' & Hf' & Hw).
  { destruct Hfree as [H|[c H]]; [by exists Missing|by exists (Regular c)]. }
  rewrite <- Hp in Hf'.
  rewrite (chase_here _ _ _ _ f' Hf') in Hc by (by left).
  injection Hc as <- <-. by rewrite Hp.
Qed.

Hypothesis Hcwd : Forall is_name cwd.

(** What a [createPatch] that returned has done, on a regular live file
    and a plain record. *)
Lemma createPatch_result m m' content :
  fs.get m kF = Some (File content) →
  free m (field n) → free m (field "original-path.txt") →
  createPatch cwd filePath m = (Ok tt, m') →
  ∃ mB w,
    m' = <[field "original-path.txt" := File (resolve cwd filePath)]>
           (<[field n := File content]> mB)
    ∧ fs.get mB kF = Some (File content)
    ∧ fs.get mB kDir = Some (Dir w)
    ∧ (∀ x, fs.get mB (field x) = fs.get m (field x))
    ∧ (∀ x node, fs.get m x = Some node → fs.get mB x = Some node)
    ∧ ∃ top, fs.get mB kTop = Some top
             ∧ ∀ m'', fs.get m'' kTop = Some top →
                      ensurePatchesDir cwd m'' = (Ok tt, m'').
Proof.
  intros HF Hsnap Hpath
    (mA & mB & c & mC & Hens & Hmk & Hread & Hw1 & Hw2)%createPatch_inv.
  assert (HmA : mA = (ensurePatchesDir cwd m).2) by (by rewrite Hens).
  assert (HmB : mB = (fs.mkdir cwd (patchDir filePath) mA).2) by (by rewrite Hmk).
  assert (Hfields : ∀ x, fs.get mB (field x) = fs.get m (field x)).
  { intros x. by rewrite HmB, mkdir_patchDir_field, HmA, ensurePatchesDir_field. }
  assert (Hkeeps : ∀ x node, fs.get m x = Some node → fs.get mB x = Some node).
  { intros x node Hx. rewrite HmB. apply mkdir_keeps.
    rewrite HmA. by apply ensurePatchesDir_keeps. }
  assert (HFB : fs.get mB kF = Some (File content)) by (by apply Hkeeps).
  rewrite (readFile_file cwd _ _ content) in Hread;
    [|by rewrite locate_resolve|by apply dirlike_resolve].
  injection Hread as <-.
  apply (writeFile_field _ n) in Hw1;
    [|by apply locate_snapshot|by apply dirlike_snapshot
     |unfold free; by rewrite Hfields].
  subst mC.
  apply (writeFile_field _ "original-path.txt") in Hw2;
    [|by apply locate_pathRecord|by apply dirlike_pathRecord|].
  2:{ apply free_insert_file; [apply recordKey_nonempty|].
      unfold free. by rewrite Hfields. }
  subst m'. apply mkdir_ok in Hmk as Hdir. destruct Hdir as [w Hw].
  rewrite locate_patchDir in Hw by done.
  exists mB, w. repeat split; try done.
  apply ensurePatchesDir_again in Hens as (top & Htop & Hagain).
  exists top. split; [|done]. rewrite HmB. by apply mkdir_keeps.
Qed.

End CreateFacts.

Section CreateTheorems.

Import Path PathFacts.

Variable cwd : list string.

Local Abbreviation wd := (normalizeSegs false cwd).

Lemma get_lookup (m : FS) k : k ≠ [] → fs.get m k = m !! k.
Proof. by destruct k. Qed.

Lemma insert_same (m : FS) k node :
  k ≠ [] → fs.get m k = Some node → <[k := node]> m = m.
Proof. intros Hk Hget. apply insert_id. by rewrite <- get_lookup. Qed.

Lemma field_inj filePath x y :
  x ≠ y → recordKey cwd filePath x ≠ recordKey cwd filePath y.
Proof. intros Hxy E. by apply recordKey_inj in E. Qed.

(** The state a [createPatch] that returned leaves, read at the three
    paths. *)
Lemma createPatch_reads filePath m m' content :
  Forall is_name cwd →
  dirlike filePath = false →
  basename filePath ≠ "original-path.txt" →
  fs.get m (locate cwd filePath) = Some (File content) →
  free m (recordKey cwd filePath (basename filePath)) →
  free m (recordKey cwd filePath "original-path.txt") →
  createPatch cwd filePath m = (Ok tt, m') →
  fs.get m' (recordKey cwd filePath (basename filePath)) = Some (File content)
  ∧ fs.get m' (recordKey cwd filePath "original-path.txt")
    = Some (File (resolve cwd filePath))
  ∧ fs.get m' (locate cwd filePath) = Some (File content).
Proof.
  intros Hcwd Hfile Hn HF Hsnap Hpath Hcreate.
  destruct (createPatch_result cwd filePath Hfile Hcwd m m' content)
    as (mB & w & -> & HFB & _); [done..|].
  split; [|split].
  - rewrite get_insert_ne by (by apply field_inj, not_eq_sym).
    apply get_insert_eq, recordKey_nonempty.
  - apply get_insert_eq, recordKey_nonempty.
  - rewrite get_insert_ne by (by apply not_eq_sym, live_ne_pathRecord).
    destruct (decide (recordKey cwd filePath (basename filePath)
                      = locate cwd filePath)) as [E|E].
    + rewrite <- E. apply get_insert_eq, recordKey_nonempty.
    + by rewrite get_insert_ne.
Qed.

(** X4. [createPatch] on a regular live file with a plain record, under a
    name other than that of the path record: when it returns, the snapshot
    reads as the live file, the path record reads as the absolute path of the
    live file, and the live file is as it was.  Whatever the snapshot held
    before, an edit included, is gone. *)
Theorem create_snapshots_the_live_file filePath m m' content :
  Forall is_name cwd →
  plain_record cwd filePath m →
  basename filePath ≠ "original-path.txt" →
  kindOf cwd filePath m = Ok StatFile →
  contentOf cwd filePath m = Ok content →
  createPatch cwd filePath m = (Ok tt, m') →
  contentOf cwd (snapshotPath filePath) m' = Ok content
  ∧ contentOf cwd (pathRecord filePath) m' = Ok (resolve cwd filePath)
  ∧ kindOf cwd filePath m' = Ok StatFile
  ∧ contentOf cwd filePath m' = Ok content.
Proof.
  intros Hcwd Hplain Hn (Hfile & c & HF)%kindOf_file Hcontent Hcreate.
  unfold contentOf in Hcontent.
  rewrite (readFile_file cwd _ _ _ HF Hfile) in Hcontent.
  injection Hcontent as ->.
  destruct (createPatch_reads filePath m m' content) as (HS & HP & HL);
    [done|done|done|done| | |done|].
  { apply plain_record_field; [done|apply snapshot_field]. }
  { apply plain_record_field; [done|apply pathRecord_field]. }
  unfold contentOf, kindOf. repeat split.
  - erewrite readFile_file; [done| |by apply dirlike_snapshot].
    by rewrite locate_snapshot.
  - erewrite readFile_file; [done| |by apply dirlike_pathRecord].
    by rewrite locate_pathRecord.
  - by erewrite lstat_file.
  - by erewrite readFile_file.
Qed.

(** X5. [createPatch] is idempotent on such a file: run again on the state
    it left, it returns and leaves that state. *)
Theorem create_is_idempotent filePath m m' :
  Forall is_name cwd →
  plain_record cwd filePath m →
  basename filePath ≠ "original-path.txt" →
  kindOf cwd filePath m = Ok StatFile →
  createPatch cwd filePath m = (Ok tt, m') →
  createPatch cwd filePath m' = (Ok tt, m').
Proof.
  intros Hcwd Hplain Hn (Hfile & content & HF)%kindOf_file Hcreate.
  assert (Hsnap : free m (recordKey cwd filePath (basename filePath)))
    by (apply plain_record_field; [done|apply snapshot_field]).
  assert (Hpath : free m (recordKey cwd filePath "original-path.txt"))
    by (apply plain_record_field; [done|apply pathRecord_field]).
  destruct (createPatch_reads filePath m m' content) as (HS & HP & HL);
    [done..|].
  destruct (createPatch_result cwd filePath Hfile Hcwd m m' content)
    as (mB & w & Hm' & _ & Hdir & _ & _ & top & Htop & Hagain); [done..|].
  assert (Hdir' : fs.get m' (wd ++ ["patches"; basename filePath])
                  = Some (Dir w)).
  { rewrite Hm'. by rewrite !get_insert_ne by (apply not_eq_sym, dir_ne_field). }
  assert (Htop' : fs.get m' (wd ++ ["patches"]) = Some top).
  { rewrite Hm'. by rewrite !get_insert_ne by (apply not_eq_sym, top_ne_field). }
  rewrite createPatch_eq. run_promise.
  change (join (patchDir filePath) "original-path.txt")
    with (pathRecord filePath).
  rewrite (Hagain m' Htop').
  rewrite (mkdir_dir cwd _ _ w) by (by rewrite locate_patchDir).
  rewrite (readFile_file cwd _ _ content);
    [|by rewrite locate_resolve|by apply dirlike_resolve].
  rewrite (writeFile_over cwd _ _ _ content);
    [|by rewrite locate_snapshot|by apply dirlike_snapshot].
  rewrite locate_snapshot by done.
  rewrite insert_same; [|apply recordKey_nonempty|done].
  rewrite (writeFile_over cwd _ _ _ (resolve cwd filePath));
    [|by rewrite locate_pathRecord|by apply dirlike_pathRecord].
  rewrite locate_pathRecord by done.
  by rewrite insert_same; [|apply recordKey_nonempty|done].
Qed.

(** X6. The record is keyed by the base name alone: [createPatch] on a
    second file of the same base name, in another directory, takes over the
    record of the first; the snapshot then reads as the second file and the
    path record as its path. *)
Theorem create_shares_the_record_by_basename p q m m1 m2 content :
  Forall is_name cwd →
  basename p = basename q →
  basename p ≠ "original-path.txt" →
  plain_record cwd p m →
  kindOf cwd p m = Ok StatFile →
  createPatch cwd p m = (Ok tt, m1) →
  kindOf cwd q m1 = Ok StatFile →
  contentOf cwd q m1 = Ok content →
  createPatch cwd q m1 = (Ok tt, m2) →
  contentOf cwd (snapshotPath p) m2 = Ok content
  ∧ contentOf cwd (pathRecord p) m2 = Ok (resolve cwd q).
Proof.
  intros Hcwd Hpq Hn Hplain (Hp & cp & HFp)%kindOf_file Hcreate
    (Hq & cq & HFq)%kindOf_file Hcontent Hcreate2.
  unfold contentOf in Hcontent.
  rewrite (readFile_file cwd _ _ _ HFq Hq) in Hcontent.
  injection Hcontent as ->.
  assert (Hsnap : free m (recordKey cwd p (basename p)))
    by (apply plain_record_field; [done|apply snapshot_field]).
  assert (Hpath : free m (recordKey cwd p "original-path.txt"))
    by (apply plain_record_field; [done|apply pathRecord_field]).
  destruct (createPatch_reads p m m1 cp) as (HS & HP & _); [done..|].
  assert (Hkey : ∀ x, recordKey cwd q x = recordKey cwd p x)
    by (intros x; unfold recordKey; by rewrite Hpq).
  destruct (createPatch_reads q m1 m2 content) as (HS2 & HP2 & _);
    [done|done|by rewrite <- Hpq|done| | |done|].
  { rewrite Hkey, <- Hpq. right. eauto. }
  { rewrite Hkey. right. eauto. }
  rewrite Hkey, <- Hpq in HS2. rewrite Hkey in HP2.
  unfold contentOf. split.
  - erewrite readFile_file; [done| |by apply dirlike_snapshot].
    by rewrite locate_snapshot.
  - erewrite readFile_file; [done| |by apply dirlike_pathRecord].
    by rewrite locate_pathRecord.
Qed.

End CreateTheorems.

Section CreateCollision.

Import Path PathFacts.

Variable cwd : list string.

(** X7. A live file called [original-path.txt]: its snapshot and the path
    record are one path, and the path record is written last; after a
    [createPatch] that returned the snapshot reads as the absolute path of
    the file, not as its content. *)
Theorem create_of_original_path_txt filePath m m' :
  basename filePath = "original-path.txt" →
  createPatch cwd filePath m = (Ok tt, m') →
  contentOf cwd (snapshotPath filePath) m' = Ok (resolve cwd filePath).
Proof.
  intros Hn (mA & mB & c & mC & _ & _ & _ & _ & Hw)%createPatch_inv.
  replace (snapshotPath filePath) with (pathRecord filePath)
    by (unfold snapshotPath, pathRecord; by rewrite Hn).
  unfold contentOf. by rewrite (writeFile_read cwd _ _ _ _ Hw).
Qed.

End CreateCollision.

(** ** The steps of [applyPatch] and [revertPatch] *)

Section CycleFacts.

Import Path PathFacts.

Variable cwd : list string.

Lemma chase_step fuel m dir p :
  fs.chase (S fuel) m dir p =
  match fs.get m (locate dir p) with
  | Some (Symlink t) =>
      if dirlike p then Throw (SystemError ENOTDIR)
      else fs.chase fuel m (fs.parent (locate dir p)) t
  | Some (Dir w) => Ok (locate dir p, Directory w)
  | Some (File c) =>
      if dirlike p then Throw (SystemError ENOTDIR)
      else Ok (locate dir p, Regular c)
  | None =>
      if dirlike p then Throw (SystemError ENOENT)
      else Ok (locate dir p, Missing)
  end.
Proof. reflexivity. Qed.

(** A path that was read names an entry that is no directory. *)
Lemma readFile_exists p m c m' :
  fs.readFile cwd p m = (Ok c, m') →
  ∃ node, fs.get m (locate cwd p) = Some node ∧ ∀ w, node ≠ Dir w.
Proof.
  intros (-> & k & Hc)%readFile_inv.
  change fs.max_symlinks with (S 39) in Hc. rewrite chase_step in Hc.
  destruct (fs.get m (locate cwd p)) as [[c'|t|w]|] eqn:Hget.
  - by eexists.
  - by eexists.
  - done.
  - by destruct (dirlike p).
Qed.

Lemma kindOf_not_link p m :
  dirlike p = false → kindOf cwd p m ≠ Ok StatSymbolicLink →
  ∀ t, fs.get m (locate cwd p) ≠ Some (Symlink t).
Proof.
  intros Hp Hkind t Hget. apply Hkind. unfold kindOf.
  by rewrite (lstat_link cwd _ _ t).
Qed.

(** A write that returned, to a path that is no link, landed on the path
    itself, which was free or a file. *)
Lemma writeFile_plain p d m m' :
  dirlike p = false → (∀ t, fs.get m (locate cwd p) ≠ Some (Symlink t)) →
  fs.writeFile cwd p d m = (Ok tt, m') →
  free m (locate cwd p) ∧ m' = <[locate cwd p := File d]> m.
Proof.
  intros Hp Hlink (k & f & Hc & Hf & ->)%writeFile_inv.
  change fs.max_symlinks with (S 39) in Hc. rewrite chase_step, Hp in Hc.
  destruct (fs.get m (locate cwd p)) as [[c|t|w]|] eqn:Hget.
  - injection Hc as <- <-. split; [right; eauto|done].
  - by destruct (Hlink t).
  - injection Hc as <- <-. by destruct (Hf w).
  - injection Hc as <- <-. split; [by left|done].
Qed.

(** A write that made a new file went into a writable directory. *)
Lemma writeFile_new_inv p d m m' :
  dirlike p = false → fs.get m (locate cwd p) = None →
  fs.writeFile cwd p d m = (Ok tt, m') →
  fs.get m (fs.parent (locate cwd p)) = Some (Dir true).
Proof.
  intros Hp Hget. unfold fs.writeFile.
  rewrite (chase_here _ _ _ _ Missing Hget) by (by left).
  unfold fs.create.
  by destruct (fs.get m (fs.parent (locate cwd p))) as [[c|t|[]]|].
Qed.

(** The key a write lands on was free or a file, and is no directory. *)
Lemma writeFile_target p d m m' :
  fs.writeFile cwd p d m = (Ok tt, m') →
  ∃ k, k ≠ [] ∧ free m k ∧ m' = <[k := File d]> m.
Proof.
  intros (k & f & Hc & Hf & ->)%writeFile_inv.
  apply chase_final in Hc. destruct (holds_free _ _ _ Hc Hf) as [Hk Hfree].
  by exists k.
Qed.

Lemma free_not_dir m k w : free m k → fs.get m k ≠ Some (Dir w).
Proof. intros [H|[c H]]; by rewrite H. Qed.

End CycleFacts.

Section Cycle.

Import Path PathFacts.

Variable cwd : list string.
Context {patch : Type}.
Variable diffCreate : string → string → string → string → string → string.
Variable parsePatch : string → bool → result (list patch).
Variable diffApply : string → option patch → nat → result (option string).

Variable filePath : string.
Hypothesis Hfile : dirlike filePath = false.

Local Abbreviation wd := (normalizeSegs false cwd).
Local Abbreviation kF := (locate cwd filePath).
Local Abbreviation field := (recordKey cwd filePath).
Local Abbreviation n := (basename filePath).
Local Abbreviation kS := (recordKey cwd filePath (basename filePath)).
Local Abbreviation kP := (recordKey cwd filePath (basename filePath +:+ ".patched")).
Local Abbreviation kB :=
  (recordKey cwd filePath (basename filePath +:+ ".original.backup")).
Local Abbreviation kDir := (normalizeSegs false cwd ++ ["patches"; basename filePath]).

Lemma kF_ne_kP : kF ≠ kP.
Proof. by apply live_ne_field. Qed.

Lemma kF_ne_kB : kF ≠ kB.
Proof. by apply live_ne_field. Qed.

Lemma kP_ne_kB : kP ≠ kB.
Proof. by apply field_ne. Qed.

(** The steps of an [applyPatch] that returned. *)
Lemma applyPatch_steps m m' :
  applyPatch cwd parsePatch diffApply filePath m = (Ok tt, m') →
  ∃ content text result mA mB,
    fs.readFile cwd filePath m = (Ok content, m)
    ∧ fs.readFile cwd (patchPath filePath) m = (Ok text, m)
    ∧ first_patch (parsePatch text false) ≫= (λ p, diffApply content p 3)
      = Ok (Some result)
    ∧ fs.writeFile cwd (patchedPath filePath) result m = (Ok tt, mA)
    ∧ fs.copyFile cwd filePath (backupPath filePath) mA = (Ok tt, mB)
    ∧ fs.unlink cwd filePath mB = (Ok tt, delete kF mB)
    ∧ m' = <[kF := Symlink (patchedPath filePath)]> (delete kF mB).
Proof.
  rewrite applyPatch_eq. run_promise. intros H.
  destruct (fs.access cwd _ m) as [[[]|e] m1] eqn:Hacc; [|done].
  apply access_inv in Hacc as ->.
  destruct (fs.readFile cwd filePath m) as [[orig|e] m1] eqn:Horig; [|done].
  apply readFile_inv in Horig as Horig'. destruct Horig' as [-> _].
  destruct (fs.readFile cwd (patchPath filePath) m) as [[text|e] m1] eqn:Hp;
    [|done].
  apply readFile_inv in Hp as Hp'. destruct Hp' as [-> _].
  destruct (parsePatch text false) as [patches|e] eqn:Hparse; [|done].
  destruct (diffApply orig (head patches) 3) as [[result|]|e] eqn:Hlib;
    [|done|done].
  destruct (fs.writeFile cwd (patchedPath filePath) result m) as [[[]|e] mA]
    eqn:Hw; [|done].
  destruct (fs.copyFile cwd filePath (backupPath filePath) mA) as [[[]|e] mB]
    eqn:Hc; [|done].
  destruct (fs.unlink cwd filePath mB) as [[[]|e] mC] eqn:Hu; [|done].
  apply unlink_inv in Hu as Hu'. destruct Hu' as (-> & _).
  apply symlink_inv in H as (-> & _).
  exists orig, text, result, mA, mB. repeat split; try done.
  unfold first_patch. by rewrite Hparse.
Qed.

(** The state an [applyPatch] that returned leaves, on a regular live file
    and with no links in the places of the patched result and the backup. *)
Lemma applyPatch_state m m' content :
  fs.get m kF = Some (File content) →
  (∀ t, fs.get m kP ≠ Some (Symlink t)) →
  (∀ t, fs.get m kB ≠ Some (Symlink t)) →
  applyPatch cwd parsePatch diffApply filePath m = (Ok tt, m') →
  ∃ text result,
    fs.readFile cwd (patchPath filePath) m = (Ok text, m)
    ∧ first_patch (parsePatch text false) ≫= (λ p, diffApply content p 3)
      = Ok (Some result)
    ∧ fs.writeFile cwd (patchedPath filePath) result m
      = (Ok tt, <[kP := File result]> m)
    ∧ fs.get m (fs.parent kF) = Some (Dir true)
    ∧ free m kP ∧ free m kB
    ∧ m' = <[kF := Symlink (patchedPath filePath)]>
             (delete kF (<[kB := File content]> (<[kP := File result]> m))).
Proof.
  intros HF HP HB
    (c & text & result & mA & mB & Hr & Hp & Hlib & HwA & HcB & Hun & ->)
      %applyPatch_steps.
  rewrite (readFile_file cwd _ _ _ HF Hfile) in Hr. injection Hr as <-.
  pose proof HwA as HwA'.
  apply writeFile_plain in HwA as [HfreeP ->];
    [|by apply dirlike_patched|by rewrite locate_patched].
  rewrite locate_patched in * by done.
  apply copyFile_inv in HcB as (c & Hr & Hw).
  rewrite (readFile_file cwd _ _ content) in Hr;
    [|by rewrite get_insert_ne by (apply not_eq_sym, kF_ne_kP)|done].
  injection Hr as <-.
  apply writeFile_plain in Hw as [HfreeB ->]; [|by apply dirlike_backup|].
  2:{ rewrite locate_backup by done.
      by rewrite get_insert_ne by apply kP_ne_kB. }
  rewrite locate_backup in * by done.
  exists text, result. repeat split; try done.
  - apply unlink_inv in Hun as (_ & _ & _ & Hpar).
    rewrite !get_insert_ne in Hpar; [done| |].
    + intros E. rewrite <- E in Hpar.
      by rewrite get_insert_eq in Hpar by apply recordKey_nonempty.
    + intros E. rewrite <- E in Hpar.
      by rewrite get_insert_eq in Hpar by apply recordKey_nonempty.
  - unfold free in *. by rewrite get_insert_ne in HfreeB by apply kP_ne_kB.
Qed.

(** [revertPatch] on a link, with a regular file as the backup and a
    writable directory around the live path. *)
Lemma revertPatch_forward m t c :
  fs.get m kF = Some (Symlink t) →
  fs.get m kB = Some (File c) →
  fs.get m (fs.parent kF) = Some (Dir true) →
  revertPatch cwd filePath m
  = (Ok tt, (fs.unlink cwd (patchedPath filePath)
               (fs.unlink cwd (backupPath filePath)
                  (<[kF := File c]> (delete kF m))).2).2).
Proof.
  intros HF HB Hpar. rewrite revertPatch_eq. run_promise.
  erewrite access_file;
    [|by rewrite locate_backup|done|by apply dirlike_backup].
  erewrite lstat_link; [|exact HF|done]. cbn [isSymbolicLink].
  rewrite (unlink_ok cwd _ _ (Symlink t)); [|done|done|done|done].
  unfold fs.copyFile. run_promise.
  erewrite readFile_file; [| |by apply dirlike_backup].
  2:{ rewrite locate_backup by done.
      by rewrite get_delete_ne by apply kF_ne_kB. }
  rewrite writeFile_new; [|by apply get_delete_eq; intros E; rewrite E in HF|done|].
  2:{ rewrite get_delete_ne; [done|].
      apply not_eq_sym, parent_ne. by intros E; rewrite E in HF. }
  done.
Qed.

End Cycle.

Ltac run_promise_in H :=
  unfold mbind, promise_bind, mret, promise_ret, call, throw, catch_ignore in H.

Section CycleTheorems.

Import Path PathFacts.

Variable cwd : list string.
Context {patch : Type}.
Variable diffCreate : string → string → string → string → string → string.
Variable parsePatch : string → bool → result (list patch).
Variable diffApply : string → option patch → nat → result (option string).

Local Abbreviation wd := (normalizeSegs false cwd).

(** X9. [commitPatch] uses the snapshot up: after a [commitPatch] that
    returned, on a regular live file other than its own snapshot and in a
    writable record directory, the snapshot path is gone, and a second
    [commitPatch] throws [ENOENT] and changes nothing, the patch file
    included. *)
Theorem commit_consumes_the_snapshot filePath m m1 :
  kindOf cwd filePath m = Ok StatFile →
  locate cwd filePath ≠ locate cwd (snapshotPath filePath) →
  fs.get m (locate cwd (patchDir filePath)) = Some (Dir true) →
  commitPatch cwd diffCreate filePath m = (Ok tt, m1) →
  kindOf cwd (snapshotPath filePath) m1 = Throw (SystemError ENOENT)
  ∧ commitPatch cwd diffCreate filePath m1 = (Throw (SystemError ENOENT), m1).
Proof.
  intros (Hfile & c & HF)%kindOf_file Hsnap Hdir Hcommit.
  rewrite locate_snapshot in Hsnap by done.
  rewrite locate_patchDir in Hdir by done.
  set (kF := locate cwd filePath) in *.
  set (kS := recordKey cwd filePath (basename filePath)) in *.
  set (kDir := wd ++ ["patches"; basename filePath]) in *.
  assert (HkS : kS ≠ []) by apply recordKey_nonempty.
  rewrite commitPatch_eq in Hcommit. run_promise_in Hcommit.
  rewrite (readFile_file cwd _ _ c HF Hfile) in Hcommit.
  destruct (fs.readFile cwd (snapshotPath filePath) m) as [[modi|e] mx] eqn:Hmodi;
    [|done].
  apply readFile_exists in Hmodi as Hex. destruct Hex as (node & Hnode & Hnd).
  rewrite locate_snapshot in Hnode by done. fold kS in Hnode.
  apply readFile_inv in Hmodi as [-> _].
  destruct (fs.writeFile cwd (patchPath filePath) _ m) as [[[]|e] mW] eqn:Hw;
    [|done].
  apply writeFile_target in Hw as (k & Hk & Hfree & ->).
  set (text := diffCreate _ _ _ _ _) in *.
  assert (HkDir : k ≠ kDir).
  { intros ->. by apply (free_not_dir _ _ true) in Hfree. }
  assert (∃ node', fs.get (<[k:=File text]> m) kS = Some node'
                   ∧ ∀ w, node' ≠ Dir w) as (node' & Hnode' & Hnd').
  { destruct (decide (k = kS)) as [->|Hne].
    - exists (File text). split; [by apply get_insert_eq|done].
    - exists node. by rewrite get_insert_ne. }
  rewrite (unlink_ok cwd _ _ node') in Hcommit;
    [|by rewrite locate_snapshot|done|by apply dirlike_snapshot|].
  2:{ rewrite locate_snapshot, recordKey_parent by done. by rewrite get_insert_ne. }
  rewrite locate_snapshot in Hcommit by done. fold kS in Hcommit.
  simpl in Hcommit. injection Hcommit as <-.
  split.
  - unfold kindOf. rewrite lstat_missing; [done|].
    rewrite locate_snapshot by done. by apply get_delete_eq.
  - assert (∃ c', fs.get (delete kS (<[k:=File text]> m)) kF = Some (File c'))
      as [c' Hc'].
    { rewrite get_delete_ne by (by apply not_eq_sym).
      destruct (decide (k = kF)) as [->|Hne];
        [exists text; by apply get_insert_eq|exists c; by rewrite get_insert_ne]. }
    rewrite commitPatch_eq. run_promise.
    rewrite (readFile_file cwd _ _ c' Hc' Hfile).
    rewrite readFile_missing; [done| |by apply dirlike_snapshot].
    rewrite locate_snapshot by done. by apply get_delete_eq.
Qed.



(** X11. What an [applyPatch] that returned has done, on a regular live
    file and with no links in the places of the patched result and of the
    backup: the patched result reads as what the library made of the live
    content and the first patch of the patch file, the backup reads as the
    live content, and the live path is a link whose text is the path of the
    patched result relative to the working directory. *)
Theorem apply_backs_up_and_links filePath m m' content :
  kindOf cwd filePath m = Ok StatFile →
  contentOf cwd filePath m = Ok content →
  kindOf cwd (patchedPath filePath) m ≠ Ok StatSymbolicLink →
  kindOf cwd (backupPath filePath) m ≠ Ok StatSymbolicLink →
  applyPatch cwd parsePatch diffApply filePath m = (Ok tt, m') →
  ∃ text result,
    contentOf cwd (patchPath filePath) m = Ok text
    ∧ first_patch (parsePatch text false) ≫= (λ p, diffApply content p 3)
      = Ok (Some result)
    ∧ contentOf cwd (patchedPath filePath) m' = Ok result
    ∧ contentOf cwd (backupPath filePath) m' = Ok content
    ∧ fs.get m' (locate cwd filePath) = Some (Symlink (patchedPath filePath)).
Proof.
  intros (Hfile & c & HF)%kindOf_file Hcontent Hpatched Hbackup Happly.
  unfold contentOf in Hcontent.
  rewrite (readFile_file cwd _ _ _ HF Hfile) in Hcontent.
  injection Hcontent as ->.
  pose proof (kindOf_not_link cwd _ _ (dirlike_patched _ Hfile) Hpatched) as HP.
  pose proof (kindOf_not_link cwd _ _ (dirlike_backup _ Hfile) Hbackup) as HB.
  rewrite locate_patched in HP by done. rewrite locate_backup in HB by done.
  destruct (applyPatch_state cwd parsePatch diffApply filePath Hfile m m' content)
    as (text & result & Hp & Hlib & _ & _ & _ & _ & ->); [done..|].
  set (kF := locate cwd filePath) in *.
  assert (HkF : kF ≠ []) by (by intros E; rewrite E in HF).
  exists text, result. unfold contentOf. rewrite Hp.
  split; [done|]. split; [done|]. split; [|split].
  - erewrite readFile_file; [done| |by apply dirlike_patched].
    rewrite locate_patched by done.
    rewrite get_insert_ne, get_delete_ne by (by apply kF_ne_kP).
    rewrite get_insert_ne by (by apply not_eq_sym, kP_ne_kB).
    apply get_insert_eq, recordKey_nonempty.
  - erewrite readFile_file; [done| |by apply dirlike_backup].
    rewrite locate_backup by done.
    rewrite get_insert_ne, get_delete_ne by (by apply kF_ne_kB).
    apply get_insert_eq, recordKey_nonempty.
  - by apply get_insert_eq.
Qed.

(** X15. [revertPatch] on a link, whatever it points to: with a regular
    file as the backup and a writable directory around the live path it
    returns, and the live path is then a regular file with the content of the
    backup. *)
Theorem revert_restores_the_backup filePath m content :
  kindOf cwd filePath m = Ok StatSymbolicLink →
  kindOf cwd (backupPath filePath) m = Ok StatFile →
  contentOf cwd (backupPath filePath) m = Ok content →
  fs.get m (fs.parent (locate cwd filePath)) = Some (Dir true) →
  ∃ m', revertPatch cwd filePath m = (Ok tt, m')
        ∧ kindOf cwd filePath m' = Ok StatFile
        ∧ contentOf cwd filePath m' = Ok content.
Proof.
  intros (Hfile & t & HF)%kindOf_link (_ & c & HB)%kindOf_file Hcontent Hpar.
  unfold contentOf in Hcontent.
  rewrite (readFile_file cwd _ _ _ HB) in Hcontent by (by apply dirlike_backup).
  injection Hcontent as ->.
  rewrite locate_backup in HB by done.
  eexists. split; [by apply revertPatch_forward with t|].
  set (kF := locate cwd filePath) in *.
  assert (HkF : kF ≠ []) by (by intros E; rewrite E in HF).
  set (m1 := <[kF := File content]> (delete kF m)).
  enough (Hlive : fs.get (fs.unlink cwd (patchedPath filePath)
                            (fs.unlink cwd (backupPath filePath) m1).2).2 kF
                  = Some (File content)).
  { unfold kindOf, contentOf.
    by rewrite (lstat_file cwd _ _ content), (readFile_file cwd _ _ content). }
  destruct (unlink_state cwd (backupPath filePath) m1) as [->| ->];
    match goal with
    | |- context [fs.unlink cwd ?p ?m] =>
        destruct (unlink_state cwd p m) as [->| ->]
    end;
    rewrite ?locate_backup, ?locate_patched by done;
    rewrite ?get_delete_ne
      by first [by apply not_eq_sym, kF_ne_kP | by apply not_eq_sym, kF_ne_kB];
    by apply get_insert_eq.
Qed.

(** X14. [applyPatch] and then [revertPatch], both returning, on a regular
    live file whose record holds neither patched result nor backup: the file
    system is the one before the [applyPatch], entry for entry. *)
Theorem apply_then_revert_is_identity filePath m m1 m2 :
  kindOf cwd filePath m = Ok StatFile →
  kindOf cwd (patchedPath filePath) m = Throw (SystemError ENOENT) →
  kindOf cwd (backupPath filePath) m = Throw (SystemError ENOENT) →
  applyPatch cwd parsePatch diffApply filePath m = (Ok tt, m1) →
  revertPatch cwd filePath m1 = (Ok tt, m2) →
  m2 = m.
Proof.
  intros (Hfile & content & HF)%kindOf_file HP HB Happly Hrevert.
  apply kindOf_missing in HP; [|by apply dirlike_patched].
  apply kindOf_missing in HB; [|by apply dirlike_backup].
  rewrite locate_patched in HP by done. rewrite locate_backup in HB by done.
  destruct (applyPatch_state cwd parsePatch diffApply filePath Hfile m m1 content)
    as (text & result & _ & _ & Hw & Hpar & _ & _ & ->);
    [done|by rewrite HP|by rewrite HB|done|].
  apply writeFile_new_inv in Hw;
    [|by apply dirlike_patched|by rewrite locate_patched].
  rewrite locate_patched, recordKey_parent in Hw by done.
  set (kF := locate cwd filePath) in *.
  set (kP := recordKey cwd filePath (basename filePath +:+ ".patched")) in *.
  set (kB := recordKey cwd filePath (basename filePath +:+ ".original.backup"))
    in *.
  set (kDir := wd ++ ["patches"; basename filePath]) in *.
  assert (HkF : kF ≠ []) by (by intros E; rewrite E in HF).
  assert (HkP : kP ≠ []) by apply recordKey_nonempty.
  assert (HkB : kB ≠ []) by apply recordKey_nonempty.
  assert (HFP : kF ≠ kP) by (by apply kF_ne_kP).
  assert (HFB : kF ≠ kB) by (by apply kF_ne_kB).
  assert (HPB : kP ≠ kB) by (by apply kP_ne_kB).
  assert (HDF : kDir ≠ kF) by (intros E; by rewrite E, HF in Hw).
  assert (HDP : kDir ≠ kP) by (intros E; by rewrite E, HP in Hw).
  assert (HDB : kDir ≠ kB) by (intros E; by rewrite E, HB in Hw).
  assert (HparF : fs.parent kF ≠ kF) by (by apply parent_ne).
  assert (HparP : fs.parent kF ≠ kP) by (intros E; by rewrite E, HP in Hpar).
  assert (HparB : fs.parent kF ≠ kB) by (intros E; by rewrite E, HB in Hpar).
  set (t := patchedPath filePath) in *.
  set (m1 := <[kF := Symlink t]> _) in *.
  rewrite (revertPatch_forward cwd filePath Hfile m1 t content) in Hrevert.
  2:{ by apply get_insert_eq. }
  2:{ unfold m1. rewrite get_insert_ne, get_delete_ne by done.
      by apply get_insert_eq. }
  2:{ unfold m1. by rewrite get_insert_ne, get_delete_ne, !get_insert_ne
        by (by apply not_eq_sym). }
  fold kF in Hrevert.
  set (mC := <[kF := File content]> (delete kF m1)) in *.
  rewrite (unlink_ok cwd (backupPath filePath) mC (File content)) in Hrevert;
    [| |done|by apply dirlike_backup|].
  2:{ rewrite locate_backup by done. fold kB. unfold mC, m1.
      rewrite get_insert_ne, get_delete_ne, get_insert_ne, get_delete_ne by done.
      by apply get_insert_eq. }
  2:{ rewrite locate_backup, recordKey_parent by done. fold kDir. unfold mC, m1.
      by rewrite get_insert_ne, get_delete_ne, get_insert_ne, get_delete_ne,
        !get_insert_ne by (by apply not_eq_sym). }
  rewrite locate_backup in Hrevert by done. fold kB in Hrevert. simpl in Hrevert.
  rewrite (unlink_ok cwd (patchedPath filePath) _ (File result)) in Hrevert;
    [| |done|by apply dirlike_patched|].
  2:{ rewrite locate_patched by done. fold kP. unfold mC, m1.
      rewrite get_delete_ne by (by apply not_eq_sym).
      rewrite get_insert_ne, get_delete_ne, get_insert_ne, get_delete_ne by done.
      rewrite get_insert_ne by (by apply not_eq_sym).
      by apply get_insert_eq. }
  2:{ rewrite locate_patched, recordKey_parent by done. fold kDir. unfold mC, m1.
      rewrite get_delete_ne by (by apply not_eq_sym).
      by rewrite get_insert_ne, get_delete_ne, get_insert_ne, get_delete_ne,
        !get_insert_ne by (by apply not_eq_sym). }
  rewrite locate_patched in Hrevert by done. fold kP in Hrevert.
  simpl in Hrevert. injection Hrevert as <-.
  rewrite get_lookup in HF, HP, HB by done.
  apply map_eq. intros i. unfold mC, m1.
  destruct (decide (i = kP)) as [->|HiP]; [by rewrite lookup_delete_eq|].
  rewrite lookup_delete_ne by done.
  destruct (decide (i = kB)) as [->|HiB]; [by rewrite lookup_delete_eq|].
  rewrite lookup_delete_ne by done.
  destruct (decide (i = kF)) as [->|HiF]; [by rewrite lookup_insert_eq|].
  rewrite lookup_insert_ne, lookup_delete_ne by done.
  by rewrite lookup_insert_ne, lookup_delete_ne, !lookup_insert_ne by done.
Qed.


(** X16. [revertPatch] uses the backup up: after a [revertPatch] that
    returned on a link, in a writable record directory, the backup is gone,
    and a second [revertPatch] throws [ENOENT] and changes nothing. *)
Theorem revert_consumes_the_backup filePath m m1 :
  kindOf cwd filePath m = Ok StatSymbolicLink →
  fs.get m (locate cwd (patchDir filePath)) = Some (Dir true) →
  revertPatch cwd filePath m = (Ok tt, m1) →
  kindOf cwd (backupPath filePath) m1 = Throw (SystemError ENOENT)
  ∧ revertPatch cwd filePath m1 = (Throw (SystemError ENOENT), m1).
Proof.
  intros (Hfile & t & HF)%kindOf_link Hdir Hrevert.
  rewrite locate_patchDir in Hdir by done.
  set (kF := locate cwd filePath) in *.
  set (kB := recordKey cwd filePath (basename filePath +:+ ".original.backup")).
  set (kDir := wd ++ ["patches"; basename filePath]) in *.
  assert (HkB : kB ≠ []) by apply recordKey_nonempty.
  assert (HFB : kF ≠ kB) by (by apply kF_ne_kB).
  assert (HDF : kDir ≠ kF) by (intros E; by rewrite E, HF in Hdir).
  enough (Hgone : fs.get m1 kB = None).
  { split.
    - unfold kindOf. rewrite lstat_missing; [done|]. by rewrite locate_backup.
    - rewrite revertPatch_eq. run_promise.
      rewrite access_missing; [done| |by apply dirlike_backup].
      by rewrite locate_backup. }
  rewrite revertPatch_eq in Hrevert. run_promise_in Hrevert.
  destruct (fs.access cwd _ m) as [[[]|e0] mx] eqn:Hacc; [|done].
  apply access_inv in Hacc as ->.
  rewrite (lstat_link cwd _ _ t HF Hfile) in Hrevert.
  cbn [isSymbolicLink] in Hrevert.
  destruct (fs.unlink cwd filePath m) as [[[]|e0] mU] eqn:Hu; [|done].
  apply unlink_inv in Hu as (-> & _). fold kF in Hrevert.
  destruct (fs.copyFile cwd (backupPath filePath) filePath (delete kF m))
    as [[[]|e0] mC] eqn:Hc; [|done].
  apply copyFile_inv in Hc as (c & Hr & Hw).
  apply readFile_exists in Hr as (node & Hnode & Hnd).
  rewrite locate_backup in Hnode by done. fold kB in Hnode.
  apply writeFile_target in Hw as (k & Hk & Hfree & ->).
  assert (HkDir : k ≠ kDir).
  { intros ->. apply (free_not_dir _ _ true) in Hfree.
    by rewrite get_delete_ne in Hfree by (by apply not_eq_sym). }
  assert (∃ node', fs.get (<[k := File c]> (delete kF m)) kB = Some node'
                   ∧ ∀ w, node' ≠ Dir w) as (node' & Hnode' & Hnd').
  { destruct (decide (k = kB)) as [->|Hne].
    - exists (File c). split; [by apply get_insert_eq|done].
    - exists node. by rewrite get_insert_ne. }
  rewrite (unlink_ok cwd (backupPath filePath) _ node') in Hrevert;
    [|by rewrite locate_backup|done|by apply dirlike_backup|].
  2:{ rewrite locate_backup, recordKey_parent by done. fold kDir.
      by rewrite get_insert_ne, get_delete_ne by (by apply not_eq_sym). }
  rewrite locate_backup in Hrevert by done. fold kB in Hrevert.
  simpl in Hrevert. injection Hrevert as <-.
  match goal with
  | |- context [fs.unlink cwd ?p ?m] =>
      destruct (unlink_state cwd p m) as [->| ->]
  end.
  - by apply get_delete_eq.
  - rewrite locate_patched by done.
    rewrite get_delete_ne by (by apply kP_ne_kB). by apply get_delete_eq.
Qed.

(** X12. Where the link of an applied file leads.  For a live file lying
    directly in the working directory the live path reads as the patched
    result.  For a live file elsewhere the text of the link names a path
    below the directory of the live file; when nothing is there the live
    path reads as [ENOENT]. *)
Theorem applied_link_resolves_in_working_directory_only filePath m m' :
  Forall is_name cwd →
  kindOf cwd filePath m = Ok StatFile →
  kindOf cwd (patchedPath filePath) m ≠ Ok StatSymbolicLink →
  kindOf cwd (backupPath filePath) m ≠ Ok StatSymbolicLink →
  applyPatch cwd parsePatch diffApply filePath m = (Ok tt, m') →
  (fs.parent (locate cwd filePath) = wd →
   contentOf cwd filePath m' = contentOf cwd (patchedPath filePath) m')
  ∧ (fs.parent (locate cwd filePath) ≠ wd →
     fs.get m (locate (fs.parent (locate cwd filePath)) (patchedPath filePath))
     = None →
     contentOf cwd filePath m' = Throw (SystemError ENOENT)).
Proof.
  intros Hcwd (Hfile & content & HF)%kindOf_file Hpatched Hbackup Happly.
  pose proof (kindOf_not_link cwd _ _ (dirlike_patched _ Hfile) Hpatched) as HP.
  pose proof (kindOf_not_link cwd _ _ (dirlike_backup _ Hfile) Hbackup) as HB.
  rewrite locate_patched in HP by done. rewrite locate_backup in HB by done.
  destruct (applyPatch_state cwd parsePatch diffApply filePath Hfile m m' content)
    as (text & result & _ & _ & _ & _ & _ & _ & ->); [done..|].
  set (kF := locate cwd filePath) in *.
  set (kP := recordKey cwd filePath (basename filePath +:+ ".patched")) in *.
  set (kB := recordKey cwd filePath (basename filePath +:+ ".original.backup"))
    in *.
  set (t := patchedPath filePath) in *.
  assert (HkF : kF ≠ []) by (by intros E; rewrite E in HF).
  assert (HFP : kF ≠ kP) by (by apply kF_ne_kP).
  assert (HFB : kF ≠ kB) by (by apply kF_ne_kB).
  assert (HPB : kP ≠ kB) by (by apply kP_ne_kB).
  set (m' := <[kF := Symlink t]> _).
  assert (Hlink : fs.get m' kF = Some (Symlink t)) by (by apply get_insert_eq).
  assert (Hres : fs.get m' kP = Some (File result)).
  { unfold m'. rewrite get_insert_ne, get_delete_ne by done.
    rewrite get_insert_ne by (by apply not_eq_sym).
    by apply get_insert_eq, recordKey_nonempty. }
  split.
  - intros Hin. unfold contentOf.
    rewrite (readFile_link cwd _ _ t result); [|done|done| |by apply dirlike_patched].
    + erewrite readFile_file; [done| |by apply dirlike_patched].
      unfold t. by rewrite locate_patched.
    + unfold t.
      rewrite (proj2 (link_reaches_patched cwd filePath Hfile Hcwd) Hin).
      by rewrite locate_patched.
  - intros Hout Hnone. unfold contentOf, fs.readFile.
    change fs.max_symlinks with (S 39).
    rewrite (chase_link _ _ _ _ t Hlink Hfile). fold kF.
    assert (Hkey : locate (fs.parent kF) t ≠ kP).
    { intros E. apply Hout.
      apply (link_reaches_patched cwd filePath Hfile Hcwd).
      rewrite (locate_patched cwd) by done. exact E. }
    fold kF t in Hnone.
    rewrite (chase_here _ _ _ _ Missing); [done| |left; by apply dirlike_patched].
    unfold holds, m'.
    rewrite get_insert_ne, get_delete_ne by (intros E; by rewrite <- E, HF in Hnone).
    rewrite get_insert_ne.
    + by rewrite get_insert_ne by (by apply not_eq_sym).
    + unfold t, kF, kB. rewrite link_key by done. unfold recordKey.
      change ["patches"; basename filePath; basename filePath +:+ ".patched"]
        with (["patches"; basename filePath] ++ [basename filePath +:+ ".patched"]).
      change ["patches"; basename filePath;
              basename filePath +:+ ".original.backup"]
        with (["patches"; basename filePath]
              ++ [basename filePath +:+ ".original.backup"]).
      rewrite !app_assoc. intros E. apply app_inj_tail in E as [_ E].
      by apply append_inv_l in E.
Qed.


(** X13. [applyPatch] on a file that is applied already, lying in the
    working directory: when it returns, it has patched the patched text read
    through the link, and the backup reads as the new result like the patched
    result does; the original content is in neither. *)
Theorem second_apply_overwrites_the_backup filePath m m' :
  Forall is_name cwd →
  dirlike filePath = false →
  fs.parent (locate cwd filePath) = wd →
  fs.get m (locate cwd filePath) = Some (Symlink (patchedPath filePath)) →
  kindOf cwd (patchedPath filePath) m = Ok StatFile →
  kindOf cwd (backupPath filePath) m ≠ Ok StatSymbolicLink →
  applyPatch cwd parsePatch diffApply filePath m = (Ok tt, m') →
  ∃ patched text result,
    contentOf cwd filePath m = Ok patched
    ∧ contentOf cwd (patchPath filePath) m = Ok text
    ∧ first_patch (parsePatch text false) ≫= (λ p, diffApply patched p 3)
      = Ok (Some result)
    ∧ contentOf cwd (patchedPath filePath) m' = Ok result
    ∧ contentOf cwd (backupPath filePath) m' = Ok result.
Proof.
  intros Hcwd Hfile Hin HF (_ & patched & HP)%kindOf_file Hbackup Happly.
  pose proof (kindOf_not_link cwd _ _ (dirlike_backup _ Hfile) Hbackup) as HB.
  rewrite locate_patched in HP by done. rewrite locate_backup in HB by done.
  pose proof (proj2 (link_reaches_patched cwd filePath Hfile Hcwd) Hin) as Hkey.
  rewrite (locate_patched cwd) in Hkey by done.
  apply applyPatch_steps in Happly
    as (c0 & text & result & mA & mB & Hr & Hp & Hlib & HwA & HcB & Hun & ->).
  set (kF := locate cwd filePath) in *.
  set (kP := recordKey cwd filePath (basename filePath +:+ ".patched")) in *.
  set (kB := recordKey cwd filePath (basename filePath +:+ ".original.backup"))
    in *.
  set (t := patchedPath filePath) in *.
  assert (HkF : kF ≠ []) by (by intros E; rewrite E in HF).
  assert (HFP : kF ≠ kP) by (by apply kF_ne_kP).
  assert (HFB : kF ≠ kB) by (by apply kF_ne_kB).
  assert (HPB : kP ≠ kB) by (by apply kP_ne_kB).
  assert (Hthrough : ∀ (m0 : FS) c, fs.get m0 kF = Some (Symlink t) →
                       fs.get m0 kP = Some (File c) →
                       fs.readFile cwd filePath m0 = (Ok c, m0)).
  { intros m0 c H1 H2.
    apply (readFile_link cwd _ _ t);
      [done|done| |by apply dirlike_patched].
    rewrite <- H2. f_equal. exact Hkey. }
  rewrite (Hthrough m patched HF HP) in Hr. injection Hr as <-.
  apply writeFile_plain in HwA as [_ ->]; [|by apply dirlike_patched|].
  2:{ unfold t. rewrite locate_patched by done. fold kP. by rewrite HP. }
  unfold t in HcB. rewrite locate_patched in HcB by done. fold kP t in HcB.
  apply copyFile_inv in HcB as (c & Hr & Hw).
  rewrite (Hthrough _ result) in Hr;
    [|by rewrite get_insert_ne by (by apply not_eq_sym)
     |by apply get_insert_eq, recordKey_nonempty].
  injection Hr as <-.
  apply writeFile_plain in Hw as [_ ->]; [|by apply dirlike_backup|].
  2:{ rewrite locate_backup by done. fold kB. by rewrite get_insert_ne. }
  rewrite locate_backup by done. fold kB.
  exists patched, text, result. unfold contentOf.
  rewrite (Hthrough m patched HF HP), Hp.
  split; [done|]. split; [done|]. split; [done|]. split.
  - erewrite readFile_file; [done| |by apply dirlike_patched].
    unfold t. rewrite locate_patched by done. fold kP.
    rewrite get_insert_ne, get_delete_ne by done.
    rewrite get_insert_ne by (by apply not_eq_sym).
    by apply get_insert_eq, recordKey_nonempty.
  - erewrite readFile_file; [done| |by apply dirlike_backup].
    rewrite locate_backup by done. fold kB.
    rewrite get_insert_ne, get_delete_ne by done.
    by apply get_insert_eq, recordKey_nonempty.
Qed.

End CycleTheorems.

(** ** What the commands leave alone *)

Section Frame.

Import Path PathFacts.

Variable cwd : list string.
Context {patch : Type}.
Variable diffCreate : string → string → string → string → string → string.
Variable parsePatch : string → bool → result (list patch).
Variable diffApply : string → option patch → nat → result (option string).

Variable filePath : string.
Hypothesis Hfile : dirlike filePath = false.

Local Abbreviation wd := (normalizeSegs false cwd).
Local Abbreviation kF := (locate cwd filePath).
Local Abbreviation plain := (plain_record cwd filePath).
Local Abbreviation keys := (recordKeys cwd filePath).

Global Instance keeps_preorder x : PreOrder (keeps cwd filePath x).
Proof.
  split.
  - by intros m Hm.
  - intros m1 m2 m3 H12 H23 Hm. destruct (H12 Hm) as [Hm2 Hx2].
    destruct (H23 Hm2) as [Hm3 Hx3]. split; [done|].
    intros Hx. rewrite Hx3, Hx2; [done|done|]. by rewrite Hx2.
Qed.

Lemma recordKeys_elem y :
  y ∈ keys →
  ∃ field, field ∈ recordFields filePath ∧ y = recordKey cwd filePath field.
Proof.
  unfold recordKeys. intros (f & -> & Hf)%list_elem_of_fmap. eauto.
Qed.

Lemma recordKeys_nonempty y : y ∈ keys → y ≠ [].
Proof. intros (f & _ & ->)%recordKeys_elem. apply recordKey_nonempty. Qed.

Lemma recordKeys_length y : y ∈ keys → length y = length wd + 3.
Proof.
  intros (f & _ & ->)%recordKeys_elem. unfold recordKey.
  rewrite length_app. simpl. lia.
Qed.

Lemma recordKeys_field field :
  field ∈ recordFields filePath → recordKey cwd filePath field ∈ keys.
Proof. intros Hf. unfold recordKeys. by apply list_elem_of_fmap_2. Qed.

Lemma plain_free m y : plain m → y ∈ keys → free m y.
Proof. unfold plain_record. rewrite Forall_forall. auto. Qed.

Lemma plain_insert_file m k d : k ≠ [] → plain m → plain (<[k := File d]> m).
Proof.
  intros Hk H. unfold plain_record. eapply Forall_impl; [exact H|].
  intros y. by apply free_insert_file.
Qed.

Lemma plain_insert_other m k node : k ∉ keys → plain m → plain (<[k := node]> m).
Proof.
  intros Hk. unfold plain_record. rewrite !Forall_forall.
  intros H y Hy. apply free_insert_ne; [|by apply H].
  intros ->. by apply Hk.
Qed.

Lemma plain_delete m k : plain m → plain (delete k m).
Proof.
  intros H. unfold plain_record. eapply Forall_impl; [exact H|].
  intros y. apply free_delete.
Qed.

Lemma plain_same m m' :
  (∀ y, y ∈ keys → fs.get m' y = fs.get m y) → plain m → plain m'.
Proof.
  unfold plain_record. rewrite !Forall_forall.
  intros Hsame H y Hy. unfold free. rewrite Hsame by done. by apply H.
Qed.

(** An entry other than the fields of the record. *)
Variable x : list string.
Hypothesis Hxkeys : x ∉ keys.

Local Abbreviation R := (keeps cwd filePath x).

Lemma keeps_state {A} (prog : Promise A) :
  (∀ m, (prog m).2 = m) → preserves R prog.
Proof. intros H m. rewrite H. reflexivity. Qed.

Lemma keeps_insert_file m k d :
  k ≠ [] → k ≠ x → R m (<[k := File d]> m).
Proof.
  intros Hk Hkx Hm. split; [by apply plain_insert_file|].
  intros _. by rewrite get_insert_ne.
Qed.

Lemma keeps_delete m k : k ≠ x → R m (delete k m).
Proof.
  intros Hkx Hm. split; [by apply plain_delete|].
  intros _. by rewrite get_delete_ne.
Qed.

Lemma writeFile_keeps p d :
  locate cwd p ∈ keys → dirlike p = false →
  preserves R (fs.writeFile cwd p d).
Proof.
  intros Hp Hd m Hm.
  destruct (fs.writeFile cwd p d m) as [[[]|e] m'] eqn:Hw.
  - apply writeFile_plain in Hw as [_ ->]; [|done|].
    + simpl. apply keeps_insert_file; [by apply recordKeys_nonempty| |done].
      intros E. apply Hxkeys. by rewrite <- E.
    + intros t Ht. destruct (plain_free m _ Hm Hp) as [H|[c H]]; congruence.
  - apply writeFile_throw in Hw as ->. simpl. by split.
Qed.

Lemma readFile_keeps p : preserves R (fs.readFile cwd p).
Proof. apply keeps_state, readFile_state. Qed.

Lemma access_keeps p : preserves R (fs.access cwd p).
Proof. apply keeps_state, access_state. Qed.

Lemma lstat_keeps p : preserves R (fs.lstat cwd p).
Proof. apply keeps_state, lstat_state. Qed.

Lemma copyFile_keeps src dest :
  locate cwd dest ∈ keys → dirlike dest = false →
  preserves R (fs.copyFile cwd src dest).
Proof.
  intros Hp Hd. unfold fs.copyFile.
  apply preserves_bind; [apply _|apply readFile_keeps|intros c].
  by apply writeFile_keeps.
Qed.

Lemma unlink_keeps p : locate cwd p ≠ x → preserves R (fs.unlink cwd p).
Proof.
  intros Hp m. destruct (unlink_state cwd p m) as [->| ->];
    [reflexivity|by apply keeps_delete].
Qed.

Lemma mkdir_keeps_record p :
  length (locate cwd p) < length wd + 3 → preserves R (fs.mkdir cwd p).
Proof.
  intros Hlen m Hm. split.
  - apply (plain_same m); [|done]. intros y Hy.
    unfold fs.mkdir. apply mkdirp_get. right.
    rewrite length_rev, (recordKeys_length y Hy). lia.
  - intros Hget. destruct (fs.get m x) as [node|] eqn:Hnode; [|done].
    by apply mkdir_keeps.
Qed.

Lemma field_key_in field :
  field ∈ recordFields filePath → proper field →
  locate cwd (join (patchDir filePath) field) ∈ keys.
Proof.
  intros Hf Hp. rewrite field_locate; [|by apply basename_proper|done].
  by apply recordKeys_field.
Qed.

Lemma snapshot_key_in : locate cwd (snapshotPath filePath) ∈ keys.
Proof. rewrite locate_snapshot by done. apply recordKeys_field, snapshot_field. Qed.

Lemma pathRecord_key_in : locate cwd (pathRecord filePath) ∈ keys.
Proof.
  rewrite locate_pathRecord by done. apply recordKeys_field, pathRecord_field.
Qed.

Lemma patch_key_in : locate cwd (patchPath filePath) ∈ keys.
Proof. rewrite locate_patch by done. apply recordKeys_field, patch_field. Qed.

Lemma patched_key_in : locate cwd (patchedPath filePath) ∈ keys.
Proof. rewrite locate_patched by done. apply recordKeys_field, patched_field. Qed.

Lemma backup_key_in : locate cwd (backupPath filePath) ∈ keys.
Proof. rewrite locate_backup by done. apply recordKeys_field, backup_field. Qed.

Lemma key_ne_x p : locate cwd p ∈ keys → locate cwd p ≠ x.
Proof. intros Hp E. apply Hxkeys. by rewrite <- E. Qed.

(** The commands that come before [apply]: they write to fields of the
    record only. *)
Lemma tracking_keeps c :
  c ≠ Apply → c ≠ Revert →
  preserves R (perform cwd diffCreate parsePatch diffApply filePath c).
Proof.
  intros Happly Hrevert. destruct c as [|text| | |]; cbn [perform]; [| | |done..].
  - rewrite createPatch_eq.
    apply preserves_bind; [apply _| |intros _].
    { apply preserves_try_catch; [apply _| |].
      - apply mkdir_keeps_record. rewrite locate_patches.
        rewrite length_app. simpl. lia.
      - intros e. case_decide; [apply preserves_throw|apply preserves_ret]; apply _. }
    apply preserves_bind; [apply _| |intros _].
    { apply mkdir_keeps_record. rewrite locate_patchDir by done.
      rewrite length_app. simpl. lia. }
    apply preserves_bind; [apply _|apply readFile_keeps|intros c].
    apply preserves_bind; [apply _| |intros _].
    { apply writeFile_keeps; [apply snapshot_key_in|by apply dirlike_snapshot]. }
    apply writeFile_keeps; [apply pathRecord_key_in|by apply dirlike_pathRecord].
  - apply writeFile_keeps; [apply snapshot_key_in|by apply dirlike_snapshot].
  - rewrite commitPatch_eq.
    apply preserves_bind; [apply _|apply readFile_keeps|intros c].
    apply preserves_bind; [apply _|apply readFile_keeps|intros c'].
    apply preserves_bind; [apply _| |intros _].
    { apply writeFile_keeps; [apply patch_key_in|by apply dirlike_patch]. }
    apply preserves_catch_ignore, unlink_keeps, key_ne_x, snapshot_key_in.
Qed.

Lemma run_tracking_keeps cs st :
  Forall (λ c, c ≠ Apply ∧ c ≠ Revert) cs →
  R st.2 (run cwd diffCreate parsePatch diffApply filePath cs st).2.
Proof.
  intros Hcs. revert st.
  induction Hcs as [|c cs [Happly Hrevert] _ IH]; intros [ph m]; [reflexivity|].
  simpl. etrans; [|apply IH]. unfold step. cbn [fst snd].
  pose proof (tracking_keeps c Happly Hrevert m) as H.
  by destruct (perform cwd diffCreate parsePatch diffApply filePath c m)
    as [[[]|e] m'].
Qed.

(** [apply] and [revert] write to the live path as well. *)
Hypothesis Hx : x ≠ kF.
Hypothesis Hlive : kF ∉ keys.

Lemma symlink_keeps t : preserves R (fs.symlink cwd t filePath).
Proof.
  intros m. destruct (fs.symlink cwd t filePath m) as [[[]|e] m'] eqn:Hs.
  - apply symlink_inv in Hs as (-> & _). simpl. intros Hm.
    split; [by apply plain_insert_other|].
    intros _. by rewrite get_insert_ne by (by apply not_eq_sym).
  - simpl. unfold fs.symlink in Hs.
    destruct (fs.get m kF); [by injection Hs as _ <-|].
    destruct (dirlike filePath); [by injection Hs as _ <-|].
    destruct (fs.create kF (Symlink t) m); [done|by injection Hs as _ <-].
Qed.

(** The one write through the live path: [revertPatch] makes it where it
    has just removed the link. *)
Lemma restore_keeps src {A} (rest : Promise A) :
  preserves R rest →
  preserves R (fs.unlink cwd filePath;; fs.copyFile cwd src filePath;; rest).
Proof.
  intros Hrest m. unfold fs.copyFile. run_promise.
  destruct (fs.unlink cwd filePath m) as [[[]|e] mU] eqn:Hu.
  2:{ apply unlink_throw in Hu as ->. reflexivity. }
  apply unlink_inv in Hu as (-> & _ & HkF & _).
  assert (HU : R m (delete kF m)) by (by apply keeps_delete, not_eq_sym).
  destruct (fs.readFile cwd src (delete kF m)) as [[c|e] mR] eqn:Hr.
  2:{ pose proof (readFile_state cwd src (delete kF m)) as Hst.
      rewrite Hr in Hst. simpl in *. by subst mR. }
  apply readFile_inv in Hr as [-> _].
  destruct (fs.writeFile cwd filePath c (delete kF m)) as [[[]|e] mC] eqn:Hw.
  2:{ apply writeFile_throw in Hw as ->. done. }
  apply writeFile_plain in Hw as [_ ->]; [|done|].
  2:{ intros t. by rewrite get_delete_eq. }
  etrans; [exact HU|]. etrans; [|apply Hrest].
  by apply keeps_insert_file, not_eq_sym.
Qed.

Lemma perform_keeps c :
  preserves R (perform cwd diffCreate parsePatch diffApply filePath c).
Proof.
  destruct c as [|text| | |]; try (by apply tracking_keeps); cbn [perform].
  - rewrite applyPatch_eq.
    apply preserves_bind; [apply _|apply access_keeps|intros _].
    apply preserves_bind; [apply _|apply readFile_keeps|intros c].
    apply preserves_bind; [apply _|apply readFile_keeps|intros c'].
    apply preserves_bind; [apply _|apply preserves_call; apply _|intros patches].
    apply preserves_bind; [apply _|apply preserves_call; apply _|intros [result|]].
    2:{ apply preserves_throw; apply _. }
    apply preserves_bind; [apply _| |intros _].
    { apply writeFile_keeps; [apply patched_key_in|by apply dirlike_patched]. }
    apply preserves_bind; [apply _| |intros _].
    { apply copyFile_keeps; [apply backup_key_in|by apply dirlike_backup]. }
    apply preserves_bind; [apply _| |intros _].
    { by apply unlink_keeps, not_eq_sym. }
    apply symlink_keeps.
  - rewrite revertPatch_eq.
    apply preserves_bind; [apply _|apply access_keeps|intros _].
    apply preserves_bind; [apply _|apply lstat_keeps|intros stats].
    destruct (isSymbolicLink stats); [|apply preserves_ret; apply _].
    apply restore_keeps.
    apply preserves_bind; [apply _| |intros _].
    { apply preserves_catch_ignore, unlink_keeps, key_ne_x, backup_key_in. }
    apply preserves_catch_ignore, unlink_keeps, key_ne_x, patched_key_in.
Qed.

Lemma run_keeps cs st :
  R st.2 (run cwd diffCreate parsePatch diffApply filePath cs st).2.
Proof.
  revert st. induction cs as [|c cs IH]; intros [ph m]; [reflexivity|].
  simpl. etrans; [|apply IH]. unfold step. cbn [fst snd].
  pose proof (perform_keeps c m) as H.
  by destruct (perform cwd diffCreate parsePatch diffApply filePath c m)
    as [[[]|e] m'].
Qed.

End Frame.

Section FrameTheorem.

Import Path PathFacts.

Variable cwd : list string.
Context {patch : Type}.
Variable diffCreate : string → string → string → string → string → string.
Variable parsePatch : string → bool → result (list patch).
Variable diffApply : string → option patch → nat → result (option string).

(** X17. Frame: start from a plain record of a live path that is none of
    its own fields.  Whatever commands are run on the file, returning or
    throwing, every entry of the file system other than the live path and the
    five fields of the record stays as it was; the records of other files
    are among them. *)
Theorem commands_leave_other_entries_alone filePath cs ph m x node :
  dirlike filePath = false →
  plain_record cwd filePath m →
  locate cwd filePath ∉ recordKeys cwd filePath →
  x ≠ locate cwd filePath →
  x ∉ recordKeys cwd filePath →
  fs.get m x = Some node →
  fs.get (run cwd diffCreate parsePatch diffApply filePath cs (ph, m)).2 x
  = Some node.
Proof.
  intros Hfile Hplain Hlive Hx Hxkeys Hget.
  destruct (run_keeps cwd diffCreate parsePatch diffApply filePath Hfile
              x Hxkeys Hx Hlive cs (ph, m) Hplain) as [_ H].
  rewrite <- Hget. apply H. simpl. by rewrite Hget.
Qed.

(** X27. The commands that come before [apply] leave the live file alone:
    from a plain record of a live path that is none of its own fields,
    whatever sequence of [create], edits of the snapshot and [commit] is run,
    returning or throwing, the entry at the live path is as it was. *)
Theorem tracking_leaves_the_live_file filePath cs ph m node :
  dirlike filePath = false →
  plain_record cwd filePath m →
  locate cwd filePath ∉ recordKeys cwd filePath →
  Forall (λ c, c ≠ Apply ∧ c ≠ Revert) cs →
  fs.get m (locate cwd filePath) = Some node →
  fs.get (run cwd diffCreate parsePatch diffApply filePath cs (ph, m)).2
    (locate cwd filePath)
  = Some node.
Proof.
  intros Hfile Hplain Hlive Hcs Hget.
  destruct (run_tracking_keeps cwd diffCreate parsePatch diffApply filePath
              Hfile (locate cwd filePath) Hlive cs (ph, m) Hcs Hplain) as [_ H].
  rewrite <- Hget. apply H. simpl. by rewrite Hget.
Qed.

End FrameTheorem.

(** * [applyPatchManually] *)

Section ManualFacts.

Import Manual.

Local Open Scope Z_scope.

Lemma splitLines_nonempty s : splitLines s ≠ [].
Proof.
  induction s as [|c s IH]; [done|]. cbn [splitLines].
  destruct (Ascii.eqb c newline); [done|]. by destruct (splitLines s).
Qed.

Lemma joinLines_cons_char c l ls :
  joinLines (String c l :: ls) = String c (joinLines (l :: ls)).
Proof. by destruct ls. Qed.

(** Splitting at the line ends and joining again gives the text back. *)
Lemma joinLines_splitLines s : joinLines (splitLines s) = s.
Proof.
  induction s as [|c s IH]; [done|]. cbn [splitLines].
  pose proof (splitLines_nonempty s) as Hne.
  destruct (Ascii.eqb c newline) eqn:Hc.
  - apply Ascii.eqb_eq in Hc as ->.
    destruct (splitLines s) as [|l ls]; [done|].
    change (joinLines ("" :: l :: ls))%string
      with (String newline (joinLines (l :: ls))).
    by rewrite IH.
  - destruct (splitLines s) as [|l ls]; [done|].
    rewrite joinLines_cons_char. by rewrite IH.
Qed.

(** The loop body reads a line through [classify] alone. *)
Lemma change_stepMark st c :
  change st c = match essence c with Some k => stepMark st k | None => st end.
Proof.
  destruct st as [a i]. unfold change, essence, classify, stepMark.
  destruct (startsWith "-" c); [done|].
  destruct (startsWith "+" c); [done|].
  by destruct (startsWith "\" c).
Qed.

Lemma fold_change_essence cs st :
  fold_left change cs st = fold_left stepMark (omap essence cs) st.
Proof.
  revert st. induction cs as [|c cs IH]; intros st; [done|].
  cbn [fold_left omap list_omap]. rewrite change_stepMark.
  destruct (essence c) as [k|]; [|apply IH]. cbn [fold_left]. apply IH.
Qed.

(** [splice] at an index inside the array. *)
Lemma splice_insert (pre post items : list string) :
  splice (pre ++ post) (Z.of_nat (length pre)) 0 items = pre ++ items ++ post.
Proof.
  unfold splice.
  replace (Z.of_nat (length pre) <? 0) with false by (symmetry; apply Z.ltb_ge; lia).
  rewrite Z.min_l by (rewrite length_app; lia).
  rewrite Nat2Z.id, Nat.add_0_r.
  by rewrite take_app_length, drop_app_length.
Qed.

Lemma splice_delete (pre post : list string) s :
  splice (pre ++ s :: post) (Z.of_nat (length pre)) 1 [] = pre ++ post.
Proof.
  unfold splice.
  replace (Z.of_nat (length pre) <? 0) with false by (symmetry; apply Z.ltb_ge; lia).
  rewrite Z.min_l by (rewrite length_app; lia).
  rewrite Nat2Z.id.
  rewrite take_app_length. simpl. f_equal.
  replace (length pre + 1)%nat with (length (pre ++ [s]))
    by (rewrite length_app; simpl; lia).
  by rewrite (cons_middle s pre post), app_assoc, drop_app_length.
Qed.

(** [splice] at or after the end appends. *)
Lemma splice_append (a items : list string) i :
  Z.of_nat (length a) ≤ i → splice a i 0 items = a ++ items.
Proof.
  intros Hi. unfold splice.
  replace (i <? 0) with false by (symmetry; apply Z.ltb_ge; lia).
  rewrite Z.min_r by lia. rewrite Nat2Z.id, Nat.add_0_r.
  by rewrite take_ge, drop_ge, app_nil_r by lia.
Qed.

(** [splice] at [-1] inserts before the last element. *)
Lemma splice_before_last (init items : list string) z :
  splice (init ++ [z]) (-1) 0 items = init ++ items ++ [z].
Proof.
  unfold splice. cbn [Z.ltb Z.compare].
  rewrite length_app. cbn [length].
  replace (Z.to_nat ((Z.of_nat (length init + 1) + -1) `max` 0))
    with (length init) by lia.
  by rewrite Nat.add_0_r, take_app_length, drop_app_length.
Qed.

Lemma change_classify st c : change st c = stepMark st (classify c).
Proof.
  destruct st as [a i]. unfold change, classify, stepMark.
  destruct (startsWith "-" c); [done|].
  destruct (startsWith "+" c); [done|].
  by destruct (startsWith "\" c).
Qed.

Lemma classify_added c t : classify c = Added t → t = substring1 c.
Proof. unfold classify. repeat case_match; congruence. Qed.

(** The lines of a hunk, run at the place where its old side stands. *)
Lemma hunk_lines_run cs pre post :
  fold_left change cs (pre ++ omap oldLine cs ++ post, Z.of_nat (length pre))
  = (pre ++ omap newLine cs ++ post,
     Z.of_nat (length (pre ++ omap newLine cs))).
Proof.
  revert pre. induction cs as [|c cs IH]; intros pre.
  { cbn [fold_left omap list_omap]. by rewrite !app_nil_r. }
  cbn [fold_left omap list_omap]. rewrite change_classify.
  assert (Ho : oldLine c = match classify c with
                           | Removed | Context => Some (substring1 c)
                           | _ => None
                           end) by done.
  assert (Hn : newLine c = match classify c with
                           | Added _ | Context => Some (substring1 c)
                           | _ => None
                           end) by done.
  destruct (classify c) as [|t| |] eqn:Hk; rewrite Ho, Hn; cbn [stepMark].
  - rewrite <- app_comm_cons.
    replace (Z.of_nat (length pre) <? _) with true.
    2:{ symmetry. apply Z.ltb_lt. rewrite length_app. simpl. lia. }
    rewrite splice_delete. apply IH.
  - rewrite splice_insert. apply classify_added in Hk as ->.
    replace (Z.of_nat (length pre) + 1)
      with (Z.of_nat (length (pre ++ [substring1 c])))
      by (rewrite length_app; simpl; lia).
    rewrite (app_assoc pre [substring1 c]). rewrite IH.
    by rewrite <- !app_assoc.
  - rewrite <- !app_comm_cons.
    replace (Z.of_nat (length pre) + 1)
      with (Z.of_nat (length (pre ++ [substring1 c])))
      by (rewrite length_app; simpl; lia).
    rewrite (cons_middle (substring1 c) pre), app_assoc. rewrite IH.
    by rewrite <- !app_assoc.
  - apply IH.
Qed.

Lemma applyHunk_placed pre post h :
  oldStart h = Z.of_nat (length pre) + 1 →
  applyHunk (pre ++ oldSide h ++ post) h = pre ++ newSide h ++ post.
Proof.
  intros Hstart. unfold applyHunk, oldSide, newSide.
  replace (oldStart h - 1) with (Z.of_nat (length pre)) by lia.
  by rewrite hunk_lines_run.
Qed.

(** Lines that are context or notes leave the array as it is. *)
Lemma idle_lines_run cs a i :
  Forall (λ c, classify c = Context ∨ classify c = Note) cs →
  (fold_left change cs (a, i)).1 = a.
Proof.
  intros H. revert i. induction H as [|c cs [Hc|Hc] _ IH]; intros i; [done|..];
    cbn [fold_left]; rewrite change_classify, Hc; apply IH.
Qed.

(** Past the end of the array nothing is removed and what is added is
    appended. *)
Lemma late_lines_run cs a i :
  Z.of_nat (length a) ≤ i →
  (fold_left change cs (a, i)).1 = a ++ omap addedLine cs.
Proof.
  revert a i. induction cs as [|c cs IH]; intros a i Hi.
  { cbn [fold_left omap list_omap]. by rewrite app_nil_r. }
  cbn [fold_left omap list_omap]. rewrite change_classify.
  assert (Ha : addedLine c = match classify c with
                             | Added text => Some text
                             | _ => None
                             end) by done.
  destruct (classify c) as [|t| |] eqn:Hk; rewrite Ha; cbn [stepMark].
  - replace (i <? Z.of_nat (length a)) with false
      by (symmetry; apply Z.ltb_ge; lia).
    by apply IH.
  - rewrite splice_append by done.
    rewrite IH by (rewrite length_app; simpl; lia).
    by rewrite <- app_assoc.
  - apply IH. lia.
  - by apply IH.
Qed.

(** ** The sort *)

Lemma insertHunk_perm h l : insertHunk h l ≡ₚ h :: l.
Proof.
  induction l as [|h' l IH]; [done|]. cbn [insertHunk].
  destruct (oldStart h' <=? oldStart h); [done|].
  rewrite IH. apply Permutation_swap.
Qed.

Lemma sortHunks_perm l : sortHunks l ≡ₚ l.
Proof.
  induction l as [|h l IH]; [done|]. cbn [sortHunks foldr].
  rewrite insertHunk_perm. by f_equiv.
Qed.

Lemma insertHunk_sorted h l :
  StronglySorted later l → StronglySorted later (insertHunk h l).
Proof.
  induction 1 as [|h' l Hl IH Hh']; [by repeat constructor|].
  cbn [insertHunk]. destruct (oldStart h' <=? oldStart h) eqn:Hcmp.
  - apply Z.leb_le in Hcmp. constructor; [by constructor|].
    constructor; [done|].
    eapply Forall_impl; [exact Hh'|]. unfold later. intros b Hb. lia.
  - apply Z.leb_gt in Hcmp. constructor; [done|].
    rewrite insertHunk_perm. constructor; [unfold later; lia|done].
Qed.

Lemma sortHunks_sorted l : StronglySorted later (sortHunks l).
Proof.
  induction l as [|h l IH]; [constructor|]. by apply insertHunk_sorted.
Qed.

Lemma sorted_strict l :
  StronglySorted later l → NoDup (oldStart <$> l) →
  StronglySorted strictly_later l.
Proof.
  induction 1 as [|h l Hl IH Hh]; [constructor|].
  rewrite fmap_cons, NoDup_cons. intros [Hnotin Hnd].
  constructor; [by apply IH|].
  rewrite Forall_forall in Hh |- *. intros b Hb.
  specialize (Hh b Hb). unfold later, strictly_later in *.
  assert (oldStart b ≠ oldStart h); [|lia].
  intros E. apply Hnotin. rewrite <- E. by apply list_elem_of_fmap_2.
Qed.

Local Instance strictly_later_antisymm : AntiSymm (=) strictly_later.
Proof. intros a b. unfold strictly_later. lia. Qed.

(** Hunks with different line numbers come out of the sort in one order,
    whatever order they went in. *)
Lemma sortHunks_unique l l' :
  l ≡ₚ l' → NoDup (oldStart <$> l) → sortHunks l = sortHunks l'.
Proof.
  intros Hperm Hnd.
  apply (StronglySorted_unique strictly_later).
  - apply sorted_strict; [apply sortHunks_sorted|].
    by rewrite sortHunks_perm.
  - apply sorted_strict; [apply sortHunks_sorted|].
    by rewrite sortHunks_perm, <- Hperm.
  - by rewrite !sortHunks_perm.
Qed.

Lemma sortHunks_of_sorted l :
  StronglySorted strictly_later l → sortHunks l = l.
Proof.
  intros Hl. apply (StronglySorted_unique strictly_later); [|done|].
  - apply sorted_strict; [apply sortHunks_sorted|].
    rewrite sortHunks_perm. clear -Hl.
    induction Hl as [|h l Hl IH Hh]; [constructor|].
    rewrite fmap_cons. apply NoDup_cons. split; [|done].
    intros (b & E & Hb)%list_elem_of_fmap.
    rewrite Forall_forall in Hh. specialize (Hh b Hb).
    unfold strictly_later in Hh. lia.
  - apply sortHunks_perm.
Qed.

End ManualFacts.

Section ManualTheorems.

Import Manual.

Local Open Scope Z_scope.

Lemma sorted_rev {A} (R : relation A) (l : list A) :
  StronglySorted R l → StronglySorted (flip R) (rev l).
Proof.
  induction 1 as [|a l Hl IH Ha]; [constructor|].
  cbn [rev]. apply StronglySorted_app_2; [|done|by repeat constructor].
  intros x1 x2 Hx1 Hx2. apply list_elem_of_singleton in Hx2 as ->.
  rewrite Forall_forall in Ha. apply Ha. by rewrite (Permutation_rev l).
Qed.

Lemma placed_bound off segs :
  placed off segs → Forall (λ h, Z.of_nat off < oldStart h) segs.*2.
Proof.
  revert off. induction segs as [|[g h] segs IH]; intros off; [constructor|].
  intros [Hstart Hp]. rewrite fmap_cons. constructor; [simpl; lia|].
  eapply Forall_impl; [apply (IH _ Hp)|]. intros b Hb. simpl in Hb. lia.
Qed.

Lemma placed_ascending off segs :
  placed off segs → StronglySorted (flip later) segs.*2.
Proof.
  revert off. induction segs as [|[g h] segs IH]; intros off; [constructor|].
  intros [Hstart Hp]. rewrite fmap_cons. constructor; [by apply (IH _ Hp)|].
  eapply Forall_impl; [apply (placed_bound _ _ Hp)|].
  intros b Hb. unfold flip, later. simpl in *. lia.
Qed.

(** Hunks that fit the layout, taken from the last to the first. *)
Lemma placed_run segs pre rest :
  placed (length pre) segs →
  fold_left applyHunk (rev segs.*2) (pre ++ oldText segs rest)
  = pre ++ newText segs rest.
Proof.
  revert pre. induction segs as [|[g h] segs IH]; intros pre; [done|].
  intros [Hstart Hp]. rewrite fmap_cons. cbn [snd rev oldText newText].
  rewrite fold_left_app. cbn [fold_left].
  replace (pre ++ g ++ oldSide h ++ oldText segs rest)
    with ((pre ++ g ++ oldSide h) ++ oldText segs rest)
    by (by rewrite <- !app_assoc).
  rewrite IH.
  2:{ rewrite !length_app.
      by replace (length pre + (length g + length (oldSide h)))%nat
        with (length pre + length g + length (oldSide h))%nat by lia. }
  rewrite <- !app_assoc. rewrite (app_assoc pre g).
  rewrite applyHunk_placed; [by rewrite <- app_assoc|].
  by rewrite length_app.
Qed.

Lemma sortHunks_placed hs segs :
  placed 0 segs → hs ≡ₚ segs.*2 → NoDup (oldStart <$> hs) →
  sortHunks hs = rev segs.*2.
Proof.
  intros Hp Hperm Hnd.
  assert (Hrev : hs ≡ₚ rev segs.*2) by (by rewrite <- Permutation_rev).
  rewrite (sortHunks_unique hs (rev segs.*2)) by done.
  apply sortHunks_of_sorted, sorted_strict.
  - apply (sorted_rev (flip later)). by apply (placed_ascending 0).
  - by rewrite <- Hrev.
Qed.

(** X20. Correctness on a text the hunks fit: when the lines of the
    content are gaps and the old sides of the hunks in turn, each hunk
    starting at its [oldStart], and no two hunks start at the same line,
    [applyPatchManually] returns the same layout with the new sides, in
    whatever order the patch lists the hunks. *)
Theorem manual_applies_placed_hunks content hs segs rest :
  splitLines content = oldText segs rest →
  placed 0 segs →
  hs ≡ₚ segs.*2 →
  NoDup (oldStart <$> hs) →
  applyPatchManually content {| hunks := Some hs |}
  = joinLines (newText segs rest).
Proof.
  intros Hsplit Hp Hperm Hnd. unfold applyPatchManually. cbn [hunks from_option id].
  rewrite (sortHunks_placed hs segs), Hsplit by done.
  pose proof (placed_run segs [] rest Hp) as H. cbn [app] in H. by rewrite H.
Qed.

(** X21. The order of the hunks in the patch does not bear on the result
    when no two of them start at the same line: the sort puts them in one
    order. *)
Theorem manual_ignores_hunk_order content hs hs' :
  hs ≡ₚ hs' →
  NoDup (oldStart <$> hs) →
  applyPatchManually content {| hunks := Some hs |}
  = applyPatchManually content {| hunks := Some hs' |}.
Proof.
  intros Hperm Hnd. unfold applyPatchManually. cbn [hunks from_option id].
  by rewrite (sortHunks_unique hs hs').
Qed.

Lemma applyHunk_alike a h h' : alike h h' → applyHunk a h = applyHunk a h'.
Proof.
  intros [Hstart Hlines]. unfold applyHunk.
  by rewrite !fold_change_essence, Hstart, Hlines.
Qed.

Lemma insertHunk_alike h h' l l' :
  alike h h' → Forall2 alike l l' →
  Forall2 alike (insertHunk h l) (insertHunk h' l').
Proof.
  intros Hh Hl. induction Hl as [|b b' l l' Hb Hl IH].
  { cbn [insertHunk]. constructor; [done|constructor]. }
  cbn [insertHunk]. rewrite (proj1 Hh), (proj1 Hb).
  destruct (oldStart b' <=? oldStart h').
  - constructor; [done|]. by constructor.
  - by constructor.
Qed.

Lemma sortHunks_alike l l' :
  Forall2 alike l l' → Forall2 alike (sortHunks l) (sortHunks l').
Proof.
  induction 1 as [|h h' l l' Hh Hl IH]; [constructor|].
  by apply insertHunk_alike.
Qed.

(** X22. What is never looked at: [applyPatchManually] reads of a hunk
    its [oldStart], the first character of each line and the text of the
    added lines.  The text of the removed and of the context lines is not
    compared with the content, and lines starting with a backslash are
    skipped: hunks alike in the rest give the same result. *)
Theorem manual_reads_marks_only content hs hs' :
  Forall2 alike hs hs' →
  applyPatchManually content {| hunks := Some hs |}
  = applyPatchManually content {| hunks := Some hs' |}.
Proof.
  intros H%sortHunks_alike. unfold applyPatchManually. cbn [hunks from_option id].
  f_equal. generalize (splitLines content).
  induction H as [|h h' l l' Hh Hl IH]; intros a; [done|].
  cbn [fold_left]. by rewrite (applyHunk_alike a h h'), IH.
Qed.

(** X19. Nothing to do: with no hunks, or hunks of context lines and notes
    only, [applyPatchManually] returns the content as it is; splitting at the
    line ends and joining again loses nothing. *)
Theorem manual_without_changes content patch :
  Forall idle (default [] (hunks patch)) →
  applyPatchManually content patch = content.
Proof.
  intros H. unfold applyPatchManually.
  rewrite <- (sortHunks_perm (default [] (hunks patch))) in H.
  rewrite <- (joinLines_splitLines content) at 2. f_equal.
  generalize (splitLines content).
  induction H as [|h l Hh Hl IH]; intros a; [done|].
  cbn [fold_left]. unfold applyHunk at 2. by rewrite idle_lines_run, IH.
Qed.

(** X23. Past the end: a hunk whose [oldStart] lies beyond the last line
    removes nothing and has its added lines appended. *)
Theorem manual_past_the_end content h :
  Z.of_nat (length (splitLines content)) < oldStart h →
  applyPatchManually content {| hunks := Some [h] |}
  = joinLines (splitLines content ++ added h).
Proof.
  intros Hlate. unfold applyPatchManually, applyHunk, added.
  cbn [hunks from_option id sortHunks foldr insertHunk fold_left].
  by rewrite late_lines_run by lia.
Qed.

Lemma plus_lines_old (ts : list string) :
  omap oldLine (String "+" <$> ts) = [].
Proof. induction ts as [|t ts IH]; [done|]. by rewrite fmap_cons. Qed.

Lemma plus_lines_new (ts : list string) :
  omap newLine (String "+" <$> ts) = ts.
Proof.
  induction ts as [|t ts IH]; [done|]. rewrite fmap_cons.
  cbn [omap list_omap]. by rewrite IH.
Qed.

(** X24. Line number zero, as in the hunk of a new file: the index is
    [-1], which [splice] counts from the end, so the first added line goes in
    before the last line of the content and the others go to the front. *)
Theorem manual_at_line_zero content init z t ts h :
  splitLines content = init ++ [z] →
  oldStart h = 0 →
  lines h = String "+" <$> (t :: ts) →
  applyPatchManually content {| hunks := Some [h] |}
  = joinLines (ts ++ init ++ [t; z]).
Proof.
  intros Hsplit Hstart Hlines. unfold applyPatchManually, applyHunk.
  cbn [hunks from_option id sortHunks foldr insertHunk fold_left].
  rewrite Hsplit, Hstart, Hlines, fmap_cons. cbn [fold_left].
  rewrite change_classify.
  change (classify (String "+" t)) with (Added t). cbn [stepMark].
  rewrite splice_before_last.
  pose proof (hunk_lines_run (String "+" <$> ts) [] (init ++ [t] ++ [z])) as H.
  rewrite plus_lines_old, plus_lines_new in H.
  change (0 - 1 + 1) with (Z.of_nat (length (@nil string))).
  cbn [app] in H |- *. by rewrite H.
Qed.

End ManualTheorems.

(** * The command line *)

Section CliTheorems.

Import Path PathFacts.

Variable cwd : list string.
Context {patch : Type}.
Variable diffCreate : string → string → string → string → string → string.
Variable parsePatch : string → bool → result (list patch).
Variable diffApply : string → option patch → nat → result (option string).

Local Abbreviation main := (Cli.main cwd diffCreate parsePatch diffApply).

(** X25. The subcommands [apply], [revert] and [commit] on a file that
    has no record: one line on the error stream with the message of the
    [ENOENT], status 1, nothing on the output stream, and the file system as
    it was. *)
Theorem cli_fails_without_record file m :
  dirlike file = false →
  untracked cwd m →
  let failure := Cli.Outcome [Cli.ConsoleError "Error:" (SystemError ENOENT)] 1 in
  main Cli.Apply file m = (failure, m)
  ∧ main Cli.Revert file m = (failure, m)
  ∧ (∀ content, contentOf cwd file m = Ok content →
       main Cli.Commit file m = (failure, m)).
Proof.
  intros Hfile Hun failure.
  assert (Hfield : ∀ x, fs.get m (recordKey cwd file x) = None).
  { intros x. apply (untracked_get cwd m [basename file; x] Hun). }
  unfold Cli.main, Cli.action.
  rewrite applyPatch_without_patch, revertPatch_without_backup by done.
  split; [done|]. split; [done|].
  intros content Hc.
  by rewrite (commitPatch_without_snapshot cwd diffCreate file m content).
Qed.

(** X26. The subcommand [apply] with a patch that does not fit the live
    file: the line [Error: Failed to apply patch] on the error stream, status
    1, and the file system as it was. *)
Theorem cli_reports_conflict file m originalContent patchContent patches :
  fs.access cwd (patchPath file) m = (Ok tt, m) →
  fs.readFile cwd file m = (Ok originalContent, m) →
  fs.readFile cwd (patchPath file) m = (Ok patchContent, m) →
  parsePatch patchContent false = Ok patches →
  diffApply originalContent (head patches) 3 = Ok None →
  main Cli.Apply file m
  = (Cli.Outcome [Cli.ConsoleError "Error:" (Error "Failed to apply patch")] 1,
     m).
Proof.
  intros Hacc Horig Hpatch Hparse Happly.
  unfold Cli.main, Cli.action. rewrite applyPatch_eq. run_promise.
  by rewrite Hacc, Horig, Hpatch, Hparse, Happly.
Qed.

(** X28. The subcommand [revert] on a file that is not applied but has a
    backup, as a failed [apply] leaves it: nothing is reverted and nothing is
    changed, yet the success line is printed and the status is 0. *)
Theorem cli_revert_reports_success_without_reverting file m stats :
  fs.lstat cwd file m = (Ok stats, m) →
  isSymbolicLink stats = false →
  fs.access cwd (backupPath file) m = (Ok tt, m) →
  main Cli.Revert file m
  = (Cli.Outcome [Cli.ConsoleLog ("Patch reverted from " +:+ file)] 0, m).
Proof.
  intros Hstat Hlink Hacc. unfold Cli.main, Cli.action.
  rewrite revertPatch_eq. run_promise.
  by rewrite Hacc, Hstat, Hlink.
Qed.

End CliTheorems.

(** * The further properties on the example worlds *)

Section MoreExamples.

Import Path.

Local Abbreviation applyPatch' :=
  (applyPatch Ex.cwd RefDiff.parsePatch RefDiff.diffApply).
Local Abbreviation commitPatch' := (commitPatch Ex.cwd RefDiff.diffCreate).
Local Abbreviation main' :=
  (Cli.main Ex.cwd RefDiff.diffCreate RefDiff.parsePatch RefDiff.diffApply).


Lemma cwd_names : Forall is_name Ex.cwd.
Proof. repeat constructor; done. Qed.

Lemma create_fails_below_a_file_witness :
  ensurePatchesDir Ex.cwd Cases.blocked = (Ok tt, Cases.blocked)
  ∧ createPatch Ex.cwd "a.txt" Cases.blocked
    = (Throw (SystemError ENOTDIR), Cases.blocked).
Proof.
  apply (create_fails_below_a_file Ex.cwd "a.txt" Cases.blocked).
  - reflexivity.
  - vm_compute. reflexivity.
  - vm_compute. reflexivity.
Defined.

Lemma create_of_missing_file_leaves_directories_witness :
  let r := createPatch Ex.cwd "b.txt" Ex.world in
  r.1 = Throw (SystemError ENOENT)
  ∧ kindOf Ex.cwd PATCHES_DIR r.2 = Ok StatDirectory
  ∧ kindOf Ex.cwd (patchDir "b.txt") r.2 = Ok StatDirectory.
Proof.
  apply (create_of_missing_file_leaves_directories Ex.cwd "b.txt" Ex.world).
  - apply cwd_names.
  - reflexivity.
  - apply world_untracked.
  - vm_compute. reflexivity.
  - vm_compute. reflexivity.
  - vm_compute. discriminate.
  - vm_compute. discriminate.
Defined.

Lemma operations_need_a_record_witness :
  applyPatch' "a.txt" Ex.world = (Throw (SystemError ENOENT), Ex.world)
  ∧ revertPatch Ex.cwd "a.txt" Ex.world = (Throw (SystemError ENOENT), Ex.world)
  ∧ (∀ content, contentOf Ex.cwd "a.txt" Ex.world = Ok content →
       commitPatch' "a.txt" Ex.world = (Throw (SystemError ENOENT), Ex.world)).
Proof.
  apply (operations_need_a_record Ex.cwd RefDiff.diffCreate RefDiff.parsePatch
           RefDiff.diffApply "a.txt" Ex.world).
  - reflexivity.
  - apply world_untracked.
Defined.

Lemma create_snapshots_the_live_file_witness :
  contentOf Ex.cwd (snapshotPath "a.txt") (Ex.created "a.txt") = Ok "hello"
  ∧ contentOf Ex.cwd (pathRecord "a.txt") (Ex.created "a.txt")
    = Ok (resolve Ex.cwd "a.txt")
  ∧ kindOf Ex.cwd "a.txt" (Ex.created "a.txt") = Ok StatFile
  ∧ contentOf Ex.cwd "a.txt" (Ex.created "a.txt") = Ok "hello".
Proof.
  apply (create_snapshots_the_live_file Ex.cwd "a.txt" Ex.world).
  - apply cwd_names.
  - apply untracked_plain_record, world_untracked.
  - vm_compute. discriminate.
  - vm_compute. reflexivity.
  - vm_compute. reflexivity.
  - apply pair_ok. vm_compute. reflexivity.
Defined.

Lemma create_is_idempotent_witness :
  createPatch Ex.cwd "a.txt" (Ex.created "a.txt") = (Ok tt, Ex.created "a.txt").
Proof.
  apply (create_is_idempotent Ex.cwd "a.txt" Ex.world).
  - apply cwd_names.
  - apply untracked_plain_record, world_untracked.
  - vm_compute. discriminate.
  - vm_compute. reflexivity.
  - apply pair_ok. vm_compute. reflexivity.
Defined.

Lemma twins_plain : plain_record Ex.cwd "a.txt" Cases.twins.
Proof.
  repeat (apply Forall_cons_2; [left; vm_compute; reflexivity|]).
  apply Forall_nil_2.
Qed.

Lemma create_shares_the_record_by_basename_witness :
  contentOf Ex.cwd (snapshotPath "a.txt") Cases.retracked = Ok "bonjour"
  ∧ contentOf Ex.cwd (pathRecord "a.txt") Cases.retracked
    = Ok (resolve Ex.cwd "src/a.txt").
Proof.
  apply (create_shares_the_record_by_basename Ex.cwd "a.txt" "src/a.txt"
           Cases.twins Cases.tracked).
  - apply cwd_names.
  - reflexivity.
  - vm_compute. discriminate.
  - apply twins_plain.
  - vm_compute. reflexivity.
  - apply pair_ok. vm_compute. reflexivity.
  - vm_compute. reflexivity.
  - vm_compute. reflexivity.
  - apply pair_ok. vm_compute. reflexivity.
Defined.

Lemma create_of_original_path_txt_witness :
  contentOf Ex.cwd (snapshotPath "original-path.txt")
    (createPatch Ex.cwd "original-path.txt" Cases.named).2
  = Ok (resolve Ex.cwd "original-path.txt").
Proof.
  apply (create_of_original_path_txt Ex.cwd "original-path.txt" Cases.named).
  - reflexivity.
  - apply pair_ok. vm_compute. reflexivity.
Defined.

Lemma commit_consumes_the_snapshot_witness :
  kindOf Ex.cwd (snapshotPath "a.txt") (Ex.committed "a.txt")
  = Throw (SystemError ENOENT)
  ∧ commitPatch' "a.txt" (Ex.committed "a.txt")
    = (Throw (SystemError ENOENT), Ex.committed "a.txt").
Proof.
  apply (commit_consumes_the_snapshot Ex.cwd RefDiff.diffCreate "a.txt"
           (Ex.edited "a.txt")).
  - vm_compute. reflexivity.
  - vm_compute. discriminate.
  - vm_compute. reflexivity.
  - apply pair_ok. vm_compute. reflexivity.
Defined.


(** The same run has written the patched result and the backup before it
    failed. *)
Example stuck_ex :
  contentOf Ex.cwd (patchedPath "a.txt") Cases.stuck = Ok "hello world"
  ∧ contentOf Ex.cwd (backupPath "a.txt") Cases.stuck = Ok "hello".
Proof. split; vm_compute; reflexivity. Qed.

Lemma apply_backs_up_and_links_witness :
  ∃ text result,
    contentOf Ex.cwd (patchPath "a.txt") (Ex.committed "a.txt") = Ok text
    ∧ first_patch (RefDiff.parsePatch text false)
      ≫= (λ p, RefDiff.diffApply "hello" p 3) = Ok (Some result)
    ∧ contentOf Ex.cwd (patchedPath "a.txt") (Ex.applied "a.txt") = Ok result
    ∧ contentOf Ex.cwd (backupPath "a.txt") (Ex.applied "a.txt") = Ok "hello"
    ∧ fs.get (Ex.applied "a.txt") (locate Ex.cwd "a.txt")
      = Some (Symlink (patchedPath "a.txt")).
Proof.
  apply (apply_backs_up_and_links Ex.cwd RefDiff.parsePatch RefDiff.diffApply
           "a.txt" (Ex.committed "a.txt")).
  - vm_compute. reflexivity.
  - vm_compute. reflexivity.
  - vm_compute. discriminate.
  - vm_compute. discriminate.
  - apply pair_ok. vm_compute. reflexivity.
Defined.

Lemma applied_link_resolves_in_working_directory_only_witness :
  (fs.parent (locate Ex.cwd "src/a.txt") = normalizeSegs false Ex.cwd →
   contentOf Ex.cwd "src/a.txt" (Ex.applied "src/a.txt")
   = contentOf Ex.cwd (patchedPath "src/a.txt") (Ex.applied "src/a.txt"))
  ∧ (fs.parent (locate Ex.cwd "src/a.txt") ≠ normalizeSegs false Ex.cwd →
     fs.get (Ex.committed "src/a.txt")
       (locate (fs.parent (locate Ex.cwd "src/a.txt")) (patchedPath "src/a.txt"))
     = None →
     contentOf Ex.cwd "src/a.txt" (Ex.applied "src/a.txt")
     = Throw (SystemError ENOENT)).
Proof.
  apply (applied_link_resolves_in_working_directory_only Ex.cwd
           RefDiff.parsePatch RefDiff.diffApply "src/a.txt"
           (Ex.committed "src/a.txt")).
  - apply cwd_names.
  - vm_compute. reflexivity.
  - vm_compute. discriminate.
  - vm_compute. discriminate.
  - apply pair_ok. vm_compute. reflexivity.
Defined.

Lemma second_apply_overwrites_the_backup_witness :
  ∃ patched text result,
    contentOf Ex.cwd "a.txt" (Ex.applied "a.txt") = Ok patched
    ∧ contentOf Ex.cwd (patchPath "a.txt") (Ex.applied "a.txt") = Ok text
    ∧ first_patch (RefDiff.parsePatch text false)
      ≫= (λ p, RefDiff.diffApply patched p 3) = Ok (Some result)
    ∧ contentOf Ex.cwd (patchedPath "a.txt") Cases.reapplied = Ok result
    ∧ contentOf Ex.cwd (backupPath "a.txt") Cases.reapplied = Ok result.
Proof.
  apply (second_apply_overwrites_the_backup Ex.cwd RefDiff.parsePatch
           RefDiff.diffApply "a.txt" (Ex.applied "a.txt")).
  - apply cwd_names.
  - reflexivity.
  - vm_compute. reflexivity.
  - vm_compute. reflexivity.
  - vm_compute. reflexivity.
  - vm_compute. discriminate.
  - apply pair_ok. vm_compute. reflexivity.
Defined.

Lemma apply_then_revert_is_identity_witness :
  Cases.reverted = Ex.committed "a.txt".
Proof.
  apply (apply_then_revert_is_identity Ex.cwd RefDiff.parsePatch
           RefDiff.diffApply "a.txt" (Ex.committed "a.txt") (Ex.applied "a.txt")).
  - vm_compute. reflexivity.
  - vm_compute. reflexivity.
  - vm_compute. reflexivity.
  - apply pair_ok. vm_compute. reflexivity.
  - apply pair_ok. vm_compute. reflexivity.
Defined.

Lemma revert_restores_the_backup_witness :
  ∃ m', revertPatch Ex.cwd "a.txt" (Ex.applied "a.txt") = (Ok tt, m')
        ∧ kindOf Ex.cwd "a.txt" m' = Ok StatFile
        ∧ contentOf Ex.cwd "a.txt" m' = Ok "hello".
Proof.
  apply (revert_restores_the_backup Ex.cwd "a.txt" (Ex.applied "a.txt")).
  - vm_compute. reflexivity.
  - vm_compute. reflexivity.
  - vm_compute. reflexivity.
  - vm_compute. reflexivity.
Defined.

Lemma revert_consumes_the_backup_witness :
  kindOf Ex.cwd (backupPath "a.txt") Cases.reverted = Throw (SystemError ENOENT)
  ∧ revertPatch Ex.cwd "a.txt" Cases.reverted
    = (Throw (SystemError ENOENT), Cases.reverted).
Proof.
  apply (revert_consumes_the_backup Ex.cwd "a.txt" (Ex.applied "a.txt")).
  - vm_compute. reflexivity.
  - vm_compute. reflexivity.
  - apply pair_ok. vm_compute. reflexivity.
Defined.

(** The other [a.txt], below [src], through a whole life of the first. *)
Lemma commands_leave_other_entries_alone_witness :
  fs.get (Ex.session "a.txt"
            [Create; Edit "hello world"; Commit; Apply; Revert; Apply]
            Ex.world).2
    ["home"; "u"; "src"; "a.txt"]
  = Some (File "hello").
Proof.
  apply (commands_leave_other_entries_alone Ex.cwd RefDiff.diffCreate
           RefDiff.parsePatch RefDiff.diffApply "a.txt").
  - reflexivity.
  - apply untracked_plain_record, world_untracked.
  - apply (bool_decide_unpack _). vm_compute. reflexivity.
  - discriminate.
  - apply (bool_decide_unpack _). vm_compute. reflexivity.
  - vm_compute. reflexivity.
Defined.

Lemma tracking_leaves_the_live_file_witness :
  fs.get (Ex.session "a.txt"
            [Create; Edit "hello world"; Commit; Create; Edit "bye"; Commit]
            Ex.world).2
    (locate Ex.cwd "a.txt")
  = Some (File "hello").
Proof.
  apply (tracking_leaves_the_live_file Ex.cwd RefDiff.diffCreate
           RefDiff.parsePatch RefDiff.diffApply "a.txt").
  - reflexivity.
  - apply untracked_plain_record, world_untracked.
  - apply (bool_decide_unpack _). vm_compute. reflexivity.
  - repeat (constructor; [split; discriminate|]). constructor.
  - vm_compute. reflexivity.
Defined.

Lemma cli_fails_without_record_witness :
  let failure := Cli.Outcome [Cli.ConsoleError "Error:" (SystemError ENOENT)] 1 in
  main' Cli.Apply "a.txt" Ex.world = (failure, Ex.world)
  ∧ main' Cli.Revert "a.txt" Ex.world = (failure, Ex.world)
  ∧ (∀ content, contentOf Ex.cwd "a.txt" Ex.world = Ok content →
       main' Cli.Commit "a.txt" Ex.world = (failure, Ex.world)).
Proof.
  apply (cli_fails_without_record Ex.cwd RefDiff.diffCreate RefDiff.parsePatch
           RefDiff.diffApply "a.txt" Ex.world).
  - reflexivity.
  - apply world_untracked.
Defined.

Lemma cli_reports_conflict_witness :
  main' Cli.Apply "a.txt" Ex.diverged
  = (Cli.Outcome [Cli.ConsoleError "Error:" (Error "Failed to apply patch")] 1,
     Ex.diverged).
Proof.
  apply (cli_reports_conflict Ex.cwd RefDiff.diffCreate RefDiff.parsePatch
           RefDiff.diffApply "a.txt" Ex.diverged "goodbye" "@@@@@||hello world"
           [RefDiff.Hunk "hello" "" " world"]).
  - apply access_ok. vm_compute. reflexivity.
  - apply readFile_ok. vm_compute. reflexivity.
  - apply readFile_ok. vm_compute. reflexivity.
  - vm_compute. reflexivity.
  - vm_compute. reflexivity.
Defined.

Lemma cli_revert_reports_success_without_reverting_witness :
  main' Cli.Revert "a.txt" Cases.stuck
  = (Cli.Outcome [Cli.ConsoleLog ("Patch reverted from " +:+ "a.txt")] 0,
     Cases.stuck).
Proof.
  apply (cli_revert_reports_success_without_reverting Ex.cwd RefDiff.diffCreate
           RefDiff.parsePatch RefDiff.diffApply "a.txt" Cases.stuck StatFile).
  - apply lstat_ok. vm_compute. reflexivity.
  - reflexivity.
  - apply access_ok. vm_compute. reflexivity.
Defined.

(** A tracked file on the command line: [create] reports success. *)
Example cli_create_ex :
  (main' Cli.Create "a.txt" Ex.world).1
  = Cli.Outcome [Cli.ConsoleLog "Patch environment created for a.txt"] 0.
Proof. vm_compute. reflexivity. Qed.

End MoreExamples.

Section ManualExamples.

Import Manual.

Local Open Scope Z_scope.

Example splitLines_ex : splitLines Cases.text = ["one"; "two"; "three"; "four"].
Proof. reflexivity. Qed.

Lemma manual_without_changes_witness :
  applyPatchManually Cases.text {| hunks := Some [Cases.context] |} = Cases.text.
Proof.
  apply (manual_without_changes Cases.text {| hunks := Some [Cases.context] |}).
  repeat constructor.
Defined.

Lemma manual_applies_placed_hunks_witness :
  applyPatchManually Cases.text {| hunks := Some [Cases.first; Cases.last] |}
  = joinLines (newText [([], Cases.first); (["three"], Cases.last)] []).
Proof.
  apply (manual_applies_placed_hunks Cases.text [Cases.first; Cases.last]
           [([], Cases.first); (["three"], Cases.last)] []).
  - reflexivity.
  - repeat split.
  - reflexivity.
  - apply (bool_decide_unpack _). vm_compute. reflexivity.
Defined.

Example placed_hunks_ex :
  joinLines (newText [([], Cases.first); (["three"], Cases.last)] [])
  = joinLines ["ONE"; "two"; "three"; "FOUR"].
Proof. reflexivity. Qed.

Lemma manual_ignores_hunk_order_witness :
  applyPatchManually Cases.text {| hunks := Some [Cases.first; Cases.last] |}
  = applyPatchManually Cases.text {| hunks := Some [Cases.last; Cases.first] |}.
Proof.
  apply (manual_ignores_hunk_order Cases.text).
  - apply Permutation_swap.
  - apply (bool_decide_unpack _). vm_compute. reflexivity.
Defined.

Lemma manual_reads_marks_only_witness :
  applyPatchManually Cases.text {| hunks := Some [Cases.first] |}
  = applyPatchManually Cases.text {| hunks := Some [Cases.unchecked] |}.
Proof.
  apply (manual_reads_marks_only Cases.text).
  constructor; [split; reflexivity|constructor].
Defined.

Lemma manual_past_the_end_witness :
  applyPatchManually Cases.text {| hunks := Some [Cases.late] |}
  = joinLines (splitLines Cases.text ++ added Cases.late).
Proof. apply (manual_past_the_end Cases.text Cases.late). reflexivity. Defined.

Example past_the_end_ex :
  joinLines (splitLines Cases.text ++ added Cases.late)
  = joinLines ["one"; "two"; "three"; "four"; "five"].
Proof. reflexivity. Qed.

Lemma manual_at_line_zero_witness :
  applyPatchManually "" {| hunks := Some [Cases.fresh] |}
  = joinLines (["b"; "c"] ++ [] ++ ["a"; ""]).
Proof.
  apply (manual_at_line_zero "" [] "" "a" ["b"; "c"] Cases.fresh); reflexivity.
Defined.

End ManualExamples.
